(** * Crust: a stack-based bytecode interpreter (explodes/go-crust)

    A shallow embedding of the Go package [crust]: the opcode table, the
    program parser (program.go) and the interpreter (interpreter.go),
    followed by the properties claimed of them.

    Conventions of the embedding.
    - A Go [int] is a [Z]; arithmetic on program data wraps at 64 bits
      ([GoInt.add], [GoInt.sub]).
    - A Go [interface{}] holding an [OpCode], an [int] or a [string] is the
      tagged union [any].
    - A Go function returning [(T, error)] while mutating its receiver is a
      computation [M S T = S -> outcome T * S]: the state is threaded through
      and is kept when the call fails, as in Go.  A run-time panic (a slice
      index out of range) is the third outcome.
    - [bufio.Scanner] with [bufio.ScanWords] is what it still has to deliver:
      for each call of [Scan] that returns true, the word and the value of
      [Err] after it.  Words the scanner does not deliver (after a read error,
      or from a word too long for its buffer on) are not in it.  A source
      text is its bytes; the scanner reads them as UTF-8.  [io.Writer] is the
      text written to it so far.
    - The debug log ([dlog]) writes to the process log only; it does not touch
      the modelled state and is left out. *)

From Stdlib Require Import ZArith List String Ascii Bool Lia.
From Stdlib Require Import DecimalString.
Import ListNotations.
Local Open Scope Z_scope.
Local Open Scope list_scope.

(* ===================================================================== *)
(** ** Go values                                                          *)
(* ===================================================================== *)

Module GoInt.

(** [int] on the 64-bit targets of Go. *)
Definition intSize : Z := 64.
Definition minInt : Z := - 2 ^ (intSize - 1).
Definition maxInt : Z := 2 ^ (intSize - 1) - 1.

Definition inRange (z : Z) : Prop := minInt <= z <= maxInt.

(** Two's-complement wrap-around of a mathematical integer. *)
Definition wrap (z : Z) : Z :=
  (z + 2 ^ (intSize - 1)) mod 2 ^ intSize - 2 ^ (intSize - 1).

Definition add (a b : Z) : Z := wrap (a + b).
Definition sub (a b : Z) : Z := wrap (a - b).

End GoInt.

(** [len(s)] of a slice, as a Go [int]. *)
Definition len {A : Type} (s : list A) : Z := Z.of_nat (List.length s).

(** [s[k]]: [None] is the index-out-of-range panic. *)
Definition index {A : Type} (s : list A) (k : Z) : option A :=
  if k <? 0 then None else nth_error s (Z.to_nat k).

(** [s[:k]] for [0 <= k <= len(s)]. *)
Definition slice_to {A : Type} (s : list A) (k : Z) : list A :=
  firstn (Z.to_nat k) s.

(* ===================================================================== *)
(** ** Errors and outcomes                                                *)
(* ===================================================================== *)

Inductive numErr : Type :=
| ErrSyntax
| ErrRange.

(** The error values the package creates or passes on.  [New] stands for
    [errors.New] and for [errors.Errorf] with its message formatted;
    [Wrap] for [errors.Wrap]; [NumError] for [*strconv.NumError] as
    [strconv.Atoi] returns it; [EOF] is the sentinel [io.EOF]. *)
Inductive error : Type :=
| EOF
| New (msg : string)
| Wrap (cause : error) (msg : string)
| NumError (num : string) (err : numErr).

Inductive outcome (A : Type) : Type :=
| Ret (a : A)
| Fail (e : error)
| Panic (msg : string).
Arguments Ret {A} a.
Arguments Fail {A} e.
Arguments Panic {A} msg.

Definition M (S A : Type) : Type := S -> outcome A * S.

Definition ret {S A : Type} (a : A) : M S A := fun s => (Ret a, s).
Definition fail {S A : Type} (e : error) : M S A := fun s => (Fail e, s).

(** [v, err := m(); if err != nil { return err }; k(v)] *)
Definition bind {S A B : Type} (m : M S A) (k : A -> M S B) : M S B :=
  fun s =>
    match m s with
    | (Ret a, s') => k a s'
    | (Fail e, s') => (Fail e, s')
    | (Panic msg, s') => (Panic msg, s')
    end.

Declare Scope go_scope.
Delimit Scope go_scope with go.
Notation "x <- m ;; k" := (bind m (fun x => k))
  (at level 61, m at next level, right associativity) : go_scope.
Local Open Scope go_scope.

(* ===================================================================== *)
(** ** The Go library functions the package calls                         *)
(* ===================================================================== *)

Module strconv.

Definition isDigit (c : ascii) : bool :=
  let n := Z.of_N (N_of_ascii c) in (48 <=? n) && (n <=? 57).

Definition digitVal (c : ascii) : Z := Z.of_N (N_of_ascii c) - 48.

Definition maxUint64 : Z := 2 ^ 64 - 1.

(** The digit loop of [ParseUint(s, 10, 64)]: left to right, stopping at
    the first character that is not a digit or at the first overflow. *)
Fixpoint parseDigits (n : Z) (s : string) : numErr + Z :=
  match s with
  | EmptyString => inr n
  | String c rest =>
      if negb (isDigit c) then inl ErrSyntax
      else if n >=? maxUint64 / 10 + 1 then inl ErrRange
      else
        let n1 := n * 10 + digitVal c in
        if n1 >? maxUint64 then inl ErrRange else parseDigits n1 rest
  end.

(** [strconv.Atoi]: an optional sign, then one or more decimal digits,
    the value within the range of [int]. *)
Definition Atoi (s : string) : outcome Z :=
  let (neg, body) :=
    match s with
    | String c rest =>
        if Ascii.eqb c "+" then (false, rest)
        else if Ascii.eqb c "-" then (true, rest)
        else (false, s)
    | EmptyString => (false, s)
    end in
  match body with
  | EmptyString => Fail (NumError s ErrSyntax)
  | _ =>
      match parseDigits 0 body with
      | inl e => Fail (NumError s e)
      | inr un =>
          let cutoff := 2 ^ (GoInt.intSize - 1) in
          if negb neg && (un >=? cutoff) then Fail (NumError s ErrRange)
          else if neg && (un >? cutoff) then Fail (NumError s ErrRange)
          else Ret (if neg then - un else un)
      end
  end.

(** [strconv.Itoa] / the [%d] verb: decimal digits, [-] for negatives. *)
Definition Itoa (z : Z) : string := NilZero.string_of_int (Z.to_int z).

End strconv.

Module utf8.

(** [utf8.RuneError], the rune an invalid encoding decodes to. *)
Definition RuneError : Z := 65533.

Definition byte (c : ascii) : Z := Z.of_N (N_of_ascii c).
Definition chr (b : Z) : ascii := ascii_of_N (Z.to_N b).

Definition between (lo hi b : Z) : bool := (lo <=? b) && (b <=? hi).

(** [utf8.DecodeRune(p)]: the first rune of [p] and its width in bytes;
    [(RuneError, 1)] where the encoding is not valid or not the shortest
    one, [(RuneError, 0)] for no bytes at all. *)
Definition DecodeRune (p : string) : Z * nat :=
  match p with
  | EmptyString => (RuneError, 0%nat)
  | String c0 rest =>
      let b0 := byte c0 in
      if b0 <? 128 then (b0, 1%nat)
      else if between 194 223 b0 then
        match rest with
        | String c1 _ =>
            let b1 := byte c1 in
            if between 128 191 b1
            then ((b0 - 192) * 64 + (b1 - 128), 2%nat)
            else (RuneError, 1%nat)
        | _ => (RuneError, 1%nat)
        end
      else if between 224 239 b0 then
        match rest with
        | String c1 (String c2 _) =>
            let b1 := byte c1 in
            let b2 := byte c2 in
            let lo := if b0 =? 224 then 160 else 128 in
            let hi := if b0 =? 237 then 159 else 191 in
            if between lo hi b1 && between 128 191 b2
            then ((b0 - 224) * 4096 + (b1 - 128) * 64 + (b2 - 128), 3%nat)
            else (RuneError, 1%nat)
        | _ => (RuneError, 1%nat)
        end
      else if between 240 244 b0 then
        match rest with
        | String c1 (String c2 (String c3 _)) =>
            let b1 := byte c1 in
            let b2 := byte c2 in
            let b3 := byte c3 in
            let lo := if b0 =? 240 then 144 else 128 in
            let hi := if b0 =? 244 then 143 else 191 in
            if between lo hi b1 && between 128 191 b2 && between 128 191 b3
            then ((b0 - 240) * 262144 + (b1 - 128) * 4096
                  + (b2 - 128) * 64 + (b3 - 128), 4%nat)
            else (RuneError, 1%nat)
        | _ => (RuneError, 1%nat)
        end
      else (RuneError, 1%nat)
  end.

(** [utf8.AppendRune]: the encoding of the rune [r]; that of [RuneError]
    for a surrogate half and for a value that is no code point. *)
Definition EncodeRune (r : Z) : string :=
  let three (v : Z) :=
    String (chr (224 + v / 4096))
      (String (chr (128 + (v / 64) mod 64))
         (String (chr (128 + v mod 64)) EmptyString)) in
  if (r <? 0) || (1114111 <? r) || between 55296 57343 r then three RuneError
  else if r <? 128 then String (chr r) EmptyString
  else if r <? 2048 then
    String (chr (192 + r / 64)) (String (chr (128 + r mod 64)) EmptyString)
  else if r <? 65536 then three r
  else
    String (chr (240 + r / 262144))
      (String (chr (128 + (r / 4096) mod 64))
         (String (chr (128 + (r / 64) mod 64))
            (String (chr (128 + r mod 64)) EmptyString))).

(** The bytes of a string of runes. *)
Definition EncodeRunes (runes : list Z) : string :=
  fold_right (fun r text => String.append (EncodeRune r) text) EmptyString
    runes.

End utf8.

Module bufio.

(** A scanner splitting on words: what it still has to deliver.  Each entry
    is one call of [Scan] that returns true: the word [Text] then returns and
    the error [Err] then returns, [None] for [nil].  After the last entry
    [Scan] returns false, at the end of the input or where the scanner gave
    up. *)
Definition Scanner : Type := list (string * option error).

(** The scanner that delivers the words [ws] with no error. *)
Definition clean (ws : list string) : Scanner :=
  map (fun word => (word, None)) ws.

(** [bufio.isSpace]: the white space [bufio.ScanWords] splits on, the
    runes of the Unicode property White_Space. *)
Definition isSpace (r : Z) : bool :=
  if r <=? 255 then
    (r =? 32) || (r =? 9) || (r =? 10) || (r =? 11) || (r =? 12) || (r =? 13)
    || (r =? 133) || (r =? 160)
  else if (8192 <=? r) && (r <=? 8202) then true
  else (r =? 5760) || (r =? 8232) || (r =? 8233) || (r =? 8239)
       || (r =? 8287) || (r =? 12288).

(** [bufio.ScanWords] run over the whole of [text]: the words between runs
    of white space.  The text is read rune by rune; [skip] counts the bytes
    of the rune decoded last that are still to pass, [space] tells whether
    that rune was white space, [word] holds the bytes of the word so far. *)
Fixpoint splitWords (text : string) (skip : nat) (space : bool)
    (word : string) : list string :=
  match text with
  | EmptyString =>
      match word with EmptyString => [] | _ => [word] end
  | String c rest =>
      match skip with
      | S more =>
          if space then splitWords rest more space word
          else splitWords rest more space
                 (String.append word (String c EmptyString))
      | O =>
          let (r, width) := utf8.DecodeRune text in
          if isSpace r then
            match word with
            | EmptyString => splitWords rest (Nat.pred width) true EmptyString
            | _ => word :: splitWords rest (Nat.pred width) true EmptyString
            end
          else splitWords rest (Nat.pred width) false
                 (String.append word (String c EmptyString))
      end
  end.

(** [bufio.NewScanner(r)] followed by [Split(bufio.ScanWords)], for a
    reader that delivers the bytes of [text] without a read error, its
    words short enough for the buffer of the scanner. *)
Definition NewScanner (text : string) : Scanner :=
  clean (splitWords text 0 false EmptyString).

(** [in.Scan()] together with [in.Text()] and [in.Err()]: the next word and
    the error after it, if [Scan] returns true. *)
Definition Scan (s : Scanner) : option (string * option error) * Scanner :=
  match s with
  | [] => (None, [])
  | delivery :: rest => (Some delivery, rest)
  end.

End bufio.

(* ===================================================================== *)
(** ** Opcodes and instruction signatures                                 *)
(* ===================================================================== *)

(** [type OpCode byte] *)
Definition OpCode : Type := Z.

Definition OpPutln : OpCode := 1.
Definition OpDup : OpCode := 2.
Definition OpPut : OpCode := 3.
Definition OpJump : OpCode := 4.
Definition OpJumpLessThan : OpCode := 5.
Definition OpIpush : OpCode := 11.
Definition OpIadd : OpCode := 12.
Definition OpIsubtract : OpCode := 14.
Definition OpSpush : OpCode := 21.
Definition OpSadd : OpCode := 22.

Definition InstructionPutln : string := "putln".
Definition InstructionDup : string := "dup".
Definition InstructionPut : string := "put".
Definition InstructionJump : string := "jump".
Definition InstructionJumpLessThan : string := "jumpl".
Definition InstructionIpush : string := "ipush".
Definition InstructionIadd : string := "iadd".
Definition InstructionIsubtract : string := "isub".
Definition InstructionSpush : string := "spush".
Definition InstructionSadd : string := "sadd".

(** [type ArgType int], with [argInt = iota] and [argString] after it. *)
Definition ArgType : Type := Z.
Definition argInt : ArgType := 0.
Definition argString : ArgType := 1.

Record instructionSignature : Type := mkSignature {
  op : OpCode;
  args : list ArgType
}.

(** The map literal [instructionSignatures], in the order it is written. *)
Definition instructionSignatures : list (string * instructionSignature) :=
  [ (InstructionPutln, mkSignature OpPutln []);
    (InstructionDup, mkSignature OpDup []);
    (InstructionPut, mkSignature OpPut []);
    (InstructionJump, mkSignature OpJump [argInt]);
    (InstructionJumpLessThan, mkSignature OpJumpLessThan [argInt; argInt]);
    (InstructionIpush, mkSignature OpIpush [argInt]);
    (InstructionIadd, mkSignature OpIadd []);
    (InstructionIsubtract, mkSignature OpIsubtract []);
    (InstructionSpush, mkSignature OpSpush [argString]);
    (InstructionSadd, mkSignature OpSadd []) ].

(** [v, ok := m[key]] on a map with string keys. *)
Fixpoint lookup {V : Type} (key : string) (m : list (string * V)) : option V :=
  match m with
  | [] => None
  | (k, v) :: rest => if String.eqb key k then Some v else lookup key rest
  end.

(* ===================================================================== *)
(** ** program.go: programs and the parser                                *)
(* ===================================================================== *)

(** A value of type [interface{}] as the package stores it: in the
    instruction sequence and on the operand stack. *)
Inductive any : Type :=
| AOp (o : OpCode)
| AInt (n : Z)
| AStr (s : string).

Record Program : Type := mkProgram {
  instructions : list any;
  jumpTable : list Z
}.

Import bufio.

Definition nextInt : M Scanner Z :=
  fun in_ =>
    match Scan in_ with
    | (None, in') => (Fail (New "end of program"), in')
    | (Some (text, Some err), in') =>
        (Fail (Wrap err "unable to advance scanner"), in')
    | (Some (text, None), in') => (strconv.Atoi text, in')
    end.

Definition nextString : M Scanner string :=
  fun in_ =>
    match Scan in_ with
    | (None, in') => (Fail (New "end of program"), in')
    | (Some (text, Some err), in') =>
        (Fail (Wrap err "unable to advance scanner"), in')
    | (Some (text, None), in') => (Ret text, in')
    end.

Definition getArgument (argType : ArgType) : M Scanner any :=
  if argType =? argInt then value <- nextInt ;; ret (AInt value)
  else if argType =? argString then value <- nextString ;; ret (AStr value)
  else fail (New "unknown argument type").

(** The loop of [parseOp] over [signature.args], filling
    [instructions[1+index]] from left to right. *)
Fixpoint getArguments (argTypes : list ArgType) : M Scanner (list any) :=
  match argTypes with
  | [] => ret []
  | argType :: rest =>
      value <- getArgument argType ;;
      values <- getArguments rest ;;
      ret (value :: values)
  end.

(** [parseOp]: the result is the prefix [instructions[:n]] of the scratch
    array of 16 cells, which the function has just written; [n] is its
    length.  No signature of the table has more than two arguments. *)
Definition parseOp (token : string) : M Scanner (list any) :=
  match lookup token instructionSignatures with
  | None => fail (New (String.append "invalid instruction " token))
  | Some signature =>
      values <- getArguments (args signature) ;;
      ret (AOp (op signature) :: values)
  end.

(** The [for in.Scan()] loop of [parseProgram].  Every turn takes at least
    one word, so [fuel] above the number of words left is never used up
    ([parseProgram_total]); [None] is fuel used up.  When [Scan] returns
    false the loop ends and what was parsed is returned: [Err] is not read
    after the loop. *)
Fixpoint parseLoop (fuel : nat) (in_ : Scanner)
    (instructions : list any) (jumpTable : list Z)
  : option (outcome (list any * list Z)) :=
  match fuel with
  | O => None
  | S fuel' =>
      match Scan in_ with
      | (None, _) => Some (Ret (instructions, jumpTable))
      | (Some (token, Some err), _) =>
          Some (Fail (Wrap err "unable to scan program"))
      | (Some (token, None), in1) =>
          match parseOp token in1 with
          | (Ret currentInstructions, in2) =>
              let n := len currentInstructions in
              if n >? 0 then
                parseLoop fuel' in2
                  (instructions ++ currentInstructions)
                  (jumpTable ++ [len instructions])
              else parseLoop fuel' in2 instructions jumpTable
          | (Fail err, _) => Some (Fail (Wrap err "unable to parse op code"))
          | (Panic msg, _) => Some (Panic msg)
          end
      end
  end.

Definition parseProgram (program : Scanner)
  : option (outcome (list any * list Z)) :=
  parseLoop (S (List.length program)) program [] [].

Definition NewProgramFromReader (r : Scanner) : option (outcome Program) :=
  match parseProgram r with
  | None => None
  | Some (Ret (instructions, jumpTable)) =>
      Some (Ret (mkProgram instructions jumpTable))
  | Some (Fail err) => Some (Fail (Wrap err "unable to parse r"))
  | Some (Panic msg) => Some (Panic msg)
  end.

(* ===================================================================== *)
(** ** interpreter.go                                                     *)
(* ===================================================================== *)

Module fmt.

(** [fmt.Sprint(v)] for one operand, the [%v] verb: an integer (an
    [OpCode] too, a byte without a [String] method) in decimal, a string
    as it is. *)
Definition Sprint (v : any) : string :=
  match v with
  | AOp o => strconv.Itoa o
  | AInt n => strconv.Itoa n
  | AStr s => s
  end.

End fmt.

Record Interpreter : Type := mkInterpreter {
  program : Program;
  ip : Z;
  stack : list any;
  stdout : string;
  debug : bool
}.

Definition set_ip (v : Z) (i : Interpreter) : Interpreter :=
  mkInterpreter (program i) v (stack i) (stdout i) (debug i).
Definition set_stack (v : list any) (i : Interpreter) : Interpreter :=
  mkInterpreter (program i) (ip i) v (stdout i) (debug i).
Definition set_stdout (v : string) (i : Interpreter) : Interpreter :=
  mkInterpreter (program i) (ip i) (stack i) v (debug i).
Definition set_debug (v : bool) (i : Interpreter) : Interpreter :=
  mkInterpreter (program i) (ip i) (stack i) (stdout i) v.

Definition InterpreterOption : Type := Interpreter -> Interpreter.

(** [os.Stdout] at the start: nothing written yet. *)
Definition NewInterpreter (program : Program) (opts : list InterpreterOption)
  : Interpreter :=
  fold_left (fun interpreter opt => opt interpreter) opts
    (mkInterpreter program 0 [] EmptyString false).

Definition EnableDebug (debug : bool) : InterpreterOption := set_debug debug.
Definition WithStdout (w : string) : InterpreterOption := set_stdout w.

Definition push (v : any) : M Interpreter unit :=
  fun i => (Ret tt, set_stack (stack i ++ [v]) i).

Definition pop : M Interpreter any :=
  fun i =>
    if len (stack i) =? 0 then (Fail (New "stack is empty"), i)
    else
      match index (stack i) (len (stack i) - 1) with
      | Some value =>
          (Ret value, set_stack (slice_to (stack i) (len (stack i) - 1)) i)
      | None => (Panic "index out of range", i)
      end.

Definition peek : M Interpreter any :=
  fun i =>
    if len (stack i) =? 0 then (Fail (New "stack is empty"), i)
    else
      match index (stack i) (len (stack i) - 1) with
      | Some value => (Ret value, i)
      | None => (Panic "index out of range", i)
      end.

Definition asInt {S : Type} (v : any) : M S Z :=
  match v with
  | AInt value => ret value
  | _ => fail (New (String.append "value not int: " (fmt.Sprint v)))
  end.

Definition asString {S : Type} (v : any) : M S string :=
  match v with
  | AStr value => ret value
  | _ => fail (New (String.append "value not string: " (fmt.Sprint v)))
  end.

Definition popInt : M Interpreter Z :=
  v <- pop ;; asInt v.

Definition popString : M Interpreter string :=
  v <- pop ;; asString v.

(** [fmt.Fprint(i.stdout, args...)]; the result of the write is dropped by
    every caller. *)
Definition toStdout (text : string) : M Interpreter unit :=
  fun i => (Ret tt, set_stdout (String.append (stdout i) text) i).

Definition jump (line : Z) : M Interpreter unit :=
  fun i =>
    let index_ := GoInt.sub line 1 in
    if (index_ <? 0) || (index_ >=? len (jumpTable (program i))) then
      (Fail (New "invalid jump index"), i)
    else
      match index (jumpTable (program i)) index_ with
      | Some target => (Ret tt, set_ip target i)
      | None => (Panic "index out of range", i)
      end.

(** [i.ip++] follows a successful [instructions[i.ip]], so it stays within
    the length of the slice and does not wrap. *)
Definition nextInstruction : M Interpreter any :=
  fun i =>
    if ip i =? len (instructions (program i)) then (Fail EOF, i)
    else
      match index (instructions (program i)) (ip i) with
      | Some instruction => (Ret instruction, set_ip (ip i + 1) i)
      | None => (Panic "index out of range", i)
      end.

Definition Interpreter_nextInt : M Interpreter Z :=
  instruction <- nextInstruction ;; asInt instruction.

Definition Interpreter_nextString : M Interpreter string :=
  instruction <- nextInstruction ;; asString instruction.

(** [i.jump(line)] with its result dropped, as [OpJumpLessThan] calls it. *)
Definition jump_ignoring_error (line : Z) : M Interpreter unit :=
  fun i =>
    match jump line i with
    | (Panic msg, i') => (Panic msg, i')
    | (_, i') => (Ret tt, i')
    end.

Definition executeOp (op : OpCode) : M Interpreter unit :=
  if op =? OpPutln then
    toStdout (String "010"%char EmptyString)
  else if op =? OpDup then
    value <- peek ;;
    push value
  else if op =? OpPut then
    top <- pop ;;
    toStdout (fmt.Sprint top)
  else if op =? OpJump then
    line <- Interpreter_nextInt ;;
    jump line
  else if op =? OpJumpLessThan then
    value <- Interpreter_nextInt ;;
    line <- Interpreter_nextInt ;;
    top <- popInt ;;
    if top <? value then jump_ignoring_error line else ret tt
  else if op =? OpIpush then
    value <- Interpreter_nextInt ;;
    push (AInt value)
  else if op =? OpIadd then
    a <- popInt ;;
    b <- popInt ;;
    let c := GoInt.add b a in
    push (AInt c)
  else if op =? OpIsubtract then
    a <- popInt ;;
    b <- popInt ;;
    let c := GoInt.sub b a in
    push (AInt c)
  else if op =? OpSpush then
    value <- Interpreter_nextString ;;
    push (AStr value)
  else if op =? OpSadd then
    a <- popString ;;
    b <- popString ;;
    let c := String.append b a in
    push (AStr c)
  else
    fail (New (String.append "invalid op code: " (fmt.Sprint (AOp op)))).

Definition Step : M Interpreter unit :=
  instruction <- nextInstruction ;;
  match instruction with
  | AOp op => executeOp op
  | _ =>
      fail (New (String.append "invalid program, not an op code: "
                   (fmt.Sprint instruction)))
  end.

(** [Run]: the [for] loop around [Step], which need not end; [None] is
    [fuel] steps taken without [Step] returning an error. *)
Fixpoint Run (fuel : nat) (i : Interpreter)
  : option (outcome unit * Interpreter) :=
  match fuel with
  | O => None
  | S fuel' =>
      match Step i with
      | (Ret _, i') => Run fuel' i'
      | (Fail EOF, i') => Some (Ret tt, i')
      | (Fail err, i') => Some (Fail err, i')
      | (Panic msg, i') => Some (Panic msg, i')
      end
  end.

(* ===================================================================== *)
(** ** Vocabulary of the properties                                       *)
(* ===================================================================== *)

(** The cell [k] places after the instruction pointer. *)
Definition cell_at (i : Interpreter) (k : Z) : option any :=
  index (instructions (program i)) (ip i + k).

(** The errors of the interpreter by name. *)
Definition ErrInvalidJump : error := New "invalid jump index".
Definition ErrStackEmpty : error := New "stack is empty".
Definition ErrNotInt (v : any) : error :=
  New (String.append "value not int: " (fmt.Sprint v)).
Definition ErrNotString (v : any) : error :=
  New (String.append "value not string: " (fmt.Sprint v)).

(** A slice is never longer than the largest [int]. *)
Definition sliceLen {A : Type} (s : list A) : Prop := len s <= GoInt.maxInt.

(** Concrete programs and states used as examples. *)
Definition jump_state : Interpreter :=
  NewInterpreter (mkProgram [AOp OpJump; AInt 5] [0]) [].

Definition not_taken_program : Program :=
  mkProgram [AOp OpIpush; AInt 50; AOp OpJumpLessThan; AInt 10; AInt 99] [0; 2].

Definition not_taken_state : Interpreter :=
  mkInterpreter not_taken_program 2 [AInt 50] EmptyString false.

Definition dropped_error_program : Program :=
  mkProgram [AOp OpIpush; AInt 5; AOp OpJumpLessThan; AInt 10; AInt 99] [0; 2].

Definition dropped_error_state : Interpreter :=
  mkInterpreter dropped_error_program 2 [AInt 5] EmptyString false.

(** [ipush 5; ipush 3; isub; put], one instruction per line. *)
Definition isub_text : string := "ipush 5
ipush 3
isub
put".

Definition isub_program : Program :=
  mkProgram [AOp OpIpush; AInt 5; AOp OpIpush; AInt 3; AOp OpIsubtract; AOp OpPut]
            [0; 2; 4; 5].

Definition isub_state : Interpreter :=
  mkInterpreter isub_program 4 [AInt 5; AInt 3] EmptyString false.

(** [spush hello; spush " - "; spush world; sadd; sadd; put] as an
    instruction sequence.  The second text has spaces in it, so no source text
    parses to it: the parser takes one white-space-delimited word as a text
    argument. *)
Definition hello_program : Program :=
  mkProgram
    [AOp OpSpush; AStr "hello"; AOp OpSpush; AStr " - "; AOp OpSpush;
     AStr "world"; AOp OpSadd; AOp OpSadd; AOp OpPut]
    [0; 2; 4; 6; 7; 8].

Definition sadd_state : Interpreter :=
  mkInterpreter hello_program 6 [AStr "hello"; AStr " - "; AStr "world"]
    EmptyString false.

(** The hello-world program of the README, where the middle text is [-]. *)
Definition readme_hello_text : string := "spush hello
spush  -
spush world
sadd
sadd
put".

(** The counting program of the README. *)
Definition counting_text : string := "ipush 0
ipush 1
iadd
dup
put
putln
dup
jumpl 10 2".

Definition counting_program : Program :=
  mkProgram
    [AOp OpIpush; AInt 0; AOp OpIpush; AInt 1; AOp OpIadd; AOp OpDup;
     AOp OpPut; AOp OpPutln; AOp OpDup; AOp OpJumpLessThan; AInt 10; AInt 2]
    [0; 2; 4; 5; 6; 7; 8; 9].

Definition counting_output : string := "1
2
3
4
5
6
7
8
9
10
".

(** [n] calls of [Step] in a row, stopping at the first that does not
    return [nil]. *)
Fixpoint Steps (n : nat) (i : Interpreter) : outcome unit * Interpreter :=
  match n with
  | O => (Ret tt, i)
  | S n' =>
      match Step i with
      | (Ret _, i') => Steps n' i'
      | r => r
      end
  end.

(** [m] leaves the component [f] of the interpreter as it is. *)
Definition frame {T A : Type} (f : Interpreter -> T) (m : M Interpreter A)
  : Prop :=
  forall i : Interpreter, f (snd (m i)) = f i.

(** Whenever [m] fails, the error and the state it leaves satisfy [P]. *)
Definition on_fail {A : Type} (P : error -> Interpreter -> Prop)
    (m : M Interpreter A) : Prop :=
  forall (i : Interpreter) (e : error) (i' : Interpreter),
    m i = (Fail e, i') -> P e i'.

(** Whenever [m] fails, it has written nothing. *)
Definition quiet {A : Type} (m : M Interpreter A) : Prop :=
  forall (i : Interpreter) (e : error) (i' : Interpreter),
    m i = (Fail e, i') -> stdout i' = stdout i.

(** The instruction pointer is at the end of the instruction sequence. *)
Definition at_end (i : Interpreter) : Prop :=
  ip i = len (instructions (program i)).

(** The states an interpreter can be brought to by calls of [Step] and of
    [Run] that return. *)
Inductive calls_lead (i : Interpreter) : Interpreter -> Prop :=
| lead_here : calls_lead i i
| lead_Step (i' : Interpreter) :
    calls_lead i i' -> calls_lead i (snd (Step i'))
| lead_Run (i' : Interpreter) (fuel : nat) (r : outcome unit)
    (i'' : Interpreter) :
    calls_lead i i' -> Run fuel i' = Some (r, i'') -> calls_lead i i''.

(** The errors a step can return: the sentinel, with the instruction
    pointer at the end, or an error made by the interpreter. *)
Definition step_error (e : error) (i : Interpreter) : Prop :=
  (e = EOF /\ at_end i) \/ (exists msg : string, e = New msg).

(** The operations that pop or peek without reading an argument first. *)
Definition popping_ops : list OpCode :=
  [OpDup; OpPut; OpIadd; OpIsubtract; OpSadd].

Definition put_program : Program := mkProgram [AOp OpPut] [0].

(** The operations that take two operands of one kind from the stack. *)
Definition binary_ops : list OpCode := [OpIadd; OpIsubtract; OpSadd].

(** Whether [v] is of the kind the binary operation [o] takes. *)
Definition wants (o : OpCode) (v : any) : bool :=
  match v with
  | AInt _ => (o =? OpIadd) || (o =? OpIsubtract)
  | AStr _ => o =? OpSadd
  | AOp _ => false
  end.

(** The error of the binary operation [o] on a value of the other kind. *)
Definition ErrKind (o : OpCode) (v : any) : error :=
  if o =? OpSadd then ErrNotString v else ErrNotInt v.

Definition mismatch_program : Program :=
  mkProgram [AOp OpSpush; AStr "x"; AOp OpIpush; AInt 1; AOp OpIadd] [0; 2; 4].

Definition mismatch_state : Interpreter :=
  mkInterpreter mismatch_program 4 [AStr "x"; AInt 1] EmptyString false.

(** The words of [in_], all delivered without an error, are parsed, line by
    line and to the end, into [lines]: each line is what one call of
    [parseOp] returns. *)
Inductive parsed_as : Scanner -> list (list any) -> Prop :=
| parsed_end : parsed_as [] []
| parsed_line (token : string) (in1 in2 : Scanner) (cells : list any)
    (lines : list (list any)) :
    parseOp token in1 = (Ret cells, in2) ->
    parsed_as in2 lines ->
    parsed_as ((token, None) :: in1) (cells :: lines).

(** A line: an opcode cell, then argument cells. *)
Definition is_argument (v : any) : Prop :=
  match v with
  | AOp _ => False
  | AInt _ | AStr _ => True
  end.

Definition is_line (cells : list any) : Prop :=
  exists (o : OpCode) (values : list any),
    cells = AOp o :: values /\ Forall is_argument values.

(** The length of the instruction sequence before each line is appended,
    starting from a sequence of length [base]. *)
Fixpoint offsets (base : Z) (lines : list (list any)) : list Z :=
  match lines with
  | [] => []
  | cells :: rest => base :: offsets (base + len cells) rest
  end.

(** The error [parseProgram] makes of an error of [parseOp]. *)
Definition parse_error (e : error) : error := Wrap e "unable to parse op code".

Definition ErrInvalidInstruction (token : string) : error :=
  New (String.append "invalid instruction " token).
Definition ErrEndOfProgram : error := New "end of program".

(** The number a string of decimal digits denotes, by position. *)
Fixpoint decimal_value (digits : string) : Z :=
  match digits with
  | EmptyString => 0
  | String c rest =>
      strconv.digitVal c * 10 ^ Z.of_nat (String.length rest)
      + decimal_value rest
  end.

Fixpoint all_digits (s : string) : bool :=
  match s with
  | EmptyString => true
  | String c rest => strconv.isDigit c && all_digits rest
  end.



(* ===================================================================== *)
(** ** Vocabulary of the properties of parsed programs                    *)
(* ===================================================================== *)

(** The lines the table allows: an opcode cell with the argument cells of its
    signature. *)
Definition line_ok (cells : list any) : Prop :=
  match cells with
  | [AOp o] =>
      o = OpPutln \/ o = OpDup \/ o = OpPut \/ o = OpIadd \/ o = OpIsubtract
      \/ o = OpSadd
  | [AOp o; AInt _] => o = OpJump \/ o = OpIpush
  | [AOp o; AStr _] => o = OpSpush
  | [AOp o; AInt _; AInt _] => o = OpJumpLessThan
  | _ => False
  end.

(** The offset at which line [k] (from 0) starts; with [k] the number of
    lines, the length of the instruction sequence. *)
Definition line_start (lines : list (list any)) (k : nat) : Z :=
  len (List.concat (firstn k lines)).

(** The program is made of the lines [lines], as the parser makes it. *)
Definition well_formed (lines : list (list any)) (p : Program) : Prop :=
  Forall line_ok lines /\
  instructions p = List.concat lines /\
  jumpTable p = offsets 0 lines.

(** The instruction pointer is at the start of a line or at the end. *)
Definition at_line (lines : list (list any)) (i : Interpreter) : Prop :=
  exists k : nat, (k <= List.length lines)%nat /\ ip i = line_start lines k.

(** The errors a step on a well-formed program can end in: all of them
    come from the operand stack or from a jump. *)
Definition stack_error (i : Interpreter) (e : error) : Prop :=
  e = ErrStackEmpty \/ e = ErrInvalidJump \/
  exists v : any, In v (stack i) /\ (e = ErrNotInt v \/ e = ErrNotString v).

Definition step_ok (lines : list (list any)) (i : Interpreter)
    (r : outcome unit * Interpreter) : Prop :=
  program (snd r) = program i /\
  at_line lines (snd r) /\
  match fst r with
  | Ret _ => True
  | Fail e => stack_error i e
  | Panic _ => False
  end.

(** The errors [Run] can return on a well-formed program. *)
Definition run_error (e : error) : Prop :=
  e = ErrStackEmpty \/ e = ErrInvalidJump \/
  exists v : any, e = ErrNotInt v \/ e = ErrNotString v.

(** The cell a word of the source is parsed to: the opcode of a mnemonic,
    the integer [Atoi] reads, or the word itself as a text. *)
Definition cell_of (word : string) (c : any) : Prop :=
  match c with
  | AOp o =>
      exists signature : instructionSignature,
        lookup word instructionSignatures = Some signature /\ o = op signature
  | AInt n => strconv.Atoi word = Ret n
  | AStr s => s = word
  end.

(** The result of parsing with [pre] already in the instruction sequence and
    [jpre] in the jump table, from the result of parsing from nothing: the
    new cells come after [pre], and the new offsets are moved by its length. *)
Definition relocate (pre : list any) (jpre : list Z)
    (r : outcome (list any * list Z)) : outcome (list any * list Z) :=
  match r with
  | Ret (instructions, jumpTable) =>
      Ret (pre ++ instructions, jpre ++ map (Z.add (len pre)) jumpTable)
  | Fail e => Fail e
  | Panic msg => Panic msg
  end.

(** [m] never reads the output: started with any text [out] in the sink it
    gives the same result and the same state, the sink holding [out]
    followed by a text [w] that does not depend on [out]. *)
Definition writes {A : Type} (m : M Interpreter A) : Prop :=
  forall i : Interpreter,
  exists (r : outcome A) (w : string) (i' : Interpreter),
    forall out : string,
      m (set_stdout out i) = (r, set_stdout (String.append out w) i').

(** [ipush N; ipush M; iadd; put] as the parser lays it out. *)
Definition sum_program (N M : Z) : Program :=
  mkProgram
    [AOp OpIpush; AInt N; AOp OpIpush; AInt M; AOp OpIadd; AOp OpPut]
    [0; 2; 4; 5].

(** [ipush N; dup; iadd; put] as the parser lays it out. *)
Definition double_program (N : Z) : Program :=
  mkProgram [AOp OpIpush; AInt N; AOp OpDup; AOp OpIadd; AOp OpPut]
    [0; 2; 3; 4].

(** The opcodes of the table, and those that read an argument. *)
Definition table_ops : list OpCode :=
  [OpPutln; OpDup; OpPut; OpJump; OpJumpLessThan; OpIpush; OpIadd;
   OpIsubtract; OpSpush; OpSadd].

(** The opcodes that read an integer argument, and all that read one. *)
Definition int_arg_ops : list OpCode := [OpJump; OpJumpLessThan; OpIpush].
Definition arg_ops : list OpCode := [OpJump; OpJumpLessThan; OpIpush; OpSpush].

Definition ErrNotOpCode (v : any) : error :=
  New (String.append "invalid program, not an op code: " (fmt.Sprint v)).
Definition ErrInvalidOpCode (o : OpCode) : error :=
  New (String.append "invalid op code: " (strconv.Itoa o)).

(** The options the package offers: [EnableDebug] and [WithStdout]. *)
Definition is_option (opt : InterpreterOption) : Prop :=
  (exists debug : bool, opt = EnableDebug debug) \/
  (exists w : string, opt = WithStdout w).

(* ===================================================================== *)
(** ** crust.go: the command line                                         *)
(* ===================================================================== *)

(** [os.Open(path)] and the words [bufio.ScanWords] finds in the file, or the
    error of [os.Open]. *)
Definition FileSystem : Type := string -> error + Scanner.

Definition NewProgramFromFile (fs : FileSystem) (path : string)
  : option (outcome Program) :=
  match fs path with
  | inl err => Some (Fail (Wrap err "unable to open program file"))
  | inr f => NewProgramFromReader f
  end.

(** How the process ends: the exit code, what the program wrote to the
    standard output, and the error [exitWithCode] printed, if any. *)
Record Exit : Type := mkExit {
  code : Z;
  written : string;
  printed : option error
}.

Definition exitWithCode (code : Z) (written : string) (err : error) : Exit :=
  mkExit code written (Some err).

Definition exitWith (written : string) (err : error) : Exit :=
  exitWithCode 1 written err.

(** [main] with [os.Args] and the files as arguments; [None] is [Run] not
    having returned within [fuel] steps, and a panic of [Run] is a panic of
    the process. *)
Definition main (osArgs : list string) (fs : FileSystem) (fuel : nat)
  : option (outcome Exit) :=
  if negb (len osArgs =? 2) then
    Some (Ret (exitWith EmptyString (New "program file not specified")))
  else
    match index osArgs 1 with
    | None => Some (Panic "index out of range")
    | Some path =>
        match NewProgramFromFile fs path with
        | None => None
        | Some (Fail err) =>
            Some (Ret (exitWith EmptyString (Wrap err "unable to run program")))
        | Some (Panic msg) => Some (Panic msg)
        | Some (Ret program) =>
            let interpreter := NewInterpreter program [EnableDebug false] in
            match Run fuel interpreter with
            | None => None
            | Some (Panic msg, _) => Some (Panic msg)
            | Some (Fail EOF, i') => Some (Ret (mkExit 0 (stdout i') None))
            | Some (Fail err, i') => Some (Ret (exitWithCode 2 (stdout i') err))
            | Some (Ret _, i') => Some (Ret (mkExit 0 (stdout i') None))
            end
        end
    end.

(** The errors [parseOp] can return on the words [in_] still to be
    delivered: the words ran out where an argument was due; a word that is
    not in the table stood where a mnemonic was due; [Atoi] refused a word;
    the scanner had an error after the word of an argument. *)
Definition op_failure (token : string) (in_ : Scanner) (e : error) : Prop :=
  e = ErrEndOfProgram \/
  (lookup token instructionSignatures = None /\
   e = ErrInvalidInstruction token) \/
  (exists (word : string) (k : numErr),
      In (word, None) in_ /\ e = NumError word k /\
      strconv.Atoi word = Fail e) \/
  (exists (word : string) (err : error),
      In (word, Some err) in_ /\ e = Wrap err "unable to advance scanner").

(** The errors [parseProgram] can return on the deliveries [in_]: an error
    of [parseOp] at a mnemonic of [in_], wrapped, or the error the scanner
    had after the word of a mnemonic, wrapped. *)
Definition parse_failure (in_ : Scanner) (e : error) : Prop :=
  (exists (token : string) (rest : Scanner) (e0 : error),
      (exists pre : Scanner, in_ = pre ++ (token, None) :: rest) /\
      op_failure token rest e0 /\
      e = parse_error e0) \/
  (exists (word : string) (err : error),
      In (word, Some err) in_ /\ e = Wrap err "unable to scan program").

(* ===================================================================== *)
(** ** Basic facts: integers, slices, fetch and stack access              *)
(* ===================================================================== *)

Ltac int_consts :=
  cbv [GoInt.inRange GoInt.minInt GoInt.maxInt GoInt.wrap GoInt.add GoInt.sub
       GoInt.intSize] in *;
  change (2 ^ (64 - 1)) with 9223372036854775808 in *;
  change (2 ^ 64) with 18446744073709551616 in *.

Lemma wrap_inRange (z : Z) : GoInt.inRange z -> GoInt.wrap z = z.
Proof.
  intros H. int_consts. rewrite Z.mod_small; lia.
Qed.

Lemma wrap_is_inRange (z : Z) : GoInt.inRange (GoInt.wrap z).
Proof.
  int_consts.
  pose proof (Z.mod_pos_bound (z + 9223372036854775808) 18446744073709551616).
  lia.
Qed.

Lemma sub_one_min : GoInt.sub GoInt.minInt 1 = GoInt.maxInt.
Proof. reflexivity. Qed.

Lemma sub_one_above_min (line : Z) :
  GoInt.inRange line -> line <> GoInt.minInt -> GoInt.sub line 1 = line - 1.
Proof.
  intros H Hne. unfold GoInt.sub. apply wrap_inRange. int_consts. lia.
Qed.

Lemma len_app {A : Type} (s t : list A) : len (s ++ t) = len s + len t.
Proof. unfold len. rewrite length_app. lia. Qed.

Lemma len_nonneg {A : Type} (s : list A) : 0 <= len s.
Proof. unfold len. lia. Qed.

Lemma index_Some_bounds {A : Type} (s : list A) (k : Z) (v : A) :
  index s k = Some v -> 0 <= k < len s.
Proof.
  unfold index, len. destruct (Z.ltb_spec k 0); [discriminate |].
  intros Hn. assert (Hlt : (Z.to_nat k < List.length s)%nat).
  { apply nth_error_Some. congruence. }
  lia.
Qed.

Lemma index_last {A : Type} (s : list A) (v : A) :
  index (s ++ [v]) (len (s ++ [v]) - 1) = Some v.
Proof.
  rewrite len_app. unfold index, len. simpl.
  destruct (Z.ltb_spec (Z.of_nat (List.length s) + 1 - 1) 0); [lia |].
  replace (Z.to_nat (Z.of_nat (List.length s) + 1 - 1)) with (List.length s) by lia.
  rewrite nth_error_app2 by lia. rewrite Nat.sub_diag. reflexivity.
Qed.

Lemma slice_to_last {A : Type} (s : list A) (v : A) :
  slice_to (s ++ [v]) (len (s ++ [v]) - 1) = s.
Proof.
  rewrite len_app. unfold slice_to, len. simpl.
  replace (Z.to_nat (Z.of_nat (List.length s) + 1 - 1)) with (List.length s) by lia.
  rewrite firstn_app, Nat.sub_diag, firstn_all. simpl. apply app_nil_r.
Qed.

Lemma len_snoc_nonzero {A : Type} (s : list A) (v : A) :
  (len (s ++ [v]) =? 0) = false.
Proof.
  rewrite len_app. unfold len. simpl. apply Z.eqb_neq. lia.
Qed.

Lemma nextInstruction_cell (i : Interpreter) (c : any) :
  cell_at i 0 = Some c ->
  nextInstruction i = (Ret c, set_ip (ip i + 1) i).
Proof.
  unfold cell_at, nextInstruction. rewrite Z.add_0_r. intros H.
  pose proof (index_Some_bounds _ _ _ H) as Hb.
  destruct (Z.eqb_spec (ip i) (len (instructions (program i)))); [lia |].
  rewrite H. reflexivity.
Qed.

Lemma cell_at_shift (i i' : Interpreter) (k j : Z) :
  program i' = program i -> ip i' = ip i + k ->
  cell_at i' j = cell_at i (k + j).
Proof.
  unfold cell_at. intros -> ->. rewrite Z.add_assoc. reflexivity.
Qed.

Lemma Step_op (i : Interpreter) (o : OpCode) :
  cell_at i 0 = Some (AOp o) ->
  Step i = executeOp o (set_ip (ip i + 1) i).
Proof.
  intros H. unfold Step, bind. rewrite (nextInstruction_cell _ _ H). reflexivity.
Qed.

Lemma nextInt_cell (i : Interpreter) (n : Z) :
  cell_at i 0 = Some (AInt n) ->
  Interpreter_nextInt i = (Ret n, set_ip (ip i + 1) i).
Proof.
  intros H. unfold Interpreter_nextInt, bind.
  rewrite (nextInstruction_cell _ _ H). reflexivity.
Qed.

Lemma pop_snoc (i : Interpreter) (rest : list any) (v : any) :
  stack i = rest ++ [v] -> pop i = (Ret v, set_stack rest i).
Proof.
  intros H. unfold pop. rewrite H, len_snoc_nonzero, index_last, slice_to_last.
  reflexivity.
Qed.

Lemma peek_snoc (i : Interpreter) (rest : list any) (v : any) :
  stack i = rest ++ [v] -> peek i = (Ret v, i).
Proof.
  intros H. unfold peek. rewrite H, len_snoc_nonzero, index_last. reflexivity.
Qed.

Lemma pop_empty (i : Interpreter) :
  stack i = [] -> pop i = (Fail (New "stack is empty"), i).
Proof. intros H. unfold pop. rewrite H. reflexivity. Qed.

Lemma peek_empty (i : Interpreter) :
  stack i = [] -> peek i = (Fail (New "stack is empty"), i).
Proof. intros H. unfold peek. rewrite H. reflexivity. Qed.

Lemma popInt_snoc (i : Interpreter) (rest : list any) (n : Z) :
  stack i = rest ++ [AInt n] -> popInt i = (Ret n, set_stack rest i).
Proof.
  intros H. unfold popInt, bind. rewrite (pop_snoc _ _ _ H). reflexivity.
Qed.

Lemma popString_snoc (i : Interpreter) (rest : list any) (s : string) :
  stack i = rest ++ [AStr s] -> popString i = (Ret s, set_stack rest i).
Proof.
  intros H. unfold popString, bind. rewrite (pop_snoc _ _ _ H). reflexivity.
Qed.

(** [executeOp] at each opcode of the table. *)
Lemma executeOp_jump :
  executeOp OpJump = (line <- Interpreter_nextInt ;; jump line).
Proof. reflexivity. Qed.

Lemma executeOp_jumpl :
  executeOp OpJumpLessThan =
  (value <- Interpreter_nextInt ;;
   line <- Interpreter_nextInt ;;
   top <- popInt ;;
   if top <? value then jump_ignoring_error line else ret tt).
Proof. reflexivity. Qed.

Lemma executeOp_iadd :
  executeOp OpIadd =
  (a <- popInt ;; b <- popInt ;; push (AInt (GoInt.add b a))).
Proof. reflexivity. Qed.

Lemma executeOp_isub :
  executeOp OpIsubtract =
  (a <- popInt ;; b <- popInt ;; push (AInt (GoInt.sub b a))).
Proof. reflexivity. Qed.

Lemma executeOp_sadd :
  executeOp OpSadd =
  (a <- popString ;; b <- popString ;; push (AStr (String.append b a))).
Proof. reflexivity. Qed.

Lemma executeOp_put :
  executeOp OpPut = (top <- pop ;; toStdout (fmt.Sprint top)).
Proof. reflexivity. Qed.

Lemma executeOp_dup :
  executeOp OpDup = (value <- peek ;; push value).
Proof. reflexivity. Qed.

(* ===================================================================== *)
(** ** Jumps to a line outside the jump table                             *)
(* ===================================================================== *)

Lemma jump_invalid (i : Interpreter) (line : Z) :
  GoInt.inRange line ->
  sliceLen (jumpTable (program i)) ->
  line < 1 \/ line > len (jumpTable (program i)) ->
  jump line i = (Fail ErrInvalidJump, i).
Proof.
  intros Hr Hs Hl. unfold jump.
  pose proof (len_nonneg (jumpTable (program i))) as Hn.
  assert (Hc : (GoInt.sub line 1 <? 0)
               || (GoInt.sub line 1 >=? len (jumpTable (program i))) = true).
  { destruct (Z.eq_dec line GoInt.minInt) as [-> | Hne].
    - rewrite sub_one_min. apply orb_true_iff. right.
      unfold sliceLen in Hs. apply Z.geb_le. lia.
    - rewrite (sub_one_above_min _ Hr Hne). apply orb_true_iff.
      destruct Hl; [left; apply Z.ltb_lt | right; apply Z.geb_le]; lia. }
  rewrite Hc. reflexivity.
Qed.

Lemma jumpl_fetch (i : Interpreter) (value line : Z) :
  cell_at i 0 = Some (AOp OpJumpLessThan) ->
  cell_at i 1 = Some (AInt value) ->
  cell_at i 2 = Some (AInt line) ->
  Step i =
  (top <- popInt ;;
   if top <? value then jump_ignoring_error line else ret tt)
    (set_ip (ip i + 3) i).
Proof.
  intros H0 H1 H2. rewrite (Step_op _ _ H0), executeOp_jumpl.
  unfold bind at 1. rewrite (nextInt_cell _ value).
  2: { rewrite (cell_at_shift i _ 1 0); [exact H1 | reflexivity | reflexivity]. }
  unfold bind at 1. rewrite (nextInt_cell _ line).
  2: { rewrite (cell_at_shift i _ 2 0); [exact H2 | reflexivity | simpl; lia]. }
  simpl. replace (ip i + 1 + 1 + 1) with (ip i + 3) by lia. reflexivity.
Qed.

Lemma jump_ignoring_error_stack (line : Z) (i : Interpreter) :
  stack (snd (jump_ignoring_error line i)) = stack i.
Proof.
  unfold jump_ignoring_error, jump.
  destruct ((GoInt.sub line 1 <? 0)
            || (GoInt.sub line 1 >=? len (jumpTable (program i)))); simpl;
    [reflexivity |].
  destruct (index (jumpTable (program i)) (GoInt.sub line 1)); reflexivity.
Qed.

(** C1 (as amended).  A [jump] to a line below 1 or above the number of
    parsed lines makes [Step] fail with the invalid-jump error and leaves the
    operand stack as it was.  A [jumpl] pops the integer on top of the stack
    before any jump is tried, so the stack is one value shorter after the step
    whatever the line is; when the popped value is not less than the threshold
    no jump is tried and [Step] succeeds at the next instruction, also for a
    line outside the table. *)
Theorem jump_line_out_of_range :
  (forall (i : Interpreter) (line : Z),
      cell_at i 0 = Some (AOp OpJump) ->
      cell_at i 1 = Some (AInt line) ->
      GoInt.inRange line ->
      sliceLen (jumpTable (program i)) ->
      line < 1 \/ line > len (jumpTable (program i)) ->
      fst (Step i) = Fail ErrInvalidJump /\
      stack (snd (Step i)) = stack i /\
      stdout (snd (Step i)) = stdout i) /\
  (forall (i : Interpreter) (value line top : Z) (rest : list any),
      cell_at i 0 = Some (AOp OpJumpLessThan) ->
      cell_at i 1 = Some (AInt value) ->
      cell_at i 2 = Some (AInt line) ->
      stack i = rest ++ [AInt top] ->
      stack (snd (Step i)) = rest /\
      (value <= top ->
       Step i = (Ret tt, set_stack rest (set_ip (ip i + 3) i)))).
Proof.
  split.
  - intros i line H0 H1 Hr Hs Hl.
    rewrite (Step_op _ _ H0), executeOp_jump. unfold bind.
    rewrite (nextInt_cell _ line).
    2: { rewrite (cell_at_shift i _ 1 0); [exact H1 | reflexivity | reflexivity]. }
    rewrite jump_invalid; auto.
  - intros i value line top rest H0 H1 H2 Hst.
    rewrite (jumpl_fetch _ _ _ H0 H1 H2). unfold bind.
    rewrite (popInt_snoc _ rest top) by exact Hst.
    split.
    + destruct (top <? value).
      * rewrite jump_ignoring_error_stack. reflexivity.
      * reflexivity.
    + intros Hle. destruct (Z.ltb_spec top value); [lia | reflexivity].
Qed.

Lemma jump_line_out_of_range_witness :
  (fst (Step jump_state) = Fail ErrInvalidJump /\
   stack (snd (Step jump_state)) = stack jump_state /\
   stdout (snd (Step jump_state)) = stdout jump_state) /\
  (stack (snd (Step not_taken_state)) = [] /\
   Step not_taken_state =
   (Ret tt, set_stack [] (set_ip (ip not_taken_state + 3) not_taken_state))).
Proof.
  split.
  - apply (proj1 jump_line_out_of_range jump_state 5).
    + reflexivity.
    + reflexivity.
    + unfold GoInt.inRange, GoInt.minInt, GoInt.maxInt, GoInt.intSize. simpl. lia.
    + unfold sliceLen, GoInt.maxInt, GoInt.intSize, len. simpl. lia.
    + right. unfold len. simpl. lia.
  - destruct (proj2 jump_line_out_of_range not_taken_state 10 99 50 []
                eq_refl eq_refl eq_refl eq_refl) as [Hstack Hstep].
    split; [exact Hstack | apply Hstep; lia].
Defined.

(** The claim as first stated fails for [jumpl]: in the program
    [ipush 50; jumpl 10 99], which has two lines, the step at [jumpl] has the
    line 99 outside the table, yet 50 is not less than 10, no jump is tried,
    the step succeeds and the stack has lost its top. *)
Lemma jumpl_out_of_range_not_taken :
  NewProgramFromReader (NewScanner "ipush 50 jumpl 10 99")
  = Some (Ret not_taken_program) /\
  Step (NewInterpreter not_taken_program []) = (Ret tt, not_taken_state) /\
  cell_at not_taken_state 0 = Some (AOp OpJumpLessThan) /\
  cell_at not_taken_state 2 = Some (AInt 99) /\
  99 > len (jumpTable (program not_taken_state)) /\
  fst (Step not_taken_state) = Ret tt /\
  stack not_taken_state = [AInt 50] /\
  stack (snd (Step not_taken_state)) = [].
Proof.
  repeat split; vm_compute; reflexivity.
Qed.

(** When the jump of [jumpl] is taken to a line outside the table, the
    error of [jump] is dropped: [Step] reports success and goes on at the
    next instruction. *)
Lemma jumpl_drops_jump_error :
  NewProgramFromReader (NewScanner "ipush 5 jumpl 10 99")
  = Some (Ret dropped_error_program) /\
  Step (NewInterpreter dropped_error_program []) = (Ret tt, dropped_error_state) /\
  jump 99 (set_stack [] (set_ip 5 dropped_error_state))
  = (Fail ErrInvalidJump, set_stack [] (set_ip 5 dropped_error_state)) /\
  Step dropped_error_state
  = (Ret tt, set_stack [] (set_ip 5 dropped_error_state)).
Proof.
  repeat split; vm_compute; reflexivity.
Qed.

(* ===================================================================== *)
(** ** Running with more fuel                                             *)
(* ===================================================================== *)

Lemma Run_more (n : nat) :
  forall (i : Interpreter) (r : outcome unit * Interpreter),
    Run n i = Some r -> forall k : nat, Run (n + k) i = Some r.
Proof.
  induction n as [| n IH]; intros i r H k; [discriminate |].
  simpl in *. destruct (Step i) as [[u | e | msg] i'].
  - apply IH. exact H.
  - exact H.
  - exact H.
Qed.

(* ===================================================================== *)
(** ** Arithmetic and concatenation keep the order of pushing            *)
(* ===================================================================== *)

Lemma two_on_top (rest : list any) (a b : any) :
  rest ++ [a; b] = (rest ++ [a]) ++ [b].
Proof. rewrite <- app_assoc. reflexivity. Qed.

(** C2.  With integers [a] (pushed earlier) and [b] (pushed later) on top of
    the stack, [isub] pops [b], then [a], and pushes [a - b] (Go's
    subtraction on [int], which is [a - b] whenever that is in range); the
    program [ipush 5; ipush 3; isub; put] writes 2. *)
Theorem isub_push_order :
  (forall (i : Interpreter) (rest : list any) (a b : Z),
      cell_at i 0 = Some (AOp OpIsubtract) ->
      stack i = rest ++ [AInt a; AInt b] ->
      let i1 := set_ip (ip i + 1) i in
      popInt i1 = (Ret b, set_stack (rest ++ [AInt a]) i1) /\
      popInt (set_stack (rest ++ [AInt a]) i1) = (Ret a, set_stack rest i1) /\
      Step i = (Ret tt, set_stack (rest ++ [AInt (GoInt.sub a b)]) i1) /\
      (GoInt.inRange (a - b) -> GoInt.sub a b = a - b)) /\
  NewProgramFromReader (NewScanner isub_text) = Some (Ret isub_program) /\
  (forall k : nat,
      exists final : Interpreter,
        Run (5 + k) (NewInterpreter isub_program []) = Some (Ret tt, final) /\
        stdout final = "2"%string).
Proof.
  split; [| split].
  - intros i rest a b H0 Hst i1.
    assert (P1 : popInt i1 = (Ret b, set_stack (rest ++ [AInt a]) i1)).
    { apply popInt_snoc. subst i1. simpl. rewrite Hst. apply two_on_top. }
    assert (P2 : popInt (set_stack (rest ++ [AInt a]) i1)
                 = (Ret a, set_stack rest i1)).
    { apply (popInt_snoc (set_stack (rest ++ [AInt a]) i1)). reflexivity. }
    repeat split; try assumption.
    + rewrite (Step_op _ _ H0), executeOp_isub. fold i1. unfold bind.
      rewrite P1, P2. reflexivity.
    + intros Hr. unfold GoInt.sub. apply wrap_inRange. exact Hr.
  - vm_compute. reflexivity.
  - intros k. eexists. split.
    + apply Run_more. vm_compute. reflexivity.
    + reflexivity.
Qed.

Lemma isub_push_order_witness :
  let i1 := set_ip (ip isub_state + 1) isub_state in
  popInt i1 = (Ret 3, set_stack ([] ++ [AInt 5]) i1) /\
  popInt (set_stack ([] ++ [AInt 5]) i1) = (Ret 5, set_stack [] i1) /\
  Step isub_state = (Ret tt, set_stack ([] ++ [AInt (GoInt.sub 5 3)]) i1) /\
  GoInt.sub 5 3 = 5 - 3.
Proof.
  destruct (proj1 isub_push_order isub_state [] 5 3 eq_refl eq_refl)
    as (P1 & P2 & HS & Hsub).
  refine (conj P1 (conj P2 (conj HS (Hsub _)))).
  unfold GoInt.inRange, GoInt.minInt, GoInt.maxInt, GoInt.intSize.
  simpl. lia.
Defined.

(** C5.  With texts [a] (pushed earlier) and [b] (pushed later) on top of
    the stack, [sadd] pops [b], then [a], and pushes [a] followed by [b]; the
    instruction sequence [spush hello; spush " - "; spush world; sadd; sadd;
    put] writes [hello - world]. *)
Theorem sadd_push_order :
  (forall (i : Interpreter) (rest : list any) (a b : string),
      cell_at i 0 = Some (AOp OpSadd) ->
      stack i = rest ++ [AStr a; AStr b] ->
      let i1 := set_ip (ip i + 1) i in
      popString i1 = (Ret b, set_stack (rest ++ [AStr a]) i1) /\
      popString (set_stack (rest ++ [AStr a]) i1) = (Ret a, set_stack rest i1) /\
      Step i = (Ret tt, set_stack (rest ++ [AStr (String.append a b)]) i1)) /\
  (forall k : nat,
      exists final : Interpreter,
        Run (7 + k) (NewInterpreter hello_program []) = Some (Ret tt, final) /\
        stdout final = "hello - world"%string).
Proof.
  split.
  - intros i rest a b H0 Hst i1.
    assert (P1 : popString i1 = (Ret b, set_stack (rest ++ [AStr a]) i1)).
    { apply popString_snoc. subst i1. simpl. rewrite Hst. apply two_on_top. }
    assert (P2 : popString (set_stack (rest ++ [AStr a]) i1)
                 = (Ret a, set_stack rest i1)).
    { apply (popString_snoc (set_stack (rest ++ [AStr a]) i1)). reflexivity. }
    repeat split; try assumption.
    rewrite (Step_op _ _ H0), executeOp_sadd. fold i1. unfold bind.
    rewrite P1, P2. reflexivity.
  - intros k. eexists. split.
    + apply Run_more. vm_compute. reflexivity.
    + reflexivity.
Qed.

Lemma sadd_push_order_witness :
  let i1 := set_ip (ip sadd_state + 1) sadd_state in
  popString i1 = (Ret "world"%string, set_stack ([AStr "hello"] ++ [AStr " - "]) i1) /\
  popString (set_stack ([AStr "hello"] ++ [AStr " - "]) i1)
  = (Ret " - "%string, set_stack [AStr "hello"] i1) /\
  Step sadd_state
  = (Ret tt,
     set_stack ([AStr "hello"] ++ [AStr (String.append " - " "world")]) i1).
Proof.
  apply (proj1 sadd_push_order sadd_state [AStr "hello"]
           " - "%string "world"%string);
    reflexivity.
Defined.

(** From source text a text argument is one word: the hello-world program
    of the README pushes [-] and writes [hello-world]. *)
Lemma readme_hello_output :
  exists (p : Program) (final : Interpreter),
    NewProgramFromReader (NewScanner readme_hello_text) = Some (Ret p) /\
    Run 7 (NewInterpreter p []) = Some (Ret tt, final) /\
    stdout final = "hello-world"%string.
Proof.
  eexists. eexists. split; [| split].
  - vm_compute. reflexivity.
  - vm_compute. reflexivity.
  - reflexivity.
Qed.

(* ===================================================================== *)
(** ** The counting program                                               *)
(* ===================================================================== *)

(** C3.  The counting program parses to eight lines and runs to the end:
    [Run] returns [nil] having written the numbers 1 to 10, a line each.  The
    seventy-first and last step is the [jumpl] that pops 10, which is not less
    than 10, so that no jump is made and the instruction pointer reaches the
    end. *)
Theorem counting_program_output :
  NewProgramFromReader (NewScanner counting_text) = Some (Ret counting_program) /\
  let start := NewInterpreter counting_program [] in
  let last := mkInterpreter counting_program 9 [AInt 10; AInt 10]
                counting_output false in
  let final := mkInterpreter counting_program 12 [AInt 10]
                 counting_output false in
  (forall k : nat, Run (72 + k) start = Some (Ret tt, final)) /\
  Run 71 start = None /\
  Steps 70 start = (Ret tt, last) /\
  cell_at last 0 = Some (AOp OpJumpLessThan) /\
  cell_at last 1 = Some (AInt 10) /\
  popInt (set_ip 12 last) = (Ret 10, final) /\
  (10 <? 10) = false /\
  Step last = (Ret tt, final) /\
  Step final = (Fail EOF, final).
Proof.
  split; [vm_compute; reflexivity |].
  intros start last final.
  split; [| repeat split; vm_compute; reflexivity].
  intros k. apply Run_more. vm_compute. reflexivity.
Qed.

(* ===================================================================== *)
(** ** What the operations leave alone                                    *)
(* ===================================================================== *)

Section Frames.

Context {T : Type} (f : Interpreter -> T).

Lemma frame_ret {A : Type} (a : A) : frame f (ret a).
Proof. intros i. reflexivity. Qed.

Lemma frame_fail {A : Type} (e : error) : frame f (@fail _ A e).
Proof. intros i. reflexivity. Qed.

Lemma frame_bind {A B : Type} (m : M Interpreter A) (k : A -> M Interpreter B) :
  frame f m -> (forall a : A, frame f (k a)) -> frame f (bind m k).
Proof.
  intros Hm Hk i. unfold bind. specialize (Hm i).
  destruct (m i) as [[a | e | msg] s]; simpl in *; try assumption.
  rewrite Hk. exact Hm.
Qed.

Lemma frame_asInt (v : any) : frame f (asInt v).
Proof. destruct v; intros i; reflexivity. Qed.

Lemma frame_asString (v : any) : frame f (asString v).
Proof. destruct v; intros i; reflexivity. Qed.

(** Operations that change one component leave [f] alone when [f] does
    not read that component. *)
Hypothesis f_ip : forall (v : Z) (i : Interpreter), f (set_ip v i) = f i.
Hypothesis f_stack :
  forall (v : list any) (i : Interpreter), f (set_stack v i) = f i.

Lemma frame_push (v : any) : frame f (push v).
Proof. intros i. apply f_stack. Qed.

Lemma frame_pop : frame f pop.
Proof.
  intros i. unfold pop. destruct (len (stack i) =? 0); [reflexivity |].
  destruct (index (stack i) (len (stack i) - 1)); [apply f_stack | reflexivity].
Qed.

Lemma frame_peek : frame f peek.
Proof.
  intros i. unfold peek. destruct (len (stack i) =? 0); [reflexivity |].
  destruct (index (stack i) (len (stack i) - 1)); reflexivity.
Qed.

Lemma frame_popInt : frame f popInt.
Proof. apply frame_bind; [apply frame_pop | apply frame_asInt]. Qed.

Lemma frame_popString : frame f popString.
Proof. apply frame_bind; [apply frame_pop | apply frame_asString]. Qed.

Lemma frame_jump (line : Z) : frame f (jump line).
Proof.
  intros i. unfold jump.
  destruct ((GoInt.sub line 1 <? 0)
            || (GoInt.sub line 1 >=? len (jumpTable (program i))));
    [reflexivity |].
  destruct (index (jumpTable (program i)) (GoInt.sub line 1));
    [apply f_ip | reflexivity].
Qed.

Lemma frame_jump_ignoring_error (line : Z) :
  frame f (jump_ignoring_error line).
Proof.
  intros i. unfold jump_ignoring_error. pose proof (frame_jump line i) as H.
  destruct (jump line i) as [[u | e | msg] s]; exact H.
Qed.

Lemma frame_nextInstruction : frame f nextInstruction.
Proof.
  intros i. unfold nextInstruction.
  destruct (ip i =? len (instructions (program i))); [reflexivity |].
  destruct (index (instructions (program i)) (ip i));
    [apply f_ip | reflexivity].
Qed.

Lemma frame_nextInt : frame f Interpreter_nextInt.
Proof. apply frame_bind; [apply frame_nextInstruction | apply frame_asInt]. Qed.

Lemma frame_nextString : frame f Interpreter_nextString.
Proof.
  apply frame_bind; [apply frame_nextInstruction | apply frame_asString].
Qed.

(** With the output left alone as well, a whole step leaves [f] alone. *)
Hypothesis f_stdout :
  forall (v : string) (i : Interpreter), f (set_stdout v i) = f i.

Lemma frame_toStdout (text : string) : frame f (toStdout text).
Proof. intros i. apply f_stdout. Qed.

Lemma frame_executeOp (o : OpCode) : frame f (executeOp o).
Proof.
  unfold executeOp.
  repeat match goal with
         | |- frame f (if ?c then _ else _) => destruct c
         | |- frame f (bind _ _) => apply frame_bind; [| intro]
         end;
    auto using frame_toStdout, frame_peek, frame_push, frame_pop,
      frame_nextInt, frame_nextString, frame_popInt, frame_popString,
      frame_jump, frame_jump_ignoring_error, frame_ret, frame_fail.
Qed.

Lemma frame_Step : frame f Step.
Proof.
  unfold Step. apply frame_bind; [apply frame_nextInstruction |].
  intros [o | n | s]; [apply frame_executeOp | apply frame_fail ..].
Qed.

Lemma frame_Run (fuel : nat) :
  forall (i : Interpreter) (r : outcome unit) (i' : Interpreter),
    Run fuel i = Some (r, i') -> f i' = f i.
Proof.
  induction fuel as [| fuel IH]; intros i r i' H; [discriminate |].
  simpl in H. pose proof (frame_Step i) as HS.
  destruct (Step i) as [[u | e | msg] s]; simpl in HS.
  - rewrite <- HS. eapply IH. exact H.
  - destruct e; inversion H; subst; exact HS.
  - inversion H; subst; exact HS.
Qed.

Lemma frame_calls (i i' : Interpreter) : calls_lead i i' -> f i' = f i.
Proof.
  induction 1 as [| i' Hl IH | i' fuel r i'' Hl IH HR].
  - reflexivity.
  - rewrite frame_Step. exact IH.
  - rewrite (frame_Run _ _ _ _ HR). exact IH.
Qed.

End Frames.

(* ===================================================================== *)
(** ** Failures: which errors, and nothing written                        *)
(* ===================================================================== *)

Lemma on_fail_bind {A B : Type} (P : error -> Interpreter -> Prop)
    (m : M Interpreter A) (k : A -> M Interpreter B) :
  on_fail P m -> (forall a : A, on_fail P (k a)) -> on_fail P (bind m k).
Proof.
  intros Hm Hk i e i' H. unfold bind in H.
  destruct (m i) as [[a | e0 | msg] s] eqn:E.
  - eapply Hk. exact H.
  - inversion H; subst. eapply Hm. exact E.
  - discriminate.
Qed.

Lemma step_error_pop : on_fail step_error pop.
Proof.
  intros i e i' H. unfold pop in H. right.
  destruct (len (stack i) =? 0).
  - inversion H. eauto.
  - destruct (index (stack i) (len (stack i) - 1)); discriminate.
Qed.

Lemma step_error_peek : on_fail step_error peek.
Proof.
  intros i e i' H. unfold peek in H. right.
  destruct (len (stack i) =? 0).
  - inversion H. eauto.
  - destruct (index (stack i) (len (stack i) - 1)); discriminate.
Qed.

Lemma step_error_asInt (v : any) : on_fail step_error (asInt v).
Proof.
  intros i e i' H. right. destruct v; inversion H; eauto.
Qed.

Lemma step_error_asString (v : any) : on_fail step_error (asString v).
Proof.
  intros i e i' H. right. destruct v; inversion H; eauto.
Qed.

Lemma step_error_nextInstruction : on_fail step_error nextInstruction.
Proof.
  intros i e i' H. unfold nextInstruction in H. left.
  destruct (Z.eqb_spec (ip i) (len (instructions (program i)))) as [Heq | Hne].
  - inversion H; subst. split; [reflexivity | exact Heq].
  - destruct (index (instructions (program i)) (ip i)); discriminate.
Qed.

Lemma step_error_jump (line : Z) : on_fail step_error (jump line).
Proof.
  intros i e i' H. unfold jump in H. right.
  destruct ((GoInt.sub line 1 <? 0)
            || (GoInt.sub line 1 >=? len (jumpTable (program i)))).
  - inversion H. eauto.
  - destruct (index (jumpTable (program i)) (GoInt.sub line 1)); discriminate.
Qed.

Lemma step_error_jump_ignoring_error (line : Z) :
  on_fail step_error (jump_ignoring_error line).
Proof.
  intros i e i' H. unfold jump_ignoring_error in H.
  destruct (jump line i) as [[u | e0 | msg] s]; discriminate.
Qed.

Lemma step_error_never {A : Type} (m : M Interpreter A) :
  (forall i : Interpreter, exists a : A, fst (m i) = Ret a) ->
  on_fail step_error m.
Proof.
  intros H i e i' E. destruct (H i) as [a Ha]. rewrite E in Ha. discriminate.
Qed.

Lemma step_error_push (v : any) : on_fail step_error (push v).
Proof. apply step_error_never. intros i. exists tt. reflexivity. Qed.

Lemma step_error_toStdout (text : string) : on_fail step_error (toStdout text).
Proof. apply step_error_never. intros i. exists tt. reflexivity. Qed.

Lemma step_error_ret {A : Type} (a : A) : on_fail step_error (ret a).
Proof. apply step_error_never. intros i. exists a. reflexivity. Qed.

Lemma step_error_fail {A : Type} (msg : string) :
  on_fail step_error (@fail _ A (New msg)).
Proof. intros i e i' H. right. inversion H. eauto. Qed.

Lemma step_error_executeOp (o : OpCode) : on_fail step_error (executeOp o).
Proof.
  unfold executeOp, Interpreter_nextInt, Interpreter_nextString, popInt,
    popString.
  repeat match goal with
         | |- on_fail _ (if ?c then _ else _) => destruct c
         | |- on_fail _ (bind _ _) => apply on_fail_bind; [| intro]
         end;
    auto using step_error_toStdout, step_error_peek, step_error_push,
      step_error_pop, step_error_asInt, step_error_asString,
      step_error_nextInstruction, step_error_jump,
      step_error_jump_ignoring_error, step_error_ret, step_error_fail.
Qed.

Lemma step_error_Step : on_fail step_error Step.
Proof.
  unfold Step. apply on_fail_bind; [apply step_error_nextInstruction |].
  intros [o | n | s]; [apply step_error_executeOp | apply step_error_fail ..].
Qed.

Lemma Step_at_end (i : Interpreter) : at_end i -> Step i = (Fail EOF, i).
Proof.
  unfold at_end, Step, bind, nextInstruction. intros H.
  rewrite (proj2 (Z.eqb_eq _ _) H). reflexivity.
Qed.

Lemma Step_EOF_at_end (i i' : Interpreter) :
  Step i = (Fail EOF, i') -> at_end i'.
Proof.
  intros H. destruct (step_error_Step _ _ _ H) as [[_ He] | [msg Hm]];
    [exact He | discriminate].
Qed.

Lemma quiet_frame {A : Type} (m : M Interpreter A) : frame stdout m -> quiet m.
Proof. intros H i e i' E. specialize (H i). rewrite E in H. exact H. Qed.

Lemma quiet_bind {A B : Type} (m : M Interpreter A) (k : A -> M Interpreter B) :
  frame stdout m -> (forall a : A, quiet (k a)) -> quiet (bind m k).
Proof.
  intros Hm Hk i e i' H. unfold bind in H. specialize (Hm i).
  destruct (m i) as [[a | e0 | msg] s] eqn:E; simpl in Hm.
  - rewrite <- Hm. eapply Hk. exact H.
  - inversion H; subst. exact Hm.
  - discriminate.
Qed.

Lemma quiet_toStdout (text : string) : quiet (toStdout text).
Proof. intros i e i' H. discriminate. Qed.

Ltac frame_stdout :=
  first
    [ apply frame_ret | apply frame_fail | apply frame_push
    | apply frame_pop | apply frame_peek | apply frame_popInt
    | apply frame_popString | apply frame_jump
    | apply frame_jump_ignoring_error | apply frame_nextInstruction
    | apply frame_nextInt | apply frame_nextString ];
  intros; reflexivity.

Lemma quiet_executeOp (o : OpCode) : quiet (executeOp o).
Proof.
  unfold executeOp.
  repeat match goal with
         | |- quiet (if ?c then _ else _) => destruct c
         | |- quiet (bind _ _) => apply quiet_bind; [frame_stdout | intro]
         end;
    try apply quiet_toStdout; apply quiet_frame; frame_stdout.
Qed.

Lemma quiet_Step : quiet Step.
Proof.
  unfold Step. apply quiet_bind; [frame_stdout |].
  intros [o | n | s]; [apply quiet_executeOp | apply quiet_frame; frame_stdout ..].
Qed.

(* ===================================================================== *)
(** ** The end of the program                                             *)
(* ===================================================================== *)

(** [Run] after [n] steps that returned [nil] is [Run] from the state they
    reach. *)
Lemma Run_after_Steps (n : nat) :
  forall (i j : Interpreter) (m : nat),
    Steps n i = (Ret tt, j) -> Run (n + m) i = Run m j.
Proof.
  induction n as [| n IH]; intros i j m H; simpl in *.
  - inversion H. reflexivity.
  - destruct (Step i) as [[u | e | msg] i1]; try discriminate.
    apply IH. exact H.
Qed.

(** C4.  With the instruction pointer at the end of the instruction
    sequence [Step] returns the sentinel [EOF]; every other error [Step]
    returns is an error made by the interpreter, which is not the sentinel.
    [Run] ends with [nil] on the sentinel and with the error on any other,
    after any number of steps that returned [nil], and never returns the
    sentinel.  Once [Step] has returned the sentinel, every later call
    returns it again and leaves the whole state, the stack with it, as it
    is. *)
Theorem end_of_program_sentinel :
  (forall i : Interpreter, at_end i -> Step i = (Fail EOF, i)) /\
  (forall (i : Interpreter) (e : error) (i' : Interpreter),
      Step i = (Fail e, i') ->
      (e = EOF /\ at_end i') \/ (exists msg : string, e = New msg /\ e <> EOF)) /\
  (forall (i i' : Interpreter) (fuel : nat),
      Step i = (Fail EOF, i') -> Run (S fuel) i = Some (Ret tt, i')) /\
  (forall (i : Interpreter) (e : error) (i' : Interpreter) (fuel : nat),
      Step i = (Fail e, i') -> e <> EOF -> Run (S fuel) i = Some (Fail e, i')) /\
  (forall (fuel : nat) (i : Interpreter) (r : outcome unit) (i' : Interpreter),
      Run fuel i = Some (r, i') -> r <> Fail EOF) /\
  (forall (fuel : nat) (i i' : Interpreter),
      Run fuel i = Some (Ret tt, i') -> Step i' = (Fail EOF, i')) /\
  (forall i i' : Interpreter,
      Step i = (Fail EOF, i') ->
      forall n : nat,
        Step (Nat.iter n (fun s => snd (Step s)) i') = (Fail EOF, i')) /\
  (forall (n : nat) (i j i' : Interpreter) (k : nat),
      Steps n i = (Ret tt, j) ->
      Step j = (Fail EOF, i') ->
      Run (n + S k) i = Some (Ret tt, i')) /\
  (forall (n : nat) (i j : Interpreter) (e : error) (i' : Interpreter)
          (k : nat),
      Steps n i = (Ret tt, j) ->
      Step j = (Fail e, i') ->
      e <> EOF ->
      Run (n + S k) i = Some (Fail e, i')) /\
  (forall (n : nat) (i : Interpreter) (r : outcome unit) (i' : Interpreter),
      Run n i = Some (r, i') ->
      exists (m : nat) (j : Interpreter),
        (m < n)%nat /\
        Steps m i = (Ret tt, j) /\
        ((r = Ret tt /\ Step j = (Fail EOF, i')) \/
         (r <> Ret tt /\ Step j = (r, i')))).
Proof.
  repeat apply conj.
  - exact Step_at_end.
  - intros i e i' H. destruct (step_error_Step _ _ _ H) as [He | [msg Hm]].
    + left. exact He.
    + right. exists msg. split; [exact Hm | subst; discriminate].
  - intros i i' fuel H. simpl. rewrite H. reflexivity.
  - intros i e i' fuel H Hne. simpl. rewrite H.
    destruct e; [contradiction | reflexivity ..].
  - induction fuel as [| fuel IH]; intros i r i' H; [discriminate |].
    simpl in H. destruct (Step i) as [[u | e | msg] s].
    + eapply IH. exact H.
    + destruct e; inversion H; discriminate.
    + inversion H; discriminate.
  - induction fuel as [| fuel IH]; intros i i' H; [discriminate |].
    simpl in H. destruct (Step i) as [[u | e | msg] s] eqn:E.
    + eapply IH. exact H.
    + destruct e; inversion H; subst.
      apply Step_at_end. eapply Step_EOF_at_end. exact E.
    + inversion H.
  - intros i i' H n. pose proof (Step_at_end _ (Step_EOF_at_end _ _ H)) as Hs.
    induction n as [| n IH]; simpl.
    + exact Hs.
    + rewrite IH. simpl. exact Hs.
  - intros n i j i' k HS HE. rewrite (Run_after_Steps n i j (S k) HS).
    simpl. rewrite HE. reflexivity.
  - intros n i j e i' k HS HE Hne. rewrite (Run_after_Steps n i j (S k) HS).
    simpl. rewrite HE. destruct e; [contradiction | reflexivity ..].
  - induction n as [| n IH]; intros i r i' H; [discriminate |].
    simpl in H. destruct (Step i) as [[u | e | msg] s] eqn:E.
    + destruct (IH _ _ _ H) as (m & j & Hm & HS & Hr).
      exists (S m), j. split; [lia |]. split; [| exact Hr].
      simpl. rewrite E. exact HS.
    + exists 0%nat, i. split; [lia |]. split; [reflexivity |].
      destruct e; inversion H; subst;
        [left; auto | right; split; [discriminate | exact E] ..].
    + exists 0%nat, i. split; [lia |]. split; [reflexivity |].
      inversion H; subst. right. split; [discriminate | exact E].
Qed.

Lemma end_of_program_sentinel_witness :
  let start := NewInterpreter put_program [WithStdout "out"] in
  let count := NewInterpreter counting_program [] in
  let final := mkInterpreter counting_program 12 [AInt 10]
                 counting_output false in
  let mixed := NewInterpreter mismatch_program [] in
  let failed := set_stack [] (set_ip 5 mismatch_state) in
  Step (set_ip 1 start) = (Fail EOF, set_ip 1 start) /\
  ((New "stack is empty" = EOF /\ at_end (set_ip 1 start)) \/
   (exists msg : string, New "stack is empty" = New msg /\
                         New "stack is empty" <> EOF)) /\
  Run 1 (set_ip 1 start) = Some (Ret tt, set_ip 1 start) /\
  Run 1 start = Some (Fail (New "stack is empty"), set_ip 1 start) /\
  Ret tt <> Fail EOF /\
  Step (set_ip 1 start) = (Fail EOF, set_ip 1 start) /\
  Step (Nat.iter 3 (fun s => snd (Step s)) (set_ip 1 start))
  = (Fail EOF, set_ip 1 start) /\
  Run (71 + 1) count = Some (Ret tt, final) /\
  Run (2 + 1) mixed = Some (Fail (ErrNotInt (AStr "x")), failed) /\
  (exists (m : nat) (j : Interpreter),
      (m < 72)%nat /\
      Steps m count = (Ret tt, j) /\
      ((Ret tt = Ret tt /\ Step j = (Fail EOF, final)) \/
       (Ret tt <> Ret tt /\ Step j = (Ret tt, final)))).
Proof.
  intros start count final mixed failed.
  destruct end_of_program_sentinel
    as (H1 & H2 & H3 & H4 & H5 & H6 & H7 & H8 & H9 & H10).
  assert (Hend : Step (set_ip 1 start) = (Fail EOF, set_ip 1 start)).
  { apply H1. reflexivity. }
  assert (Hput : Step start = (Fail (New "stack is empty"), set_ip 1 start)).
  { reflexivity. }
  assert (Hcount : Run 72 count = Some (Ret tt, final)).
  { vm_compute. reflexivity. }
  refine (conj Hend (conj (H2 _ _ _ Hput) (conj (H3 _ _ 0%nat Hend)
            (conj (H4 _ _ _ 0%nat Hput _) (conj (H5 1%nat _ _ _ (H3 _ _ 0%nat Hend))
               (conj (H6 1%nat _ _ (H3 _ _ 0%nat Hend))
                  (conj (H7 _ _ Hend 3%nat)
                     (conj (H8 71%nat count final final 0%nat _ _)
                        (conj (H9 2%nat mixed mismatch_state
                                 (ErrNotInt (AStr "x")) failed 0%nat _ _ _)
                           (H10 72%nat count (Ret tt) final Hcount)))))))))).
  - discriminate.
  - vm_compute. reflexivity.
  - vm_compute. reflexivity.
  - vm_compute. reflexivity.
  - vm_compute. reflexivity.
  - discriminate.
Defined.

(* ===================================================================== *)
(** ** The empty stack                                                    *)
(* ===================================================================== *)

(** C8.  On an empty stack [pop] and [peek] fail with the stack-underflow
    error; so does a step at [put], [dup], [iadd], [isub] or [sadd], and at a
    [jumpl] once its two arguments are read, and nothing is written.  No
    failing step writes anything.  The program made of [put] alone ends in
    that error with nothing written. *)
Theorem empty_stack_underflow :
  (forall i : Interpreter,
      stack i = [] ->
      pop i = (Fail ErrStackEmpty, i) /\ peek i = (Fail ErrStackEmpty, i)) /\
  (forall (i : Interpreter) (o : OpCode),
      stack i = [] ->
      cell_at i 0 = Some (AOp o) ->
      In o popping_ops ->
      Step i = (Fail ErrStackEmpty, set_ip (ip i + 1) i) /\
      stdout (snd (Step i)) = stdout i) /\
  (forall (i : Interpreter) (value line : Z),
      stack i = [] ->
      cell_at i 0 = Some (AOp OpJumpLessThan) ->
      cell_at i 1 = Some (AInt value) ->
      cell_at i 2 = Some (AInt line) ->
      Step i = (Fail ErrStackEmpty, set_ip (ip i + 3) i) /\
      stdout (snd (Step i)) = stdout i) /\
  (forall (i : Interpreter) (e : error) (i' : Interpreter),
      Step i = (Fail e, i') -> stdout i' = stdout i) /\
  NewProgramFromReader (NewScanner "put") = Some (Ret put_program) /\
  (forall k : nat,
      exists final : Interpreter,
        Run (1 + k) (NewInterpreter put_program []) = Some (Fail ErrStackEmpty, final) /\
        stdout final = EmptyString).
Proof.
  repeat apply conj.
  - intros i H. split; [apply pop_empty | apply peek_empty]; exact H.
  - intros i o Hst H0 Hin.
    assert (Hs : Step i = (Fail ErrStackEmpty, set_ip (ip i + 1) i)).
    { rewrite (Step_op _ _ H0).
      assert (Hp : pop (set_ip (ip i + 1) i)
                   = (Fail ErrStackEmpty, set_ip (ip i + 1) i))
        by (apply pop_empty; exact Hst).
      assert (Hk : peek (set_ip (ip i + 1) i)
                   = (Fail ErrStackEmpty, set_ip (ip i + 1) i))
        by (apply peek_empty; exact Hst).
      unfold popping_ops in Hin. simpl in Hin.
      destruct Hin as [<- | [<- | [<- | [<- | [<- | []]]]]].
      - rewrite executeOp_dup. unfold bind. rewrite Hk. reflexivity.
      - rewrite executeOp_put. unfold bind. rewrite Hp. reflexivity.
      - rewrite executeOp_iadd. unfold bind, popInt, bind. rewrite Hp. reflexivity.
      - rewrite executeOp_isub. unfold bind, popInt, bind. rewrite Hp. reflexivity.
      - rewrite executeOp_sadd. unfold bind, popString, bind. rewrite Hp.
        reflexivity. }
    split; [exact Hs | rewrite Hs; reflexivity].
  - intros i value line Hst H0 H1 H2.
    assert (Hs : Step i = (Fail ErrStackEmpty, set_ip (ip i + 3) i)).
    { rewrite (jumpl_fetch _ _ _ H0 H1 H2). unfold bind, popInt, bind.
      rewrite pop_empty by exact Hst. reflexivity. }
    split; [exact Hs | rewrite Hs; reflexivity].
  - exact quiet_Step.
  - vm_compute. reflexivity.
  - intros k. eexists. split.
    + apply Run_more. vm_compute. reflexivity.
    + reflexivity.
Qed.

Lemma empty_stack_underflow_witness :
  let i := NewInterpreter put_program [] in
  (pop i = (Fail ErrStackEmpty, i) /\ peek i = (Fail ErrStackEmpty, i)) /\
  (Step i = (Fail ErrStackEmpty, set_ip (ip i + 1) i) /\
   stdout (snd (Step i)) = stdout i) /\
  (Step (set_stack [] not_taken_state)
   = (Fail ErrStackEmpty, set_ip (ip not_taken_state + 3) (set_stack [] not_taken_state)) /\
   stdout (snd (Step (set_stack [] not_taken_state))) = EmptyString) /\
  stdout (set_ip 1 i) = stdout i.
Proof.
  intros i.
  destruct empty_stack_underflow as (H1 & H2 & H3 & H4 & _ & _).
  refine (conj (H1 i eq_refl) (conj (H2 i OpPut eq_refl eq_refl _)
            (conj (H3 (set_stack [] not_taken_state) 10 99 eq_refl eq_refl
                      eq_refl eq_refl)
                  (H4 i ErrStackEmpty (set_ip 1 i) eq_refl)))).
  unfold popping_ops. simpl. auto.
Defined.

(* ===================================================================== *)
(** ** The program is not changed                                         *)
(* ===================================================================== *)

(** C9.  [Step] and [Run] leave the program of the interpreter as it is:
    after any calls of [Step] and [Run] on an interpreter made for a parsed
    program, the instruction sequence and the jump table are those the parser
    gave.  Of the interpreter only the instruction pointer, the stack and the
    output change; the debug flag stays too. *)
Theorem program_immutable :
  (forall i : Interpreter, program (snd (Step i)) = program i) /\
  (forall (fuel : nat) (i : Interpreter) (r : outcome unit) (i' : Interpreter),
      Run fuel i = Some (r, i') -> program i' = program i) /\
  (forall i i' : Interpreter,
      calls_lead i i' -> program i' = program i /\ debug i' = debug i) /\
  (forall (r : Scanner) (p : Program) (dbg : bool) (w : string)
          (i' : Interpreter),
      NewProgramFromReader r = Some (Ret p) ->
      calls_lead (NewInterpreter p [EnableDebug dbg; WithStdout w]) i' ->
      instructions (program i') = instructions p /\
      jumpTable (program i') = jumpTable p).
Proof.
  repeat apply conj.
  - apply frame_Step; reflexivity.
  - intros fuel i r i'. apply (frame_Run program); reflexivity.
  - intros i i' H. split.
    + apply (frame_calls program); [reflexivity .. | exact H].
    + apply (frame_calls debug); [reflexivity .. | exact H].
  - intros r p dbg w i' _ H.
    rewrite (frame_calls program) with (i := NewInterpreter p [EnableDebug dbg; WithStdout w]);
      [split; reflexivity | reflexivity .. | exact H].
Qed.

Lemma program_immutable_witness :
  let start := NewInterpreter counting_program [EnableDebug false; WithStdout ""] in
  let final := mkInterpreter counting_program 12 [AInt 10] counting_output false in
  program final = program (snd (Step start)) /\
  (program final = program start /\ debug final = debug start) /\
  instructions (program final) = instructions counting_program /\
  jumpTable (program final) = jumpTable counting_program.
Proof.
  intros start final.
  destruct program_immutable as (H1 & H2 & H3 & H4).
  assert (HR : Run 71 (snd (Step start)) = Some (Ret tt, final)).
  { vm_compute. reflexivity. }
  assert (HL : calls_lead start final).
  { apply (lead_Run start (snd (Step start)) 71 (Ret tt) final);
      [apply lead_Step; apply lead_here | exact HR]. }
  refine (conj (H2 _ _ _ _ HR) (conj (H3 _ _ HL)
            (H4 (NewScanner counting_text) counting_program false
                EmptyString final _ HL))).
  vm_compute. reflexivity.
Defined.

(* ===================================================================== *)
(** ** A failed binary operation does not give its operands back         *)
(* ===================================================================== *)

Lemma popInt_snoc_any (i : Interpreter) (rest : list any) (v : any) :
  stack i = rest ++ [v] -> popInt i = asInt v (set_stack rest i).
Proof.
  intros H. unfold popInt, bind. rewrite (pop_snoc _ _ _ H). reflexivity.
Qed.

Lemma popString_snoc_any (i : Interpreter) (rest : list any) (v : any) :
  stack i = rest ++ [v] -> popString i = asString v (set_stack rest i).
Proof.
  intros H. unfold popString, bind. rewrite (pop_snoc _ _ _ H). reflexivity.
Qed.

Lemma popInt_empty (i : Interpreter) :
  stack i = [] -> popInt i = (Fail ErrStackEmpty, i).
Proof.
  intros H. unfold popInt, bind. rewrite (pop_empty _ H). reflexivity.
Qed.

Lemma popString_empty (i : Interpreter) :
  stack i = [] -> popString i = (Fail ErrStackEmpty, i).
Proof.
  intros H. unfold popString, bind. rewrite (pop_empty _ H). reflexivity.
Qed.

Lemma snoc_cases {A : Type} (l : list A) :
  l = [] \/ exists (l' : list A) (a : A), l = l' ++ [a].
Proof.
  destruct l as [| x l]; [left; reflexivity | right].
  destruct (@exists_last _ (x :: l)) as [l' [a E]]; [discriminate | eauto].
Qed.

(** A binary operation at the instruction pointer, unfolded once. *)
Lemma binary_op_Step (i : Interpreter) (o : OpCode) :
  cell_at i 0 = Some (AOp o) ->
  In o binary_ops ->
  let i1 := set_ip (ip i + 1) i in
  (o = OpIadd /\
   Step i = (a <- popInt ;; b <- popInt ;; push (AInt (GoInt.add b a))) i1) \/
  (o = OpIsubtract /\
   Step i = (a <- popInt ;; b <- popInt ;; push (AInt (GoInt.sub b a))) i1) \/
  (o = OpSadd /\
   Step i = (a <- popString ;; b <- popString ;;
             push (AStr (String.append b a))) i1).
Proof.
  intros H0 Hin i1. rewrite (Step_op _ _ H0). fold i1.
  destruct Hin as [<- | [<- | [<- | []]]]; auto.
Qed.

Lemma binary_op_first_wrong (i : Interpreter) (o : OpCode) (rest : list any)
    (v : any) :
  cell_at i 0 = Some (AOp o) ->
  In o binary_ops ->
  stack i = rest ++ [v] ->
  wants o v = false ->
  Step i = (Fail (ErrKind o v), set_stack rest (set_ip (ip i + 1) i)).
Proof.
  intros H0 Hin Hst Hw.
  destruct (binary_op_Step i o H0 Hin) as [[-> HS] | [[-> HS] | [-> HS]]];
    rewrite HS; unfold bind;
    [ rewrite (popInt_snoc_any _ rest v) by exact Hst
    | rewrite (popInt_snoc_any _ rest v) by exact Hst
    | rewrite (popString_snoc_any _ rest v) by exact Hst ];
    destruct v; try discriminate Hw; reflexivity.
Qed.

Lemma binary_op_second_wrong (i : Interpreter) (o : OpCode) (rest : list any)
    (w v : any) :
  cell_at i 0 = Some (AOp o) ->
  In o binary_ops ->
  stack i = rest ++ [w; v] ->
  wants o v = true ->
  wants o w = false ->
  Step i = (Fail (ErrKind o w), set_stack rest (set_ip (ip i + 1) i)).
Proof.
  intros H0 Hin Hst Hv Hw. rewrite two_on_top in Hst.
  destruct (binary_op_Step i o H0 Hin) as [[-> HS] | [[-> HS] | [-> HS]]];
    rewrite HS; unfold bind at 1;
    [ rewrite (popInt_snoc_any _ (rest ++ [w]) v) by exact Hst
    | rewrite (popInt_snoc_any _ (rest ++ [w]) v) by exact Hst
    | rewrite (popString_snoc_any _ (rest ++ [w]) v) by exact Hst ];
    destruct v; try discriminate Hv; simpl; unfold bind;
    [ rewrite (popInt_snoc_any _ rest w) by reflexivity
    | rewrite (popInt_snoc_any _ rest w) by reflexivity
    | rewrite (popString_snoc_any _ rest w) by reflexivity ];
    destruct w; try discriminate Hw; reflexivity.
Qed.

Lemma binary_op_second_missing (i : Interpreter) (o : OpCode) (v : any) :
  cell_at i 0 = Some (AOp o) ->
  In o binary_ops ->
  stack i = [v] ->
  wants o v = true ->
  Step i = (Fail ErrStackEmpty, set_stack [] (set_ip (ip i + 1) i)).
Proof.
  intros H0 Hin Hst Hv.
  destruct (binary_op_Step i o H0 Hin) as [[-> HS] | [[-> HS] | [-> HS]]];
    rewrite HS; unfold bind at 1;
    [ rewrite (popInt_snoc_any _ [] v) by exact Hst
    | rewrite (popInt_snoc_any _ [] v) by exact Hst
    | rewrite (popString_snoc_any _ [] v) by exact Hst ];
    destruct v; try discriminate Hv; simpl; unfold bind;
    [ rewrite popInt_empty by reflexivity
    | rewrite popInt_empty by reflexivity
    | rewrite popString_empty by reflexivity ];
    reflexivity.
Qed.

Lemma binary_op_both_right (i : Interpreter) (o : OpCode) (rest : list any)
    (w v : any) :
  cell_at i 0 = Some (AOp o) ->
  In o binary_ops ->
  stack i = rest ++ [w; v] ->
  wants o v = true ->
  wants o w = true ->
  fst (Step i) = Ret tt.
Proof.
  intros H0 Hin Hst Hv Hw. rewrite two_on_top in Hst.
  destruct (binary_op_Step i o H0 Hin) as [[-> HS] | [[-> HS] | [-> HS]]];
    rewrite HS; unfold bind at 1;
    [ rewrite (popInt_snoc_any _ (rest ++ [w]) v) by exact Hst
    | rewrite (popInt_snoc_any _ (rest ++ [w]) v) by exact Hst
    | rewrite (popString_snoc_any _ (rest ++ [w]) v) by exact Hst ];
    destruct v; try discriminate Hv; simpl; unfold bind;
    [ rewrite (popInt_snoc_any _ rest w) by reflexivity
    | rewrite (popInt_snoc_any _ rest w) by reflexivity
    | rewrite (popString_snoc_any _ rest w) by reflexivity ];
    destruct w; try discriminate Hw; reflexivity.
Qed.

(** C10.  When [iadd], [isub] or [sadd] fails on a stack that is not empty,
    the operands it has popped stay popped.  A top value of the wrong kind
    is lost with the kind-mismatch error; a right top value over a wrong
    second value loses both; a right top value alone is lost with the
    stack-underflow error of the second pop.  In each case [Step] returns the
    error with the stack strictly shorter than before, and nothing is
    written. *)
Theorem failed_binary_op_not_atomic (i : Interpreter) (o : OpCode) :
  cell_at i 0 = Some (AOp o) ->
  In o binary_ops ->
  let i1 := set_ip (ip i + 1) i in
  (forall (rest : list any) (v : any),
      stack i = rest ++ [v] -> wants o v = false ->
      Step i = (Fail (ErrKind o v), set_stack rest i1)) /\
  (forall (rest : list any) (w v : any),
      stack i = rest ++ [w; v] -> wants o v = true -> wants o w = false ->
      Step i = (Fail (ErrKind o w), set_stack rest i1)) /\
  (forall v : any,
      stack i = [v] -> wants o v = true ->
      Step i = (Fail ErrStackEmpty, set_stack [] i1)) /\
  (forall (e : error) (i' : Interpreter),
      Step i = (Fail e, i') ->
      stack i <> [] ->
      (List.length (stack i') < List.length (stack i))%nat /\
      (exists popped : list any, popped <> [] /\ stack i = stack i' ++ popped) /\
      stdout i' = stdout i).
Proof.
  intros H0 Hin i1. repeat apply conj.
  - intros rest v. apply binary_op_first_wrong; assumption.
  - intros rest w v. apply binary_op_second_wrong; assumption.
  - intros v. apply binary_op_second_missing; assumption.
  - intros e i' HS Hne.
    destruct (snoc_cases (stack i)) as [E | (rest & v & E)]; [contradiction |].
    destruct (wants o v) eqn:Hv.
    + destruct (snoc_cases rest) as [-> | (rest' & w & ->)].
      * rewrite (binary_op_second_missing i o v H0 Hin E Hv) in HS.
        inversion HS; subst. rewrite E. simpl. repeat split; [lia |].
        exists [v]. split; [discriminate | reflexivity].
      * rewrite <- two_on_top in E. destruct (wants o w) eqn:Hw.
        -- pose proof (binary_op_both_right i o rest' w v H0 Hin E Hv Hw) as HR.
           rewrite HS in HR. discriminate.
        -- rewrite (binary_op_second_wrong i o rest' w v H0 Hin E Hv Hw) in HS.
           inversion HS; subst. rewrite E. simpl. rewrite length_app. simpl.
           repeat split; [lia |].
           exists [w; v]. split; [discriminate | reflexivity].
    + rewrite (binary_op_first_wrong i o rest v H0 Hin E Hv) in HS.
      inversion HS; subst. rewrite E. simpl. rewrite length_app. simpl.
      repeat split; [lia |].
      exists [v]. split; [discriminate | reflexivity].
Qed.

Lemma failed_binary_op_not_atomic_witness :
  let i1 := set_ip (ip mismatch_state + 1) mismatch_state in
  Step (set_stack [AInt 1; AStr "x"] mismatch_state)
  = (Fail (ErrKind OpIadd (AStr "x")), set_stack [AInt 1] i1) /\
  Step mismatch_state = (Fail (ErrKind OpIadd (AStr "x")), set_stack [] i1) /\
  Step (set_stack [AInt 1] mismatch_state)
  = (Fail ErrStackEmpty, set_stack [] i1) /\
  (List.length (stack (set_stack [] i1)) < List.length (stack mismatch_state))%nat /\
  (exists popped : list any,
      popped <> [] /\ stack mismatch_state = stack (set_stack [] i1) ++ popped) /\
  stdout (set_stack [] i1) = stdout mismatch_state.
Proof.
  intros i1.
  assert (Hin : In OpIadd binary_ops) by (unfold binary_ops; simpl; auto).
  destruct (failed_binary_op_not_atomic (set_stack [AInt 1; AStr "x"] mismatch_state)
              OpIadd eq_refl Hin) as (F1 & _).
  destruct (failed_binary_op_not_atomic mismatch_state OpIadd eq_refl Hin)
    as (_ & F2 & _ & F4).
  destruct (failed_binary_op_not_atomic (set_stack [AInt 1] mismatch_state)
              OpIadd eq_refl Hin) as (_ & _ & F3 & _).
  assert (HS : Step mismatch_state
               = (Fail (ErrKind OpIadd (AStr "x")), set_stack [] i1)).
  { apply (F2 [] (AStr "x") (AInt 1)); reflexivity. }
  refine (conj (F1 [AInt 1] (AStr "x") eq_refl eq_refl)
            (conj HS (conj (F3 (AInt 1) eq_refl eq_refl) (F4 _ _ HS _)))).
  discriminate.
Defined.

(* ===================================================================== *)
(** ** The parser                                                         *)
(* ===================================================================== *)

Lemma signature_args (token : string) (signature : instructionSignature) :
  lookup token instructionSignatures = Some signature ->
  Forall (fun a => a = argInt \/ a = argString) (args signature).
Proof.
  unfold instructionSignatures. simpl.
  repeat match goal with
         | |- context [if String.eqb token ?k then _ else _] =>
             destruct (String.eqb token k)
         end;
    intros H; inversion H; simpl;
    repeat first [apply Forall_nil | apply Forall_cons]; auto.
Qed.

Lemma getArgument_shorter (a : ArgType) (in_ : Scanner) :
  (List.length (snd (getArgument a in_)) <= List.length in_)%nat.
Proof.
  unfold getArgument, bind, nextInt, nextString.
  destruct (a =? argInt); [| destruct (a =? argString)].
  - destruct in_ as [| [t [err |]] rest]; simpl; try lia.
    destruct (strconv.Atoi t); simpl; lia.
  - destruct in_ as [| [t [err |]] rest]; simpl; lia.
  - simpl. lia.
Qed.

Lemma getArguments_shorter (argTypes : list ArgType) :
  forall in_ : Scanner,
    (List.length (snd (getArguments argTypes in_)) <= List.length in_)%nat.
Proof.
  induction argTypes as [| a rest IH]; intros in_; simpl; [lia |].
  unfold bind at 1. pose proof (getArgument_shorter a in_) as H1.
  destruct (getArgument a in_) as [[v | e | msg] in1]; simpl in *; try lia.
  unfold bind. pose proof (IH in1) as H2.
  destruct (getArguments rest in1) as [[vs | e | msg] in2]; simpl in *; lia.
Qed.

Lemma parseOp_shorter (token : string) (in_ : Scanner) :
  (List.length (snd (parseOp token in_)) <= List.length in_)%nat.
Proof.
  unfold parseOp. destruct (lookup token instructionSignatures) as [sg |].
  - unfold bind. pose proof (getArguments_shorter (args sg) in_) as H.
    destruct (getArguments (args sg) in_) as [[vs | e | msg] in1];
      simpl in *; lia.
  - simpl. lia.
Qed.

Lemma getArgument_value (a : ArgType) (in_ in' : Scanner) (v : any) :
  getArgument a in_ = (Ret v, in') -> is_argument v.
Proof.
  unfold getArgument, bind.
  destruct (a =? argInt); [| destruct (a =? argString)].
  - destruct (nextInt in_) as [[n | e | msg] s]; intros H; inversion H.
    exact I.
  - destruct (nextString in_) as [[n | e | msg] s]; intros H; inversion H.
    exact I.
  - discriminate.
Qed.

Lemma getArguments_values (argTypes : list ArgType) :
  forall (in_ in' : Scanner) (values : list any),
    getArguments argTypes in_ = (Ret values, in') ->
    Forall is_argument values /\ List.length values = List.length argTypes.
Proof.
  induction argTypes as [| a rest IH]; intros in_ in' values; simpl.
  - intros H. inversion H. split; [constructor | reflexivity].
  - unfold bind at 1.
    destruct (getArgument a in_) as [[v | e | msg] in1] eqn:E1;
      try discriminate.
    unfold bind.
    destruct (getArguments rest in1) as [[vs | e | msg] in2] eqn:E2;
      try discriminate.
    intros H. inversion H; subst. destruct (IH _ _ _ E2) as [HF HL].
    split; [constructor; [eapply getArgument_value; exact E1 | exact HF] |].
    simpl. rewrite HL. reflexivity.
Qed.

Lemma parseOp_line (token : string) (in_ in' : Scanner) (cells : list any) :
  parseOp token in_ = (Ret cells, in') ->
  exists (signature : instructionSignature) (values : list any),
    lookup token instructionSignatures = Some signature /\
    cells = AOp (op signature) :: values /\
    Forall is_argument values /\
    List.length values = List.length (args signature).
Proof.
  unfold parseOp. destruct (lookup token instructionSignatures) as [sg |];
    [| discriminate].
  unfold bind.
  destruct (getArguments (args sg) in_) as [[vs | e | msg] in1] eqn:E;
    try discriminate.
  intros H. inversion H; subst. destruct (getArguments_values _ _ _ _ E).
  exists sg, vs. auto.
Qed.

Lemma parsed_as_lines (in_ : Scanner) (lines : list (list any)) :
  parsed_as in_ lines -> Forall is_line lines.
Proof.
  induction 1 as [| token in1 in2 cells lines HP _ IH]; constructor; auto.
  destruct (parseOp_line _ _ _ _ HP) as (sg & vs & _ & -> & HF & _).
  exists (op sg), vs. auto.
Qed.

Lemma is_line_len (cells : list any) : is_line cells -> 1 <= len cells.
Proof.
  intros (o & vs & -> & _). unfold len. simpl. lia.
Qed.

(** The loop, from any point it has reached. *)
Lemma parseLoop_lines (fuel : nat) :
  forall (in_ : Scanner) (instructions0 : list any) (jumpTable0 : list Z)
         (instructions : list any) (jumpTable : list Z),
    parseLoop fuel in_ instructions0 jumpTable0
    = Some (Ret (instructions, jumpTable)) ->
    exists lines : list (list any),
      parsed_as in_ lines /\
      instructions = instructions0 ++ List.concat lines /\
      jumpTable = jumpTable0 ++ offsets (len instructions0) lines.
Proof.
  induction fuel as [| fuel IH]; intros in_ is0 jt0 is1 jt1 H; [discriminate |].
  simpl in H. destruct in_ as [| [token [err |]] in1]; simpl in H.
  - inversion H; subst. exists []. simpl. rewrite !app_nil_r.
    repeat split. constructor.
  - discriminate.
  - destruct (parseOp token in1) as [[cells | e | msg] in2] eqn:E;
      try discriminate.
    destruct (parseOp_line _ _ _ _ E) as (sg & vs & _ & Hc & _ & _).
    assert (Hn : (len cells >? 0) = true).
    { subst cells. unfold len. simpl. apply Z.gtb_lt. lia. }
    rewrite Hn in H. destruct (IH _ _ _ _ _ H) as (lines & HP & Hi & Hj).
    exists (cells :: lines). repeat split.
    + econstructor; eassumption.
    + rewrite Hi. simpl. rewrite app_assoc. reflexivity.
    + rewrite Hj. simpl. rewrite <- app_assoc, len_app. reflexivity.
Qed.

Lemma parseLoop_total (fuel : nat) :
  forall (in_ : Scanner) (instructions0 : list any) (jumpTable0 : list Z),
    (List.length in_ < fuel)%nat ->
    exists r, parseLoop fuel in_ instructions0 jumpTable0 = Some r.
Proof.
  induction fuel as [| fuel IH]; intros in_ is0 jt0 Hf; [lia |].
  simpl. destruct in_ as [| [token [err |]] in1]; simpl; [eauto | eauto |].
  pose proof (parseOp_shorter token in1) as Hs.
  destruct (parseOp token in1) as [[cells | e | msg] in2]; simpl in *;
    [| eauto | eauto].
  destruct (len cells >? 0); apply IH; lia.
Qed.

Lemma parseProgram_total (in_ : Scanner) :
  exists r, parseProgram in_ = Some r.
Proof. apply parseLoop_total. lia. Qed.

(* ===================================================================== *)
(** ** The jump table                                                     *)
(* ===================================================================== *)

Lemma index_nth_error {A : Type} (s : list A) (k : Z) (v : A) :
  index s k = Some v <-> 0 <= k /\ nth_error s (Z.to_nat k) = Some v.
Proof.
  unfold index. destruct (Z.ltb_spec k 0); split.
  - discriminate.
  - intros [H0 _]. lia.
  - auto.
  - intros [_ H1]. exact H1.
Qed.

Lemma offsets_length (lines : list (list any)) :
  forall base : Z, List.length (offsets base lines) = List.length lines.
Proof.
  induction lines as [| cells rest IH]; intros base; simpl;
    [reflexivity | rewrite IH; reflexivity].
Qed.

Lemma offsets_nth (lines : list (list any)) :
  forall (base : Z) (k : nat),
    (k < List.length lines)%nat ->
    nth_error (offsets base lines) k
    = Some (base + len (List.concat (firstn k lines))).
Proof.
  induction lines as [| cells rest IH]; intros base k Hk; simpl in Hk; [lia |].
  destruct k as [| k]; simpl.
  - unfold len. simpl. rewrite Z.add_0_r. reflexivity.
  - rewrite IH by lia. rewrite len_app. rewrite Z.add_assoc. reflexivity.
Qed.

Lemma offsets_lower (lines : list (list any)) :
  forall (base : Z) (k : nat) (a : Z),
    nth_error (offsets base lines) k = Some a -> base <= a.
Proof.
  induction lines as [| cells rest IH]; intros base k a H.
  - destruct k; discriminate.
  - destruct k as [| k]; simpl in H.
    + inversion H. lia.
    + apply IH in H. pose proof (len_nonneg cells). lia.
Qed.

Lemma offsets_increasing (lines : list (list any)) :
  Forall is_line lines ->
  forall (base : Z) (j k : nat) (a b : Z),
    (j < k)%nat ->
    nth_error (offsets base lines) j = Some a ->
    nth_error (offsets base lines) k = Some b ->
    a < b.
Proof.
  induction 1 as [| cells rest Hc _ IH]; intros base j k a b Hjk Ha Hb.
  - destruct j; discriminate.
  - destruct k as [| k]; [lia |]. simpl in Hb.
    destruct j as [| j]; simpl in Ha.
    + inversion Ha; subst. apply offsets_lower in Hb.
      pose proof (is_line_len _ Hc). lia.
    + apply (IH (base + len cells) j k); [lia | assumption ..].
Qed.

Lemma offsets_opcode (lines : list (list any)) :
  Forall is_line lines ->
  forall (pre : list any) (k : nat) (a : Z),
    nth_error (offsets (len pre) lines) k = Some a ->
    exists o : OpCode, index (pre ++ List.concat lines) a = Some (AOp o).
Proof.
  induction 1 as [| cells rest Hc _ IH]; intros pre k a Ha.
  - destruct k; discriminate.
  - destruct k as [| k]; simpl in Ha.
    + inversion Ha; subst. destruct Hc as (o & vs & -> & _). exists o.
      apply index_nth_error. split; [apply len_nonneg |].
      unfold len. rewrite Nat2Z.id. rewrite nth_error_app2 by lia.
      rewrite Nat.sub_diag. reflexivity.
    + rewrite <- len_app in Ha. destruct (IH _ _ _ Ha) as [o Ho].
      exists o. simpl. rewrite app_assoc. exact Ho.
Qed.

(** C6.  When the parser succeeds, the words are parsed into lines, each
    an opcode cell followed by its argument cells, and the instruction
    sequence is these lines one after the other.  The jump table has one
    entry for each line; entry [k] is the length the instruction sequence had
    before line [k] was appended; the entries increase strictly; and each is
    the index of an opcode cell. *)
Theorem jump_table_invariant (in_ : Scanner) (instructions : list any)
    (jumpTable : list Z) :
  parseProgram in_ = Some (Ret (instructions, jumpTable)) ->
  exists lines : list (list any),
    parsed_as in_ lines /\
    Forall is_line lines /\
    instructions = List.concat lines /\
    len jumpTable = len lines /\
    (forall k : Z,
        0 <= k < len lines ->
        index jumpTable k = Some (len (List.concat (slice_to lines k)))) /\
    (forall j k a b : Z,
        j < k -> index jumpTable j = Some a -> index jumpTable k = Some b ->
        a < b) /\
    (forall k a : Z,
        index jumpTable k = Some a ->
        exists o : OpCode, index instructions a = Some (AOp o)).
Proof.
  intros H. unfold parseProgram in H.
  destruct (parseLoop_lines _ _ _ _ _ _ H) as (lines & HP & Hi & Hj).
  simpl in Hi, Hj. pose proof (parsed_as_lines _ _ HP) as HL.
  exists lines. repeat apply conj; try assumption.
  - rewrite Hj. unfold len. rewrite offsets_length. reflexivity.
  - intros k Hk. rewrite Hj. apply index_nth_error. split; [lia |].
    unfold len in Hk. rewrite offsets_nth by lia. reflexivity.
  - intros j k a b Hjk Ha Hb. rewrite Hj in Ha, Hb.
    apply index_nth_error in Ha, Hb. destruct Ha as [Hj0 Ha], Hb as [Hk0 Hb].
    apply (offsets_increasing lines HL 0 (Z.to_nat j) (Z.to_nat k));
      [lia | assumption ..].
  - intros k a Ha. rewrite Hj in Ha. apply index_nth_error in Ha.
    destruct Ha as [_ Ha]. rewrite Hi.
    apply (offsets_opcode lines HL [] (Z.to_nat k)). exact Ha.
Qed.

Lemma jump_table_invariant_witness :
  exists lines : list (list any),
    parsed_as (NewScanner counting_text) lines /\
    Forall is_line lines /\
    instructions counting_program = List.concat lines /\
    len (jumpTable counting_program) = len lines /\
    (forall k : Z,
        0 <= k < len lines ->
        index (jumpTable counting_program) k
        = Some (len (List.concat (slice_to lines k)))) /\
    (forall j k a b : Z,
        j < k ->
        index (jumpTable counting_program) j = Some a ->
        index (jumpTable counting_program) k = Some b ->
        a < b) /\
    (forall k a : Z,
        index (jumpTable counting_program) k = Some a ->
        exists o : OpCode,
          index (instructions counting_program) a = Some (AOp o)).
Proof.
  apply (jump_table_invariant (NewScanner counting_text)).
  vm_compute. reflexivity.
Defined.

(* ===================================================================== *)
(** ** Integer literals                                                   *)
(* ===================================================================== *)

Lemma isDigit_digitVal (c : ascii) :
  strconv.isDigit c = true -> 0 <= strconv.digitVal c <= 9.
Proof.
  unfold strconv.isDigit, strconv.digitVal. intros H.
  apply andb_true_iff in H. destruct H as [H1 H2].
  apply Z.leb_le in H1, H2. lia.
Qed.

Lemma decimal_value_nonneg (s : string) :
  all_digits s = true -> 0 <= decimal_value s.
Proof.
  induction s as [| c rest IH]; simpl; [lia |].
  intros H. apply andb_true_iff in H. destruct H as [Hc Hr].
  pose proof (isDigit_digitVal c Hc). specialize (IH Hr).
  assert (0 < 10 ^ Z.of_nat (String.length rest)) by (apply Z.pow_pos_nonneg; lia).
  nia.
Qed.

(** The digit loop computes the positional value as long as that fits. *)
Lemma parseDigits_value (s : string) :
  forall n : Z,
    all_digits s = true ->
    0 <= n ->
    n * 10 ^ Z.of_nat (String.length s) + decimal_value s <= strconv.maxUint64 ->
    strconv.parseDigits n s
    = inr (n * 10 ^ Z.of_nat (String.length s) + decimal_value s).
Proof.
  induction s as [| c rest IH]; intros n Hd Hn Hb.
  - simpl. f_equal. lia.
  - simpl in Hd. apply andb_true_iff in Hd. destruct Hd as [Hc Hr].
    pose proof (isDigit_digitVal c Hc) as Hv.
    pose proof (decimal_value_nonneg rest Hr) as Hrest.
    assert (Hp : 0 < 10 ^ Z.of_nat (String.length rest))
      by (apply Z.pow_pos_nonneg; lia).
    assert (Hpow : 10 ^ Z.of_nat (String.length (String c rest))
                   = 10 * 10 ^ Z.of_nat (String.length rest)).
    { simpl String.length. rewrite Nat2Z.inj_succ, Z.pow_succ_r by lia.
      reflexivity. }
    rewrite Hpow in *. simpl decimal_value in *.
    cbn [strconv.parseDigits]. rewrite Hc. cbn [negb].
    unfold strconv.maxUint64 in *.
    change (2 ^ 64 - 1) with 18446744073709551615 in *.
    change (18446744073709551615 / 10 + 1) with 1844674407370955162.
    destruct (Z.geb_spec n 1844674407370955162) as [Hge | Hlt]; [nia |].
    destruct (Z.gtb_spec (n * 10 + strconv.digitVal c) 18446744073709551615)
      as [Hgt | Hle]; [nia |].
    rewrite IH; [f_equal; ring | exact Hr | lia |].
    replace ((n * 10 + strconv.digitVal c) * 10 ^ Z.of_nat (String.length rest)
             + decimal_value rest)
      with (n * (10 * 10 ^ Z.of_nat (String.length rest))
            + (strconv.digitVal c * 10 ^ Z.of_nat (String.length rest)
               + decimal_value rest)) by ring.
    exact Hb.
Qed.

Lemma digit_not_sign (c : ascii) :
  strconv.isDigit c = true -> Ascii.eqb c "+" = false /\ Ascii.eqb c "-" = false.
Proof.
  intros H. split; apply Ascii.eqb_neq; intros ->; discriminate.
Qed.

(** [Atoi] reads base 10 with an optional sign. *)
Lemma Atoi_decimal (digits : string) :
  all_digits digits = true ->
  digits <> EmptyString ->
  (decimal_value digits <= GoInt.maxInt ->
   strconv.Atoi digits = Ret (decimal_value digits) /\
   strconv.Atoi (String "+" digits) = Ret (decimal_value digits)) /\
  (decimal_value digits <= - GoInt.minInt ->
   strconv.Atoi (String "-" digits) = Ret (- decimal_value digits)).
Proof.
  intros Hd Hne.
  pose proof (decimal_value_nonneg digits Hd) as H0.
  assert (HP : decimal_value digits <= strconv.maxUint64 ->
               strconv.parseDigits 0 digits = inr (decimal_value digits)).
  { intros Hb. rewrite parseDigits_value by (auto; lia). now f_equal. }
  unfold strconv.maxUint64, GoInt.maxInt, GoInt.minInt, GoInt.intSize in *.
  change (2 ^ (64 - 1)) with 9223372036854775808 in *.
  change (2 ^ 64 - 1) with 18446744073709551615 in *.
  destruct digits as [| c rest]; [contradiction |].
  assert (Hc : strconv.isDigit c = true).
  { simpl in Hd. apply andb_true_iff in Hd. tauto. }
  destruct (digit_not_sign c Hc) as [Hplus Hminus].
  remember (decimal_value (String c rest)) as v eqn:Ev.
  split.
  - intros Hmax. split.
    + unfold strconv.Atoi. rewrite Hplus, Hminus. rewrite HP by lia.
      cbv [GoInt.intSize]. change (2 ^ (64 - 1)) with 9223372036854775808.
      cbn [negb andb].
      destruct (Z.geb_spec v 9223372036854775808); [lia | reflexivity].
    + unfold strconv.Atoi. cbn [Ascii.eqb Bool.eqb]. rewrite HP by lia.
      cbv [GoInt.intSize]. change (2 ^ (64 - 1)) with 9223372036854775808.
      cbn [negb andb].
      destruct (Z.geb_spec v 9223372036854775808); [lia | reflexivity].
  - intros Hmin. unfold strconv.Atoi. cbn [Ascii.eqb Bool.eqb].
    rewrite HP by lia.
    cbv [GoInt.intSize]. change (2 ^ (64 - 1)) with 9223372036854775808.
    cbn [negb andb].
    destruct (Z.gtb_spec v 9223372036854775808); [lia | reflexivity].
Qed.

(* ===================================================================== *)
(** ** Errors of the parser                                               *)
(* ===================================================================== *)

Lemma getArgument_app (a : ArgType) (in_ in' more : Scanner) (v : any) :
  getArgument a in_ = (Ret v, in') ->
  getArgument a (in_ ++ more) = (Ret v, in' ++ more).
Proof.
  unfold getArgument, bind, nextInt, nextString.
  destruct (a =? argInt); [| destruct (a =? argString)].
  - destruct in_ as [| [t [err |]] rest]; simpl; try discriminate.
    destruct (strconv.Atoi t); intros H; inversion H; reflexivity.
  - destruct in_ as [| [t [err |]] rest]; simpl; try discriminate.
    intros H; inversion H; reflexivity.
  - discriminate.
Qed.

Lemma getArguments_app (argTypes : list ArgType) :
  forall (in_ in' more : Scanner) (values : list any),
    getArguments argTypes in_ = (Ret values, in') ->
    getArguments argTypes (in_ ++ more) = (Ret values, in' ++ more).
Proof.
  induction argTypes as [| a rest IH]; intros in_ in' more values; simpl.
  - intros H. inversion H. reflexivity.
  - unfold bind at 1 3.
    destruct (getArgument a in_) as [[v | e | msg] in1] eqn:E1;
      try discriminate.
    rewrite (getArgument_app _ _ _ more _ E1). unfold bind.
    destruct (getArguments rest in1) as [[vs | e | msg] in2] eqn:E2;
      try discriminate.
    rewrite (IH _ _ more _ E2). intros H. inversion H. reflexivity.
Qed.

Lemma parseOp_app (token : string) (in_ in' more : Scanner) (cells : list any) :
  parseOp token in_ = (Ret cells, in') ->
  parseOp token (in_ ++ more) = (Ret cells, in' ++ more).
Proof.
  unfold parseOp. destruct (lookup token instructionSignatures) as [sg |];
    [| discriminate].
  unfold bind.
  destruct (getArguments (args sg) in_) as [[vs | e | msg] in1] eqn:E;
    try discriminate.
  rewrite (getArguments_app _ _ _ more _ E). intros H. inversion H. reflexivity.
Qed.

(** The argument at which [getArguments] fails, after those that were
    read. *)
Lemma getArguments_at (argTypes : list ArgType) :
  forall (n : nat) (in_ in1 in2 : Scanner) (values : list any) (a : ArgType)
         (e : error),
    getArguments (firstn n argTypes) in_ = (Ret values, in1) ->
    nth_error argTypes n = Some a ->
    getArgument a in1 = (Fail e, in2) ->
    getArguments argTypes in_ = (Fail e, in2).
Proof.
  induction argTypes as [| a0 rest IH]; intros n in_ in1 in2 values a e Hf Hn Ha.
  - destruct n; discriminate.
  - destruct n as [| n]; simpl in *.
    + inversion Hf; subst. inversion Hn; subst. unfold bind. rewrite Ha.
      reflexivity.
    + unfold bind at 1 in Hf. unfold bind at 1.
      destruct (getArgument a0 in_) as [[v | e0 | msg] s] eqn:E1;
        try discriminate.
      unfold bind in Hf. unfold bind.
      destruct (getArguments (firstn n rest) s) as [[vs | e0 | msg] s'] eqn:E2;
        try discriminate.
      inversion Hf; subst. rewrite (IH _ _ _ _ _ _ _ E2 Hn Ha). reflexivity.
Qed.

Lemma parseOp_at (token : string) (signature : instructionSignature)
    (n : nat) (in_ in1 in2 : Scanner) (values : list any) (a : ArgType)
    (e : error) :
  lookup token instructionSignatures = Some signature ->
  getArguments (firstn n (args signature)) in_ = (Ret values, in1) ->
  nth_error (args signature) n = Some a ->
  getArgument a in1 = (Fail e, in2) ->
  parseOp token in_ = (Fail e, in2).
Proof.
  intros Hl Hf Hn Ha. unfold parseOp. rewrite Hl. unfold bind.
  rewrite (getArguments_at _ _ _ _ _ _ _ _ Hf Hn Ha). reflexivity.
Qed.

Lemma parsed_as_length (pre : Scanner) (lines : list (list any)) :
  parsed_as pre lines -> (List.length lines <= List.length pre)%nat.
Proof.
  induction 1 as [| token in1 in2 cells lines HP _ IH]; simpl; [lia |].
  pose proof (parseOp_shorter token in1) as Hs. rewrite HP in Hs.
  simpl in Hs. lia.
Qed.

(** The loop over a parsed prefix: one turn for each line. *)
Lemma parseLoop_prefix (pre : Scanner) (lines : list (list any)) :
  parsed_as pre lines ->
  forall (more : Scanner) (fuel : nat) (instructions0 : list any)
         (jumpTable0 : list Z),
    parseLoop (List.length lines + fuel) (pre ++ more) instructions0 jumpTable0
    = parseLoop fuel more (instructions0 ++ List.concat lines)
        (jumpTable0 ++ offsets (len instructions0) lines).
Proof.
  induction 1 as [| token in1 in2 cells lines HP _ IH];
    intros more fuel is0 jt0.
  - simpl. rewrite !app_nil_r. reflexivity.
  - simpl. rewrite (parseOp_app _ _ _ more _ HP).
    destruct (parseOp_line _ _ _ _ HP) as (sg & vs & _ & Hc & _ & _).
    assert (Hn : (len cells >? 0) = true).
    { subst cells. unfold len. simpl. apply Z.gtb_lt. lia. }
    rewrite Hn, IH. rewrite <- !app_assoc, len_app. reflexivity.
Qed.

(** An error of [parseOp] after a parsed prefix is the error of the
    parser. *)
Lemma parseProgram_error (pre : Scanner) (lines : list (list any))
    (token : string) (in_ in' : Scanner) (e : error) :
  parsed_as pre lines ->
  parseOp token in_ = (Fail e, in') ->
  parseProgram (pre ++ (token, None) :: in_) = Some (Fail (parse_error e)).
Proof.
  intros HP HE. unfold parseProgram.
  pose proof (parsed_as_length _ _ HP) as Hl.
  replace (S (List.length (pre ++ (token, None) :: in_)))
    with (List.length lines
          + S (List.length (pre ++ (token, None) :: in_) - List.length lines))%nat
    by (rewrite length_app in *; simpl; lia).
  rewrite (parseLoop_prefix _ _ HP). simpl. rewrite HE. reflexivity.
Qed.

Lemma lookup_In {V : Type} (key : string) (m : list (string * V)) (v : V) :
  lookup key m = Some v -> In v (map snd m).
Proof.
  induction m as [| [k v0] m IH]; simpl; [discriminate |].
  destruct (String.eqb key k).
  - intros H. inversion H. left. reflexivity.
  - intros H. right. apply IH. exact H.
Qed.

Lemma getArgument_kind (a : ArgType) (in_ in' : Scanner) (v : any) :
  getArgument a in_ = (Ret v, in') ->
  (a = argInt /\ exists n : Z, v = AInt n) \/
  (a = argString /\ exists s : string, v = AStr s).
Proof.
  unfold getArgument, bind.
  destruct (Z.eqb_spec a argInt) as [-> | _];
    [| destruct (Z.eqb_spec a argString) as [-> | _]].
  - destruct (nextInt in_) as [[n | e | msg] s]; intros H; inversion H.
    left. eauto.
  - destruct (nextString in_) as [[n | e | msg] s]; intros H; inversion H.
    right. eauto.
  - discriminate.
Qed.

Lemma getArguments_kinds (argTypes : list ArgType) :
  forall (in_ in' : Scanner) (values : list any),
    getArguments argTypes in_ = (Ret values, in') ->
    Forall2
      (fun (a : ArgType) (v : any) =>
         (a = argInt /\ exists n : Z, v = AInt n) \/
         (a = argString /\ exists s : string, v = AStr s))
      argTypes values.
Proof.
  induction argTypes as [| a rest IH]; intros in_ in' values; simpl.
  - intros H. inversion H. constructor.
  - unfold bind at 1.
    destruct (getArgument a in_) as [[v | e | msg] in1] eqn:E1;
      try discriminate.
    unfold bind.
    destruct (getArguments rest in1) as [[vs | e | msg] in2] eqn:E2;
      try discriminate.
    intros H. inversion H; subst. constructor.
    + eapply getArgument_kind. exact E1.
    + eapply IH. exact E2.
Qed.

Lemma getArgument_word (a : ArgType) (in_ in' : Scanner) (v : any) :
  getArgument a in_ = (Ret v, in') ->
  exists word : string, in_ = (word, None) :: in' /\ cell_of word v.
Proof.
  unfold getArgument, bind, nextInt, nextString.
  destruct (a =? argInt); [| destruct (a =? argString)].
  - destruct in_ as [| [t [err |]] rest]; simpl; try discriminate.
    destruct (strconv.Atoi t) eqn:E; intros H; inversion H; subst.
    exists t. split; [reflexivity | exact E].
  - destruct in_ as [| [t [err |]] rest]; simpl; try discriminate.
    intros H; inversion H; subst. exists t. split; reflexivity.
  - discriminate.
Qed.

Lemma getArguments_words (argTypes : list ArgType) :
  forall (in_ in' : Scanner) (values : list any),
    getArguments argTypes in_ = (Ret values, in') ->
    exists used : list string,
      in_ = clean used ++ in' /\ Forall2 cell_of used values.
Proof.
  induction argTypes as [| a rest IH]; intros in_ in' values; simpl.
  - intros H. inversion H; subst. exists []. split; [reflexivity | constructor].
  - unfold bind at 1.
    destruct (getArgument a in_) as [[v | e | msg] in1] eqn:E1;
      try discriminate.
    unfold bind.
    destruct (getArguments rest in1) as [[vs | e | msg] in2] eqn:E2;
      try discriminate.
    intros H. inversion H; subst.
    destruct (getArgument_word _ _ _ _ E1) as (word & -> & Hw).
    destruct (IH _ _ _ E2) as (used & -> & HF).
    exists (word :: used). split; [reflexivity | constructor; assumption].
Qed.

Lemma parseOp_words (token : string) (in_ in' : Scanner) (cells : list any) :
  parseOp token in_ = (Ret cells, in') ->
  exists used : list string,
    in_ = clean used ++ in' /\ Forall2 cell_of (token :: used) cells.
Proof.
  unfold parseOp.
  destruct (lookup token instructionSignatures) as [sg |] eqn:El;
    [| discriminate].
  unfold bind.
  destruct (getArguments (args sg) in_) as [[vs | e | msg] in1] eqn:E;
    try discriminate.
  intros H. inversion H; subst.
  destruct (getArguments_words _ _ _ _ E) as (used & -> & HF).
  exists used. split; [reflexivity |]. constructor; [| exact HF].
  simpl. exists sg. auto.
Qed.

Lemma parsed_as_words (in_ : Scanner) (lines : list (list any)) :
  parsed_as in_ lines ->
  in_ = clean (map fst in_) /\
  Forall2 cell_of (map fst in_) (List.concat lines).
Proof.
  induction 1 as [| token in1 in2 cells lines HP _ [IH1 IH2]]; simpl;
    [split; [reflexivity | constructor] |].
  destruct (parseOp_words _ _ _ _ HP) as (used & -> & HF).
  unfold clean in *. rewrite !map_app, !map_map in *. simpl in *.
  rewrite map_id. split.
  - f_equal. f_equal. exact IH1.
  - change (token :: used ++ map fst in2) with ((token :: used) ++ map fst in2).
    apply Forall2_app; assumption.
Qed.

Lemma parseOp_cells (token : string) (in_ in' : Scanner) (cells : list any) :
  parseOp token in_ = (Ret cells, in') ->
  exists (signature : instructionSignature) (used : list string)
         (values : list any),
    lookup token instructionSignatures = Some signature /\
    in_ = clean used ++ in' /\
    cells = AOp (op signature) :: values /\
    Forall2 cell_of used values /\
    Forall2
      (fun (a : ArgType) (v : any) =>
         (a = argInt /\ exists n : Z, v = AInt n) \/
         (a = argString /\ exists s : string, v = AStr s))
      (args signature) values.
Proof.
  unfold parseOp.
  destruct (lookup token instructionSignatures) as [sg |] eqn:El;
    [| discriminate].
  unfold bind.
  destruct (getArguments (args sg) in_) as [[vs | e | msg] in1] eqn:E;
    try discriminate.
  intros H. inversion H; subst.
  destruct (getArguments_words _ _ _ _ E) as (used & Hu & HF).
  exists sg, used, vs. repeat split; try assumption.
  eapply getArguments_kinds. exact E.
Qed.

Lemma getArgument_end (a : ArgType) :
  a = argInt \/ a = argString ->
  getArgument a [] = (Fail ErrEndOfProgram, []).
Proof. intros [-> | ->]; reflexivity. Qed.

(** C7.  A word that is not in the instruction table where a mnemonic is
    due makes [parseOp] fail with the invalid-instruction error that names
    the word.  When the words run out where an argument is due, [parseOp]
    fails with the end-of-program error.  An integer argument is its word
    read by [Atoi], base 10 with an optional sign: the cell [parseOp] stores
    is the integer read, and an error of [Atoi] is the error of [parseOp].  A
    text argument is its word as it is.  Every error of [parseOp] ends the
    parser with that error, wrapped. *)
Theorem parser_errors :
  (forall (token : string) (in_ : Scanner),
      lookup token instructionSignatures = None ->
      parseOp token in_ = (Fail (ErrInvalidInstruction token), in_)) /\
  (forall (token : string) (signature : instructionSignature) (n : nat)
          (in_ : Scanner) (values : list any),
      lookup token instructionSignatures = Some signature ->
      (n < List.length (args signature))%nat ->
      getArguments (firstn n (args signature)) in_ = (Ret values, []) ->
      parseOp token in_ = (Fail ErrEndOfProgram, [])) /\
  (forall (text : string) (in_ : Scanner),
      nextInt ((text, None) :: in_) = (strconv.Atoi text, in_)) /\
  (forall (text : string) (in_ : Scanner),
      getArgument argInt ((text, None) :: in_)
      = (match strconv.Atoi text with
         | Ret n => Ret (AInt n)
         | Fail e => Fail e
         | Panic msg => Panic msg
         end, in_)) /\
  (forall (text : string) (n : Z) (in_ : Scanner),
      strconv.Atoi text = Ret n ->
      parseOp InstructionIpush ((text, None) :: in_)
      = (Ret [AOp OpIpush; AInt n], in_) /\
      parseOp InstructionJump ((text, None) :: in_)
      = (Ret [AOp OpJump; AInt n], in_)) /\
  (forall (text1 text2 : string) (value line : Z) (in_ : Scanner),
      strconv.Atoi text1 = Ret value ->
      strconv.Atoi text2 = Ret line ->
      parseOp InstructionJumpLessThan ((text1, None) :: (text2, None) :: in_)
      = (Ret [AOp OpJumpLessThan; AInt value; AInt line], in_)) /\
  (forall (token : string) (in_ in' : Scanner) (cells : list any),
      parseOp token in_ = (Ret cells, in') ->
      exists (signature : instructionSignature) (used : list string)
             (values : list any),
        lookup token instructionSignatures = Some signature /\
        in_ = clean used ++ in' /\
        cells = AOp (op signature) :: values /\
        Forall2 cell_of used values /\
        Forall2
          (fun (a : ArgType) (v : any) =>
             (a = argInt /\ exists n : Z, v = AInt n) \/
             (a = argString /\ exists s : string, v = AStr s))
          (args signature) values) /\
  (forall digits : string,
      all_digits digits = true ->
      digits <> EmptyString ->
      decimal_value digits <= GoInt.maxInt ->
      strconv.Atoi digits = Ret (decimal_value digits) /\
      strconv.Atoi (String "+" digits) = Ret (decimal_value digits) /\
      strconv.Atoi (String "-" digits) = Ret (- decimal_value digits)) /\
  (forall (token : string) (signature : instructionSignature) (n : nat)
          (in_ : Scanner) (values : list any) (text : string) (rest : Scanner)
          (e : error),
      lookup token instructionSignatures = Some signature ->
      nth_error (args signature) n = Some argInt ->
      getArguments (firstn n (args signature)) in_
      = (Ret values, (text, None) :: rest) ->
      strconv.Atoi text = Fail e ->
      parseOp token in_ = (Fail e, rest)) /\
  (forall (text : string) (in_ : Scanner),
      nextString ((text, None) :: in_) = (Ret text, in_) /\
      parseOp InstructionSpush ((text, None) :: in_)
      = (Ret [AOp OpSpush; AStr text], in_)) /\
  (forall (pre : Scanner) (lines : list (list any)) (token : string)
          (in_ in' : Scanner) (e : error),
      parsed_as pre lines ->
      parseOp token in_ = (Fail e, in') ->
      parseProgram (pre ++ (token, None) :: in_) = Some (Fail (parse_error e)) /\
      NewProgramFromReader (pre ++ (token, None) :: in_)
      = Some (Fail (Wrap (parse_error e) "unable to parse r"))).
Proof.
  repeat apply conj.
  - intros token in_ H. unfold parseOp. rewrite H. reflexivity.
  - intros token sg n in_ values Hl Hn Hf.
    destruct (nth_error (args sg) n) as [a |] eqn:Ea.
    + apply (parseOp_at token sg n in_ [] [] values a); try assumption.
      apply getArgument_end.
      pose proof (signature_args _ _ Hl) as HA.
      rewrite Forall_forall in HA. apply HA. eapply nth_error_In. exact Ea.
    + apply nth_error_None in Ea. lia.
  - reflexivity.
  - intros text in_. unfold getArgument, bind, nextInt. simpl.
    destruct (strconv.Atoi text); reflexivity.
  - intros text n in_ Ha. split.
    + unfold parseOp. simpl. unfold bind, getArgument, bind, nextInt. simpl.
      rewrite Ha. reflexivity.
    + unfold parseOp. simpl. unfold bind, getArgument, bind, nextInt. simpl.
      rewrite Ha. reflexivity.
  - intros text1 text2 value line in_ H1 H2.
    unfold parseOp. simpl. unfold bind, getArgument, bind, nextInt. simpl.
    rewrite H1. simpl. rewrite H2. reflexivity.
  - intros token in_ in' cells. apply parseOp_cells.
  - intros digits Hd Hne Hmax.
    destruct (Atoi_decimal digits Hd Hne) as [Hpos Hneg].
    destruct (Hpos Hmax) as [H1 H2]. repeat split; try assumption.
    apply Hneg. unfold GoInt.maxInt, GoInt.minInt in *. lia.
  - intros token sg n in_ values text rest e Hl Hn Hf Ha.
    apply (parseOp_at token sg n in_ ((text, None) :: rest) rest values argInt);
      try assumption.
    unfold getArgument, bind, nextInt. simpl. rewrite Ha. reflexivity.
  - intros text in_. split; reflexivity.
  - intros pre lines token in_ in' e HP HE.
    pose proof (parseProgram_error _ _ _ _ _ _ HP HE) as H.
    split; [exact H |]. unfold NewProgramFromReader. rewrite H. reflexivity.
Qed.

Lemma parser_errors_witness :
  parseOp "mul" (clean ["2"%string])
  = (Fail (ErrInvalidInstruction "mul"), clean ["2"%string]) /\
  parseOp "jumpl" (clean ["10"%string]) = (Fail ErrEndOfProgram, []) /\
  (parseOp InstructionIpush (clean ["-7"%string; "put"%string])
   = (Ret [AOp OpIpush; AInt (-7)], clean ["put"%string]) /\
   parseOp InstructionJump (clean ["-7"%string; "put"%string])
   = (Ret [AOp OpJump; AInt (-7)], clean ["put"%string])) /\
  parseOp InstructionJumpLessThan (clean ["10"%string; "+2"%string])
  = (Ret [AOp OpJumpLessThan; AInt 10; AInt 2], []) /\
  (exists (signature : instructionSignature) (used : list string)
          (values : list any),
      lookup "jumpl" instructionSignatures = Some signature /\
      clean ["10"%string; "2"%string; "put"%string]
      = clean used ++ clean ["put"%string] /\
      [AOp OpJumpLessThan; AInt 10; AInt 2] = AOp (op signature) :: values /\
      Forall2 cell_of used values /\
      Forall2
        (fun (a : ArgType) (v : any) =>
           (a = argInt /\ exists n : Z, v = AInt n) \/
           (a = argString /\ exists s : string, v = AStr s))
        (args signature) values) /\
  (strconv.Atoi "42" = Ret (decimal_value "42") /\
   strconv.Atoi (String "+" "42") = Ret (decimal_value "42") /\
   strconv.Atoi (String "-" "42") = Ret (- decimal_value "42")) /\
  parseOp "jumpl" (clean ["10"%string; "2x"%string; "put"%string])
  = (Fail (NumError "2x" ErrSyntax), clean ["put"%string]) /\
  (parseProgram (clean ["ipush"%string; "1"%string]
                 ++ ("mul"%string, None) :: clean ["2"%string])
   = Some (Fail (parse_error (ErrInvalidInstruction "mul"))) /\
   NewProgramFromReader (clean ["ipush"%string; "1"%string]
                         ++ ("mul"%string, None) :: clean ["2"%string])
   = Some (Fail (Wrap (parse_error (ErrInvalidInstruction "mul"))
                      "unable to parse r"))).
Proof.
  destruct parser_errors
    as (H1 & H2 & _ & _ & H5 & H6 & H7 & H8 & H9 & _ & H11).
  assert (Hmul : parseOp "mul" (clean ["2"%string])
                 = (Fail (ErrInvalidInstruction "mul"), clean ["2"%string])).
  { apply H1. reflexivity. }
  refine (conj Hmul (conj _ (conj _ (conj _ (conj _ (conj _ (conj _ _))))))).
  - apply (H2 "jumpl"%string (mkSignature OpJumpLessThan [argInt; argInt])
              1%nat (clean ["10"%string]) [AInt 10]).
    + reflexivity.
    + simpl. lia.
    + reflexivity.
  - apply (H5 "-7"%string (-7) (clean ["put"%string])). reflexivity.
  - apply (H6 "10"%string "+2"%string 10 2 []); reflexivity.
  - apply (H7 "jumpl"%string (clean ["10"%string; "2"%string; "put"%string])
              (clean ["put"%string]) [AOp OpJumpLessThan; AInt 10; AInt 2]).
    reflexivity.
  - apply (H8 "42"%string).
    + reflexivity.
    + discriminate.
    + unfold GoInt.maxInt, GoInt.intSize. simpl. lia.
  - apply (H9 "jumpl"%string (mkSignature OpJumpLessThan [argInt; argInt])
              1%nat (clean ["10"%string; "2x"%string; "put"%string]) [AInt 10]
              "2x"%string (clean ["put"%string])); reflexivity.
  - apply (H11 (clean ["ipush"%string; "1"%string]) [[AOp OpIpush; AInt 1]]
              "mul"%string (clean ["2"%string]) (clean ["2"%string])).
    + apply (parsed_line "ipush" (clean ["1"%string]) [] [AOp OpIpush; AInt 1] []);
        [reflexivity | apply parsed_end].
    + exact Hmul.
Defined.

(* ===================================================================== *)
(** ** Parsed programs run without a broken instruction                   *)
(* ===================================================================== *)

Lemma pop_cases (i : Interpreter) :
  (stack i = [] /\ pop i = (Fail ErrStackEmpty, i)) \/
  (exists (rest : list any) (v : any),
      stack i = rest ++ [v] /\ pop i = (Ret v, set_stack rest i)).
Proof.
  destruct (snoc_cases (stack i)) as [E | (rest & v & E)].
  - left. split; [exact E | apply pop_empty; exact E].
  - right. exists rest, v. split; [exact E | apply pop_snoc; exact E].
Qed.

Lemma popInt_cases (i : Interpreter) :
  (stack i = [] /\ popInt i = (Fail ErrStackEmpty, i)) \/
  (exists (rest : list any) (n : Z),
      stack i = rest ++ [AInt n] /\ popInt i = (Ret n, set_stack rest i)) \/
  (exists (rest : list any) (v : any),
      stack i = rest ++ [v] /\ popInt i = (Fail (ErrNotInt v), set_stack rest i)).
Proof.
  destruct (snoc_cases (stack i)) as [E | (rest & v & E)].
  - left. split; [exact E | apply popInt_empty; exact E].
  - right. rewrite (popInt_snoc_any _ _ _ E).
    destruct v as [o | n | s]; [right | left | right]; eauto.
Qed.

Lemma popString_cases (i : Interpreter) :
  (stack i = [] /\ popString i = (Fail ErrStackEmpty, i)) \/
  (exists (rest : list any) (s : string),
      stack i = rest ++ [AStr s] /\ popString i = (Ret s, set_stack rest i)) \/
  (exists (rest : list any) (v : any),
      stack i = rest ++ [v] /\
      popString i = (Fail (ErrNotString v), set_stack rest i)).
Proof.
  destruct (snoc_cases (stack i)) as [E | (rest & v & E)].
  - left. split; [exact E | apply popString_empty; exact E].
  - right. rewrite (popString_snoc_any _ _ _ E).
    destruct v as [o | n | s]; [right | right | left]; eauto.
Qed.

Lemma jump_cases (line : Z) (i : Interpreter) :
  jump line i = (Fail ErrInvalidJump, i) \/
  (exists k target : Z,
      index (jumpTable (program i)) k = Some target /\
      jump line i = (Ret tt, set_ip target i)).
Proof.
  unfold jump.
  destruct ((GoInt.sub line 1 <? 0)
            || (GoInt.sub line 1 >=? len (jumpTable (program i)))) eqn:E.
  - left. reflexivity.
  - right. apply orb_false_iff in E. destruct E as [E1 E2].
    apply Z.ltb_ge in E1. rewrite Z.geb_leb in E2. apply Z.leb_gt in E2.
    destruct (index (jumpTable (program i)) (GoInt.sub line 1)) as [t |] eqn:Et.
    + exists (GoInt.sub line 1), t. split; [exact Et | reflexivity].
    + exfalso. unfold index in Et.
      destruct (Z.ltb_spec (GoInt.sub line 1) 0); [lia |].
      apply nth_error_None in Et. unfold len in E2. lia.
Qed.

Lemma line_start_0 (lines : list (list any)) : line_start lines 0 = 0.
Proof. reflexivity. Qed.

Lemma line_start_all (lines : list (list any)) :
  line_start lines (List.length lines) = len (List.concat lines).
Proof. unfold line_start. rewrite firstn_all. reflexivity. Qed.

Lemma line_ok_len (cells : list any) : line_ok cells -> 1 <= len cells.
Proof.
  destruct cells as [| c cells]; simpl; [contradiction |].
  intros _. unfold len. simpl. lia.
Qed.

(** The line at which a state stands, cut out of the program. *)
Lemma line_split (lines : list (list any)) (k : nat) :
  (k < List.length lines)%nat ->
  exists cells : list any,
    nth_error lines k = Some cells /\
    List.concat lines
    = List.concat (firstn k lines) ++ cells ++ List.concat (skipn (S k) lines) /\
    line_start lines (S k) = line_start lines k + len cells.
Proof.
  revert k. induction lines as [| l lines IH]; intros k Hk; simpl in Hk; [lia |].
  destruct k as [| k].
  - exists l. repeat split. unfold line_start. simpl. rewrite app_nil_r.
    unfold len. simpl. reflexivity.
  - destruct (IH k) as (cells & Hn & Hc & Hs); [lia |].
    exists cells. split; [exact Hn |]. split.
    + simpl. rewrite Hc at 1. rewrite <- app_assoc. reflexivity.
    + unfold line_start in *.
      change (firstn (S (S k)) (l :: lines)) with (l :: firstn (S k) lines).
      change (firstn (S k) (l :: lines)) with (l :: firstn k lines).
      cbn [List.concat]. rewrite !len_app, Hs. ring.
Qed.

Lemma cell_at_line (i : Interpreter) (pre cells post : list any) (j : nat)
    (c : any) :
  instructions (program i) = pre ++ cells ++ post ->
  ip i = len pre ->
  nth_error cells j = Some c ->
  cell_at i (Z.of_nat j) = Some c.
Proof.
  intros Hi Hip Hn. unfold cell_at. rewrite Hi, Hip.
  apply index_nth_error. split; [unfold len; lia |].
  unfold len. rewrite <- Nat2Z.inj_add, Nat2Z.id.
  rewrite nth_error_app2 by lia.
  replace (List.length pre + j - List.length pre)%nat with j by lia.
  rewrite nth_error_app1; [exact Hn |].
  apply nth_error_Some. congruence.
Qed.

(** A target read from the jump table is the start of a line. *)
Lemma jump_target_line (lines : list (list any)) (k target : Z) :
  index (offsets 0 lines) k = Some target ->
  exists n : nat, (n < List.length lines)%nat /\ target = line_start lines n.
Proof.
  intros H. apply index_nth_error in H. destruct H as [_ H].
  assert (Hlt : (Z.to_nat k < List.length lines)%nat).
  { rewrite <- (offsets_length lines 0). apply nth_error_Some. congruence. }
  exists (Z.to_nat k). split; [exact Hlt |].
  rewrite offsets_nth in H by exact Hlt. inversion H. reflexivity.
Qed.

Lemma executeOp_putln :
  executeOp OpPutln = toStdout (String "010"%char EmptyString).
Proof. reflexivity. Qed.

Lemma executeOp_ipush :
  executeOp OpIpush = (value <- Interpreter_nextInt ;; push (AInt value)).
Proof. reflexivity. Qed.

Lemma executeOp_spush :
  executeOp OpSpush = (value <- Interpreter_nextString ;; push (AStr value)).
Proof. reflexivity. Qed.

Lemma nextString_cell (i : Interpreter) (s : string) :
  cell_at i 0 = Some (AStr s) ->
  Interpreter_nextString i = (Ret s, set_ip (ip i + 1) i).
Proof.
  intros H. unfold Interpreter_nextString, bind.
  rewrite (nextInstruction_cell _ _ H). reflexivity.
Qed.

Lemma Step_ipush (i : Interpreter) (n : Z) :
  cell_at i 0 = Some (AOp OpIpush) ->
  cell_at i 1 = Some (AInt n) ->
  Step i = (Ret tt, set_stack (stack i ++ [AInt n]) (set_ip (ip i + 2) i)).
Proof.
  intros H0 H1. rewrite (Step_op _ _ H0), executeOp_ipush. unfold bind.
  rewrite (nextInt_cell _ n).
  2: { rewrite (cell_at_shift i _ 1 0); [exact H1 | reflexivity | reflexivity]. }
  unfold push. simpl. replace (ip i + 1 + 1) with (ip i + 2) by lia.
  reflexivity.
Qed.

Lemma Step_spush (i : Interpreter) (s : string) :
  cell_at i 0 = Some (AOp OpSpush) ->
  cell_at i 1 = Some (AStr s) ->
  Step i = (Ret tt, set_stack (stack i ++ [AStr s]) (set_ip (ip i + 2) i)).
Proof.
  intros H0 H1. rewrite (Step_op _ _ H0), executeOp_spush. unfold bind.
  rewrite (nextString_cell _ s).
  2: { rewrite (cell_at_shift i _ 1 0); [exact H1 | reflexivity | reflexivity]. }
  unfold push. simpl. replace (ip i + 1 + 1) with (ip i + 2) by lia.
  reflexivity.
Qed.

Lemma Step_jump (i : Interpreter) (line : Z) :
  cell_at i 0 = Some (AOp OpJump) ->
  cell_at i 1 = Some (AInt line) ->
  Step i = jump line (set_ip (ip i + 2) i).
Proof.
  intros H0 H1. rewrite (Step_op _ _ H0), executeOp_jump. unfold bind.
  rewrite (nextInt_cell _ line).
  2: { rewrite (cell_at_shift i _ 1 0); [exact H1 | reflexivity | reflexivity]. }
  simpl. replace (ip i + 1 + 1) with (ip i + 2) by lia. reflexivity.
Qed.

Lemma in_snoc {A : Type} (rest : list A) (v : A) : In v (rest ++ [v]).
Proof. apply in_or_app. right. left. reflexivity. Qed.

Lemma in_snoc2 {A : Type} (rest : list A) (w v : A) :
  In w ((rest ++ [w]) ++ [v]).
Proof. apply in_or_app. left. apply in_snoc. Qed.

Ltac step_done :=
  do 2 eexists; split; [reflexivity | simpl; repeat split].

(** A step at an operation without arguments: the instruction pointer moves
    on by one, and a failure is one of the stack. *)
Lemma Step_simple (i : Interpreter) (o : OpCode) :
  cell_at i 0 = Some (AOp o) ->
  o = OpPutln \/ o = OpDup \/ o = OpPut \/ o = OpIadd \/ o = OpIsubtract
  \/ o = OpSadd ->
  exists (r : outcome unit) (i' : Interpreter),
    Step i = (r, i') /\
    program i' = program i /\
    ip i' = ip i + 1 /\
    match r with
    | Ret _ => True
    | Fail e => stack_error i e
    | Panic _ => False
    end.
Proof.
  intros H0 Ho. rewrite (Step_op _ _ H0).
  set (i1 := set_ip (ip i + 1) i).
  assert (Hst : stack i1 = stack i) by reflexivity.
  destruct Ho as [-> | [-> | [-> | [-> | [-> | ->]]]]].
  - rewrite executeOp_putln. step_done.
  - rewrite executeOp_dup. unfold bind.
    destruct (snoc_cases (stack i1)) as [E | (rest & v & E)].
    + rewrite (peek_empty _ E). step_done. left. reflexivity.
    + rewrite (peek_snoc _ _ _ E). step_done.
  - rewrite executeOp_put. unfold bind.
    destruct (pop_cases i1) as [[E ->] | (rest & v & E & ->)].
    + step_done. left. reflexivity.
    + step_done.
  - rewrite executeOp_iadd. unfold bind.
    destruct (popInt_cases i1)
      as [[E ->] | [(rest & n & E & ->) | (rest & v & E & ->)]].
    + step_done. left. reflexivity.
    + destruct (popInt_cases (set_stack rest i1))
        as [[E' ->] | [(rest' & n' & E' & ->) | (rest' & v' & E' & ->)]].
      * step_done. left. reflexivity.
      * step_done.
      * step_done. right. right. exists v'. split; [| left; reflexivity].
        rewrite <- Hst, E. simpl in E'. rewrite E'. apply in_snoc2.
    + step_done. right. right. exists v. split; [| left; reflexivity].
      rewrite <- Hst, E. apply in_snoc.
  - rewrite executeOp_isub. unfold bind.
    destruct (popInt_cases i1)
      as [[E ->] | [(rest & n & E & ->) | (rest & v & E & ->)]].
    + step_done. left. reflexivity.
    + destruct (popInt_cases (set_stack rest i1))
        as [[E' ->] | [(rest' & n' & E' & ->) | (rest' & v' & E' & ->)]].
      * step_done. left. reflexivity.
      * step_done.
      * step_done. right. right. exists v'. split; [| left; reflexivity].
        rewrite <- Hst, E. simpl in E'. rewrite E'. apply in_snoc2.
    + step_done. right. right. exists v. split; [| left; reflexivity].
      rewrite <- Hst, E. apply in_snoc.
  - rewrite executeOp_sadd. unfold bind.
    destruct (popString_cases i1)
      as [[E ->] | [(rest & n & E & ->) | (rest & v & E & ->)]].
    + step_done. left. reflexivity.
    + destruct (popString_cases (set_stack rest i1))
        as [[E' ->] | [(rest' & n' & E' & ->) | (rest' & v' & E' & ->)]].
      * step_done. left. reflexivity.
      * step_done.
      * step_done. right. right. exists v'. split; [| right; reflexivity].
        rewrite <- Hst, E. simpl in E'. rewrite E'. apply in_snoc2.
    + step_done. right. right. exists v. split; [| right; reflexivity].
      rewrite <- Hst, E. apply in_snoc.
Qed.

Lemma parseOp_line_ok (token : string) (in_ in' : Scanner) (cells : list any) :
  parseOp token in_ = (Ret cells, in') -> line_ok cells.
Proof.
  unfold parseOp.
  destruct (lookup token instructionSignatures) as [sg |] eqn:El;
    [| discriminate].
  unfold bind.
  destruct (getArguments (args sg) in_) as [[vs | e | msg] in1] eqn:E;
    try discriminate.
  intros H. inversion H; subst. clear H.
  apply getArguments_kinds in E. apply lookup_In in El. simpl in El.
  repeat match goal with
         | H : _ \/ _ |- _ => destruct H as [H | H]
         end;
    try contradiction; subst sg; simpl in *;
    repeat match goal with
           | H : Forall2 _ _ _ |- _ => inversion H; subst; clear H
           end;
    repeat match goal with
           | H : _ \/ _ |- _ => destruct H as [[H ?] | [H ?]]
           end;
    try discriminate;
    repeat match goal with
           | H : exists _, _ |- _ => destruct H as [? H]; subst
           end;
    simpl; auto 10.
Qed.

Lemma parsed_as_line_ok (in_ : Scanner) (lines : list (list any)) :
  parsed_as in_ lines -> Forall line_ok lines.
Proof.
  induction 1 as [| token in1 in2 cells lines HP _ IH]; constructor; auto.
  eapply parseOp_line_ok. exact HP.
Qed.

(** What the parser returns is well formed. *)
Lemma parsed_well_formed (in_ : Scanner) (p : Program) :
  NewProgramFromReader in_ = Some (Ret p) ->
  exists lines : list (list any), parsed_as in_ lines /\ well_formed lines p.
Proof.
  unfold NewProgramFromReader, parseProgram. intros H.
  destruct (parseLoop (S (List.length in_)) in_ [] [])
    as [[[is1 jt1] | e | msg] |] eqn:E; try discriminate.
  inversion H; subst.
  destruct (parseLoop_lines _ _ _ _ _ _ E) as (lines & HP & Hi & Hj).
  exists lines. split; [exact HP |]. split; [| split].
  - eapply parsed_as_line_ok. exact HP.
  - exact Hi.
  - exact Hj.
Qed.

(** A step on a well-formed program from the start of a line: at the end
    the sentinel; otherwise the program is kept, the instruction pointer is
    again at the start of a line or at the end, and a failure is one of the
    stack or of a jump. *)
Lemma well_formed_step (lines : list (list any)) (i : Interpreter) :
  well_formed lines (program i) ->
  at_line lines i ->
  (at_end i /\ Step i = (Fail EOF, i)) \/
  (~ at_end i /\ step_ok lines i (Step i)).
Proof.
  intros (Hok & Hins & Hjt) (k & Hk & Hip).
  destruct (Nat.eq_dec k (List.length lines)) as [-> | Hne].
  - left. assert (He : at_end i).
    { unfold at_end. rewrite Hip, line_start_all, Hins. reflexivity. }
    split; [exact He | apply Step_at_end; exact He].
  - right. destruct (line_split lines k) as (cells & Hn & Hc & Hs); [lia |].
    assert (Hl : line_ok cells).
    { rewrite Forall_forall in Hok. apply Hok. eapply nth_error_In. exact Hn. }
    rewrite Hc in Hins.
    assert (Hcell : forall (j : nat) (c : any),
               nth_error cells j = Some c -> cell_at i (Z.of_nat j) = Some c).
    { intros j c. apply (cell_at_line i _ cells _ j c Hins). exact Hip. }
    assert (Hnext : forall i' : Interpreter,
               ip i' = ip i + len cells -> at_line lines i').
    { intros i' Hi'. exists (S k). split; [lia |]. rewrite Hs, <- Hip. exact Hi'. }
    assert (Htarget : forall (i' : Interpreter) (n target : Z),
               program i' = program i ->
               index (jumpTable (program i')) n = Some target ->
               at_line lines (set_ip target i')).
    { intros i' n target Hp Ht. rewrite Hp, Hjt in Ht.
      destruct (jump_target_line _ _ _ Ht) as (m & Hm & ->).
      exists m. split; [lia | reflexivity]. }
    split.
    { unfold at_end. rewrite Hins, !len_app, Hip. unfold line_start.
      pose proof (line_ok_len _ Hl).
      pose proof (len_nonneg (List.concat (skipn (S k) lines))). lia. }
    destruct cells as [| [o | n0 | s0] [| [o1 | n1 | s1] [| [o2 | n2 | s2] [| c3 cs]]]];
      simpl in Hl; try contradiction.
    + destruct (Step_simple i o (Hcell 0%nat _ eq_refl) Hl)
        as (r & i' & HS & Hp & Hi & Hr).
      rewrite HS. split; [exact Hp |]. split; [| exact Hr].
      apply Hnext. exact Hi.
    + destruct Hl as [-> | ->].
      * rewrite (Step_jump i n1 (Hcell 0%nat _ eq_refl) (Hcell 1%nat _ eq_refl)).
        destruct (jump_cases n1 (set_ip (ip i + 2) i))
          as [-> | (m & target & Ht & ->)].
        -- split; [reflexivity |]. split.
           ++ apply Hnext. reflexivity.
           ++ right. left. reflexivity.
        -- split; [reflexivity |]. split; [| exact I].
           apply (Htarget (set_ip (ip i + 2) i) m target eq_refl Ht).
      * rewrite (Step_ipush i n1 (Hcell 0%nat _ eq_refl) (Hcell 1%nat _ eq_refl)).
        split; [reflexivity |]. split; [| exact I]. apply Hnext. reflexivity.
    + subst o.
      rewrite (jumpl_fetch i n1 n2 (Hcell 0%nat _ eq_refl)
                 (Hcell 1%nat _ eq_refl) (Hcell 2%nat _ eq_refl)).
      set (i3 := set_ip (ip i + 3) i). unfold bind.
      destruct (popInt_cases i3)
        as [[E ->] | [(rest & n & E & ->) | (rest & v & E & ->)]].
      * split; [reflexivity |]. split.
        -- apply Hnext. reflexivity.
        -- left. reflexivity.
      * destruct (n <? n1).
        -- unfold jump_ignoring_error.
           destruct (jump_cases n2 (set_stack rest i3))
             as [-> | (m & target & Ht & ->)].
           ++ split; [reflexivity |]. split; [| exact I].
              apply Hnext. reflexivity.
           ++ split; [reflexivity |]. split; [| exact I].
              apply (Htarget (set_stack rest i3) m target eq_refl Ht).
        -- split; [reflexivity |]. split; [| exact I].
           apply Hnext. reflexivity.
      * split; [reflexivity |]. split.
        -- apply Hnext. reflexivity.
        -- right. right. exists v. split; [| left; reflexivity].
           change (stack i) with (stack i3). rewrite E. apply in_snoc.
    + subst o.
      rewrite (Step_spush i s1 (Hcell 0%nat _ eq_refl) (Hcell 1%nat _ eq_refl)).
      split; [reflexivity |]. split; [| exact I]. apply Hnext. reflexivity.
Qed.

Lemma stack_error_run_error (i : Interpreter) (e : error) :
  stack_error i e -> run_error e /\ e <> EOF.
Proof.
  intros [-> | [-> | (v & _ & [-> | ->])]]; split; try discriminate;
    unfold run_error; eauto.
Qed.

Lemma well_formed_run (lines : list (list any)) (fuel : nat) :
  forall (i : Interpreter) (r : outcome unit) (i' : Interpreter),
    well_formed lines (program i) ->
    at_line lines i ->
    Run fuel i = Some (r, i') ->
    program i' = program i /\
    ((r = Ret tt /\ at_end i') \/ (exists e : error, r = Fail e /\ run_error e)).
Proof.
  induction fuel as [| fuel IH]; intros i r i' Hwf Hat H; [discriminate |].
  simpl in H.
  destruct (well_formed_step lines i Hwf Hat) as [[He HS] | [_ Hok]].
  - rewrite HS in H. inversion H; subst. split; [reflexivity |]. left. auto.
  - destruct Hok as (Hp & Hat' & Hr).
    destruct (Step i) as [[u | e | msg] s]; simpl in *.
    + rewrite <- Hp in Hwf. destruct (IH _ _ _ Hwf Hat' H) as [Hp' Hres].
      split; [congruence | exact Hres].
    + destruct (stack_error_run_error _ _ Hr) as [Hre Hne].
      destruct e; try contradiction; inversion H; subst;
        (split; [exact Hp | right; eauto]).
    + contradiction.
Qed.

(** The parser gives a program made of lines of the table: an opcode of the
    table, then as many argument cells as its signature has, an integer
    cell for an integer argument and a text cell for a text argument.  The
    jump table holds the offsets of the lines. *)
Theorem parser_output_well_formed (in_ : Scanner) (p : Program) :
  NewProgramFromReader in_ = Some (Ret p) ->
  exists lines : list (list any),
    parsed_as in_ lines /\
    Forall line_ok lines /\
    instructions p = List.concat lines /\
    jumpTable p = offsets 0 lines.
Proof.
  intros H. destruct (parsed_well_formed _ _ H) as (lines & HP & Hok & Hi & Hj).
  exists lines. auto.
Qed.

Lemma parser_output_well_formed_witness :
  exists lines : list (list any),
    parsed_as (NewScanner counting_text) lines /\
    Forall line_ok lines /\
    instructions counting_program = List.concat lines /\
    jumpTable counting_program = offsets 0 lines.
Proof.
  apply (parser_output_well_formed (NewScanner counting_text) counting_program).
  vm_compute. reflexivity.
Defined.

(** A step on a program made of lines of the table, from the start of a
    line.  At the end of the program it returns the sentinel.  Before the
    end it never panics, never meets a cell that is not an opcode or an
    opcode that is not of the table, never fails to read an argument and
    never returns the sentinel: it returns [nil] or an error of the stack
    (underflow, a value of the wrong kind that was on the stack) or of a
    jump.  The program is kept and the instruction pointer is again at the
    start of a line or at the end. *)
Theorem step_on_well_formed_program (lines : list (list any))
    (i : Interpreter) :
  well_formed lines (program i) ->
  at_line lines i ->
  (at_end i /\ Step i = (Fail EOF, i)) \/
  (~ at_end i /\
   program (snd (Step i)) = program i /\
   at_line lines (snd (Step i)) /\
   match fst (Step i) with
   | Ret _ => True
   | Fail e =>
       e = ErrStackEmpty \/ e = ErrInvalidJump \/
       exists v : any, In v (stack i) /\ (e = ErrNotInt v \/ e = ErrNotString v)
   | Panic _ => False
   end).
Proof.
  intros Hwf Hat. exact (well_formed_step lines i Hwf Hat).
Qed.

Lemma step_on_well_formed_program_witness :
  let lines := [[AOp OpSpush; AStr "x"]; [AOp OpIpush; AInt 1]; [AOp OpIadd]] in
  (at_end mismatch_state /\ Step mismatch_state = (Fail EOF, mismatch_state)) \/
  (~ at_end mismatch_state /\
   program (snd (Step mismatch_state)) = program mismatch_state /\
   at_line lines (snd (Step mismatch_state)) /\
   match fst (Step mismatch_state) with
   | Ret _ => True
   | Fail e =>
       e = ErrStackEmpty \/ e = ErrInvalidJump \/
       exists v : any,
         In v (stack mismatch_state) /\ (e = ErrNotInt v \/ e = ErrNotString v)
   | Panic _ => False
   end).
Proof.
  intros lines. apply (step_on_well_formed_program lines mismatch_state).
  - split; [| split; reflexivity].
    repeat first [apply Forall_nil | apply Forall_cons]; simpl; auto 10.
  - exists 2%nat. split; [simpl; lia | reflexivity].
Defined.

(** Running a parsed program from a new interpreter never panics and never
    ends in an error of a broken instruction: when [Run] returns, it returns
    [nil] with the instruction pointer at the end, or an error of the stack
    (underflow, a value of the wrong kind) or of a jump. *)
Theorem run_of_parsed_program (in_ : Scanner) (p : Program) (dbg : bool)
    (w : string) (fuel : nat) (r : outcome unit) (i' : Interpreter) :
  NewProgramFromReader in_ = Some (Ret p) ->
  Run fuel (NewInterpreter p [EnableDebug dbg; WithStdout w]) = Some (r, i') ->
  program i' = p /\
  ((r = Ret tt /\ at_end i') \/
   (exists e : error,
       r = Fail e /\
       (e = ErrStackEmpty \/ e = ErrInvalidJump \/
        exists v : any, e = ErrNotInt v \/ e = ErrNotString v))).
Proof.
  intros HP HR. destruct (parsed_well_formed _ _ HP) as (lines & _ & Hwf).
  apply (well_formed_run lines fuel
           (NewInterpreter p [EnableDebug dbg; WithStdout w]) r i');
    [exact Hwf | | exact HR].
  exists 0%nat. split; [lia | reflexivity].
Qed.

Lemma run_of_parsed_program_witness :
  program (set_ip 1 (NewInterpreter put_program [EnableDebug false; WithStdout ""]))
  = put_program /\
  ((@Fail unit ErrStackEmpty = Ret tt /\
    at_end (set_ip 1 (NewInterpreter put_program [EnableDebug false; WithStdout ""])))
   \/
   (exists e : error,
       @Fail unit ErrStackEmpty = Fail e /\
       (e = ErrStackEmpty \/ e = ErrInvalidJump \/
        exists v : any, e = ErrNotInt v \/ e = ErrNotString v))).
Proof.
  apply (run_of_parsed_program (NewScanner "put") put_program false
           EmptyString 1%nat (Fail ErrStackEmpty)
           (set_ip 1 (NewInterpreter put_program [EnableDebug false; WithStdout ""])));
    vm_compute; reflexivity.
Defined.

(* ===================================================================== *)
(** ** Words and cells                                                    *)
(* ===================================================================== *)

Lemma Forall2_nth_error {A B : Type} (R : A -> B -> Prop) (l1 : list A)
    (l2 : list B) :
  Forall2 R l1 l2 ->
  forall (n : nat) (y : B),
    nth_error l2 n = Some y -> exists x : A, nth_error l1 n = Some x /\ R x y.
Proof.
  induction 1 as [| x y l1 l2 HR _ IH]; intros n z Hn.
  - destruct n; discriminate.
  - destruct n as [| n]; simpl in *.
    + inversion Hn; subst. eauto.
    + apply IH. exact Hn.
Qed.

(** When the parser succeeds, every word the scanner delivered came without
    an error and was turned into one cell, in order: a mnemonic into its
    opcode, an integer argument into the number [Atoi] reads, a text argument
    into the word itself.  So the instruction sequence is as long as the
    sequence of words delivered, and every entry of the jump table is the
    position of a mnemonic among them.  (Words the scanner does not deliver
    leave no trace: the loop ends when [Scan] returns false and [Err] is not
    read after it.) *)
Theorem parser_word_for_cell (in_ : Scanner) (instructions : list any)
    (jumpTable : list Z) :
  parseProgram in_ = Some (Ret (instructions, jumpTable)) ->
  in_ = clean (map fst in_) /\
  Forall2 cell_of (map fst in_) instructions /\
  len instructions = len in_ /\
  (forall k a : Z,
      index jumpTable k = Some a ->
      exists (token : string) (signature : instructionSignature),
        index in_ a = Some (token, None) /\
        lookup token instructionSignatures = Some signature /\
        index instructions a = Some (AOp (op signature))).
Proof.
  intros H. unfold parseProgram in H.
  destruct (parseLoop_lines _ _ _ _ _ _ H) as (lines & HP & Hi & Hj).
  simpl in Hi, Hj. subst instructions jumpTable.
  destruct (parsed_as_words _ _ HP) as [Hc HW].
  split; [exact Hc |]. split; [exact HW |]. split.
  - unfold len. rewrite <- (Forall2_length HW), length_map. reflexivity.
  - intros k a Ha. apply index_nth_error in Ha. destruct Ha as [_ Ha].
    destruct (offsets_opcode lines (parsed_as_lines _ _ HP) [] _ _ Ha)
      as [o Ho].
    simpl in Ho. apply index_nth_error in Ho. destruct Ho as [Ha0 Ho].
    destruct (Forall2_nth_error _ _ _ HW _ _ Ho) as (token & Ht & Hcell).
    simpl in Hcell. destruct Hcell as (sg & Hl & ->).
    exists token, sg. repeat split.
    + apply index_nth_error. split; [exact Ha0 |].
      rewrite Hc. unfold clean. rewrite nth_error_map, Ht. reflexivity.
    + exact Hl.
    + apply index_nth_error. auto.
Qed.

Lemma parser_word_for_cell_witness :
  NewScanner counting_text = clean (map fst (NewScanner counting_text)) /\
  Forall2 cell_of (map fst (NewScanner counting_text))
    (instructions counting_program) /\
  len (instructions counting_program) = len (NewScanner counting_text) /\
  (forall k a : Z,
      index (jumpTable counting_program) k = Some a ->
      exists (token : string) (signature : instructionSignature),
        index (NewScanner counting_text) a = Some (token, None) /\
        lookup token instructionSignatures = Some signature /\
        index (instructions counting_program) a = Some (AOp (op signature))).
Proof.
  apply (parser_word_for_cell (NewScanner counting_text)).
  vm_compute. reflexivity.
Defined.

(* ===================================================================== *)
(** ** The errors the parser can end in                                   *)
(* ===================================================================== *)

Lemma Atoi_error (s : string) (e : error) :
  strconv.Atoi s = Fail e -> exists k : numErr, e = NumError s k.
Proof.
  unfold strconv.Atoi.
  destruct (match s with
            | EmptyString => (false, s)
            | String c rest =>
                if Ascii.eqb c "+" then (false, rest)
                else if Ascii.eqb c "-" then (true, rest) else (false, s)
            end) as [neg body].
  destruct body as [| c body].
  - intros H. inversion H. eauto.
  - destruct (strconv.parseDigits 0 (String c body)) as [k | un].
    + intros H. inversion H. eauto.
    + destruct (negb neg && (un >=? 2 ^ (GoInt.intSize - 1)));
        [intros H; inversion H; eauto |].
      destruct (neg && (un >? 2 ^ (GoInt.intSize - 1)));
        [intros H; inversion H; eauto | discriminate].
Qed.

Lemma getArgument_fail (a : ArgType) (in_ in' : Scanner) (e : error) :
  a = argInt \/ a = argString ->
  getArgument a in_ = (Fail e, in') ->
  e = ErrEndOfProgram \/
  (exists (word : string) (k : numErr),
      In (word, None) in_ /\ e = NumError word k /\
      strconv.Atoi word = Fail e) \/
  (exists (word : string) (err : error),
      In (word, Some err) in_ /\ e = Wrap err "unable to advance scanner").
Proof.
  unfold getArgument, bind, nextInt, nextString.
  intros [-> | ->]; simpl.
  - destruct in_ as [| [t [err |]] rest]; simpl.
    + intros H. inversion H. left. reflexivity.
    + intros H. inversion H. right. right. exists t, err.
      split; [left; reflexivity | reflexivity].
    + destruct (strconv.Atoi t) eqn:E; intros H; inversion H; subst.
      right. left. destruct (Atoi_error _ _ E) as [k ->].
      exists t, k. repeat split; [left; reflexivity | exact E].
  - destruct in_ as [| [t [err |]] rest]; simpl; intros H; inversion H.
    + left. reflexivity.
    + right. right. exists t, err. split; [left; reflexivity | reflexivity].
Qed.

Lemma getArguments_fail (argTypes : list ArgType) :
  Forall (fun a => a = argInt \/ a = argString) argTypes ->
  forall (in_ in' : Scanner) (e : error),
    getArguments argTypes in_ = (Fail e, in') ->
    e = ErrEndOfProgram \/
    (exists (word : string) (k : numErr),
        In (word, None) in_ /\ e = NumError word k /\
        strconv.Atoi word = Fail e) \/
    (exists (word : string) (err : error),
        In (word, Some err) in_ /\ e = Wrap err "unable to advance scanner").
Proof.
  induction 1 as [| a rest Ha _ IH]; intros in_ in' e; simpl; [discriminate |].
  unfold bind at 1.
  destruct (getArgument a in_) as [[v | e0 | msg] in1] eqn:E1.
  - unfold bind.
    destruct (getArguments rest in1) as [[vs | e1 | msg] in2] eqn:E2;
      try discriminate.
    intros H. inversion H; subst.
    destruct (getArgument_word _ _ _ _ E1) as (w0 & -> & _).
    destruct (IH _ _ _ E2)
      as [-> | [(word & k & Hin & -> & HA) | (word & err & Hin & ->)]].
    + left. reflexivity.
    + right. left. exists word, k. repeat split; [right; exact Hin | exact HA].
    + right. right. exists word, err. split; [right; exact Hin | reflexivity].
  - intros H. inversion H; subst. eapply getArgument_fail; eassumption.
  - discriminate.
Qed.

Lemma getArguments_no_panic (argTypes : list ArgType) :
  forall (in_ in' : Scanner) (msg : string),
    getArguments argTypes in_ <> (Panic msg, in').
Proof.
  induction argTypes as [| a rest IH]; intros in_ in' msg; simpl;
    [discriminate |].
  unfold bind at 1.
  destruct (getArgument a in_) as [[v | e0 | m] in1] eqn:E1.
  - unfold bind.
    destruct (getArguments rest in1) as [[vs | e1 | m] in2] eqn:E2;
      try discriminate.
    exfalso. eapply IH. exact E2.
  - discriminate.
  - exfalso. revert E1. unfold getArgument, bind, nextInt, nextString.
    destruct (a =? argInt); [| destruct (a =? argString)].
    + destruct in_ as [| [t [err |]] r]; simpl; try discriminate.
      destruct (strconv.Atoi t) eqn:EA; try discriminate.
      unfold strconv.Atoi in EA.
      destruct (match t with
                | EmptyString => (false, t)
                | String c rest0 =>
                    if Ascii.eqb c "+" then (false, rest0)
                    else if Ascii.eqb c "-" then (true, rest0) else (false, t)
                end) as [neg body].
      destruct body; [discriminate |].
      destruct (strconv.parseDigits 0 (String a0 body)); [discriminate |].
      destruct (negb neg && (z >=? 2 ^ (GoInt.intSize - 1))); [discriminate |].
      destruct (neg && (z >? 2 ^ (GoInt.intSize - 1))); discriminate.
    + destruct in_ as [| [t [err |]] r]; simpl; discriminate.
    + discriminate.
Qed.

Lemma parseOp_fail (token : string) (in_ in' : Scanner) (e : error) :
  parseOp token in_ = (Fail e, in') -> op_failure token in_ e.
Proof.
  unfold parseOp, op_failure.
  destruct (lookup token instructionSignatures) as [sg |] eqn:El.
  - unfold bind.
    destruct (getArguments (args sg) in_) as [[vs | e0 | msg] in1] eqn:E;
      try discriminate.
    intros H. inversion H; subst.
    destruct (getArguments_fail _ (signature_args _ _ El) _ _ _ E)
      as [-> | [Hn | Hs]]; auto.
  - intros H. inversion H. right. left. auto.
Qed.

Lemma parseOp_no_panic (token : string) (in_ in' : Scanner) (msg : string) :
  parseOp token in_ <> (Panic msg, in').
Proof.
  unfold parseOp. destruct (lookup token instructionSignatures) as [sg |];
    [| discriminate].
  unfold bind.
  destruct (getArguments (args sg) in_) as [[vs | e0 | m] in1] eqn:E;
    try discriminate.
  exfalso. eapply getArguments_no_panic. exact E.
Qed.

Lemma parse_failure_later (d : string * option error) (in_ : Scanner)
    (e : error) :
  parse_failure in_ e -> parse_failure (d :: in_) e.
Proof.
  intros [(token & rest & e0 & [pre ->] & Ho & ->) | (word & err & Hin & ->)].
  - left. exists token, rest, e0. repeat split; [| exact Ho].
    exists (d :: pre). reflexivity.
  - right. exists word, err. split; [right; exact Hin | reflexivity].
Qed.

Lemma parse_failure_app (used in_ : Scanner) (e : error) :
  parse_failure in_ e -> parse_failure (used ++ in_) e.
Proof.
  induction used as [| d used IH]; intros H; [exact H |].
  simpl. apply parse_failure_later. apply IH. exact H.
Qed.

Lemma parseLoop_result (fuel : nat) :
  forall (in_ : Scanner) (instructions0 : list any) (jumpTable0 : list Z)
         (r : outcome (list any * list Z)),
    parseLoop fuel in_ instructions0 jumpTable0 = Some r ->
    match r with
    | Ret _ => True
    | Fail e => parse_failure in_ e
    | Panic _ => False
    end.
Proof.
  induction fuel as [| fuel IH]; intros in_ is0 jt0 r H; [discriminate |].
  simpl in H. destruct in_ as [| [token [err |]] in1]; simpl in H.
  - inversion H. exact I.
  - inversion H. right. exists token, err.
    split; [left; reflexivity | reflexivity].
  - destruct (parseOp token in1) as [[cells | e | msg] in2] eqn:E.
    + destruct (parseOp_words _ _ _ _ E) as (used & -> & _).
      assert (HR : exists is1 jt1, parseLoop fuel in2 is1 jt1 = Some r).
      { destruct (len cells >? 0); eauto. }
      destruct HR as (is1 & jt1 & HR). specialize (IH _ _ _ _ HR).
      destruct r as [x | e | msg]; try assumption.
      apply parse_failure_later. apply parse_failure_app. exact IH.
    + inversion H; subst. left. exists token, in1, e.
      repeat split; [exists []; reflexivity |].
      eapply parseOp_fail. exact E.
    + exfalso. eapply parseOp_no_panic. exact E.
Qed.

(** The parser ends on every sequence of deliveries, with a program or with
    an error, never with a panic.  The error is one of these: an error of
    [parseOp] at a mnemonic, wrapped (the words ran out where an argument was
    due, the mnemonic is not in the table, [Atoi] refused the word of an
    argument, or the scanner had an error after the word of an argument); or
    the error the scanner had after the word of a mnemonic, wrapped.  The
    branch for an unknown kind of argument is never taken.  An error of the
    scanner after a word is returned in place of that word being parsed. *)
Theorem parser_ends_with_known_error :
  (forall in_ : Scanner,
      exists r : outcome (list any * list Z),
        parseProgram in_ = Some r /\
        match r with
        | Ret _ => True
        | Fail e => parse_failure in_ e
        | Panic _ => False
        end) /\
  (forall (pre : Scanner) (lines : list (list any)) (word : string)
          (err : error) (rest : Scanner),
      parsed_as pre lines ->
      parseProgram (pre ++ (word, Some err) :: rest)
      = Some (Fail (Wrap err "unable to scan program"))) /\
  (forall (a : ArgType) (word : string) (err : error) (rest : Scanner),
      a = argInt \/ a = argString ->
      getArgument a ((word, Some err) :: rest)
      = (Fail (Wrap err "unable to advance scanner"), rest)).
Proof.
  repeat apply conj.
  - intros in_. destruct (parseProgram_total in_) as [r Hr].
    exists r. split; [exact Hr |]. eapply parseLoop_result. exact Hr.
  - intros pre lines word err rest HP. unfold parseProgram.
    pose proof (parsed_as_length _ _ HP) as Hl.
    replace (S (List.length (pre ++ (word, Some err) :: rest)))
      with (List.length lines
            + S (List.length (pre ++ (word, Some err) :: rest)
                 - List.length lines))%nat
      by (rewrite length_app in *; simpl; lia).
    rewrite (parseLoop_prefix _ _ HP). reflexivity.
  - intros a word err rest [-> | ->]; reflexivity.
Qed.

Lemma parser_ends_with_known_error_witness :
  (exists r : outcome (list any * list Z),
      parseProgram (clean ["ipush"%string; "x"%string]) = Some r /\
      match r with
      | Ret _ => True
      | Fail e => parse_failure (clean ["ipush"%string; "x"%string]) e
      | Panic _ => False
      end) /\
  parseProgram (clean ["ipush"%string; "1"%string]
                ++ ("put"%string, Some (New "read failed")) :: clean ["put"%string])
  = Some (Fail (Wrap (New "read failed") "unable to scan program")) /\
  getArgument argInt (("1"%string, Some (New "read failed")) :: [])
  = (Fail (Wrap (New "read failed") "unable to advance scanner"), []).
Proof.
  destruct parser_ends_with_known_error as (H1 & H2 & H3).
  split; [exact (H1 (clean ["ipush"%string; "x"%string])) |].
  split.
  - apply (H2 (clean ["ipush"%string; "1"%string]) [[AOp OpIpush; AInt 1]]).
    apply (parsed_line "ipush" (clean ["1"%string]) [] [AOp OpIpush; AInt 1] []);
      [reflexivity | apply parsed_end].
  - apply H3. left. reflexivity.
Defined.

(* ===================================================================== *)
(** ** The scanner: white space between words                             *)
(* ===================================================================== *)

(** The white space runes, one by one. *)
Lemma isSpace_cases (r : Z) :
  bufio.isSpace r = true ->
  In r [32; 9; 10; 11; 12; 13; 133; 160; 5760; 8192; 8193; 8194; 8195; 8196;
        8197; 8198; 8199; 8200; 8201; 8202; 8232; 8233; 8239; 8287; 12288].
Proof.
  unfold bufio.isSpace. intros H.
  destruct (r <=? 255) eqn:E1.
  - repeat (apply orb_true_iff in H; destruct H as [H | H]);
      apply Z.eqb_eq in H; subst; simpl; tauto.
  - destruct ((8192 <=? r) && (r <=? 8202)) eqn:E2.
    + apply andb_true_iff in E2. destruct E2 as [Hlo Hhi].
      apply Z.leb_le in Hlo. apply Z.leb_le in Hhi.
      assert (Hr : r = 8192 \/ r = 8193 \/ r = 8194 \/ r = 8195 \/ r = 8196 \/
                   r = 8197 \/ r = 8198 \/ r = 8199 \/ r = 8200 \/ r = 8201 \/
                   r = 8202) by lia.
      repeat (destruct Hr as [Hr | Hr]; [subst; simpl; tauto |]).
      subst. simpl. tauto.
    + repeat (apply orb_true_iff in H; destruct H as [H | H]);
        apply Z.eqb_eq in H; subst; simpl; tauto.
Qed.

(** Between two runes the splitter does not look at what the last was. *)
Lemma splitWords_between (text : string) (space space' : bool)
    (word : string) :
  bufio.splitWords text 0 space word = bufio.splitWords text 0 space' word.
Proof. destruct text; reflexivity. Qed.

(** A white space rune between words is passed over, all its bytes. *)
Lemma splitWords_space (r : Z) (rest : string) (space : bool) :
  bufio.isSpace r = true ->
  bufio.splitWords (String.append (utf8.EncodeRune r) rest) 0 space
    EmptyString
  = bufio.splitWords rest 0 true EmptyString.
Proof.
  intros H. apply isSpace_cases in H.
  repeat (destruct H as [H | H];
          [subst r; destruct rest; reflexivity |]).
  destruct H.
Qed.

Lemma splitWords_spaces (runes : list Z) (space : bool) :
  Forall (fun r => bufio.isSpace r = true) runes ->
  bufio.splitWords (utf8.EncodeRunes runes) 0 space EmptyString = [].
Proof.
  intros H. revert space. induction H as [| r runes Hr _ IH]; intros space.
  - reflexivity.
  - cbn [utf8.EncodeRunes fold_right].
    rewrite (splitWords_space r _ space Hr). apply IH.
Qed.

(** The decoder takes at least one byte and no more than there are. *)
Lemma DecodeRune_width (c0 : ascii) (p : string) :
  (1 <= snd (utf8.DecodeRune (String c0 p)) <= S (String.length p))%nat.
Proof.
  unfold utf8.DecodeRune. cbv zeta.
  destruct (utf8.byte c0 <? 128); [simpl; lia |].
  destruct (utf8.between 194 223 (utf8.byte c0)).
  { destruct p as [| c1 p]; [simpl; lia |].
    destruct (utf8.between 128 191 (utf8.byte c1)); simpl; lia. }
  destruct (utf8.between 224 239 (utf8.byte c0)).
  { destruct p as [| c1 [| c2 p]]; try (simpl; lia).
    match goal with |- context [if ?b then _ else _] => destruct b end;
      simpl; lia. }
  destruct (utf8.between 240 244 (utf8.byte c0)); [| simpl; lia].
  destruct p as [| c1 [| c2 [| c3 p]]]; try (simpl; lia).
  match goal with |- context [if ?b then _ else _] => destruct b end;
    simpl; lia.
Qed.

(** A byte that continues no rune is not in any of the ranges the decoder
    accepts after the first byte. *)
Lemma between_continuation (lo hi b : Z) :
  128 <= lo -> hi <= 191 ->
  utf8.between 128 191 b = false -> utf8.between lo hi b = false.
Proof.
  unfold utf8.between. intros Hlo Hhi H.
  apply andb_false_iff in H. apply andb_false_iff.
  rewrite !Z.leb_gt in *. lia.
Qed.

(** A truncated rune stays truncated when a byte that continues no rune
    follows it: what the decoder reads of [p] does not depend on what comes
    after such a byte. *)
Lemma DecodeRune_app (c0 : ascii) (p : string) (c : ascii) (q : string) :
  utf8.between 128 191 (utf8.byte c) = false ->
  utf8.DecodeRune (String c0 (String.append p (String c q)))
  = utf8.DecodeRune (String c0 p).
Proof.
  intros Hc.
  assert (H3 : utf8.between
                 (if utf8.byte c0 =? 224 then 160 else 128)
                 (if utf8.byte c0 =? 237 then 159 else 191) (utf8.byte c)
               = false).
  { apply between_continuation; [| | exact Hc].
    - destruct (utf8.byte c0 =? 224); lia.
    - destruct (utf8.byte c0 =? 237); lia. }
  assert (H4 : utf8.between
                 (if utf8.byte c0 =? 240 then 144 else 128)
                 (if utf8.byte c0 =? 244 then 143 else 191) (utf8.byte c)
               = false).
  { apply between_continuation; [| | exact Hc].
    - destruct (utf8.byte c0 =? 240); lia.
    - destruct (utf8.byte c0 =? 244); lia. }
  unfold utf8.DecodeRune. cbv zeta.
  destruct (utf8.byte c0 <? 128); [reflexivity |].
  destruct (utf8.between 194 223 (utf8.byte c0)).
  { destruct p as [| c1 p]; cbn [String.append];
      [rewrite Hc |]; reflexivity. }
  destruct (utf8.between 224 239 (utf8.byte c0)).
  { destruct p as [| c1 [| c2 p]]; cbn [String.append].
    - destruct q; [reflexivity |]. rewrite H3. reflexivity.
    - rewrite Hc, andb_false_r. reflexivity.
    - reflexivity. }
  destruct (utf8.between 240 244 (utf8.byte c0)); [| reflexivity].
  destruct p as [| c1 [| c2 [| c3 p]]]; cbn [String.append].
  - destruct q as [| c2 [| c3 q]]; try reflexivity. rewrite H4. reflexivity.
  - destruct q as [| c3 q]; [reflexivity |].
    rewrite Hc, andb_false_r. reflexivity.
  - rewrite Hc, andb_false_r. reflexivity.
  - reflexivity.
Qed.

(** The encoding of a white space rune starts with a byte that continues no
    rune. *)
Lemma EncodeRune_space_head (r : Z) :
  bufio.isSpace r = true ->
  exists (c : ascii) (q : string),
    utf8.EncodeRune r = String c q /\
    utf8.between 128 191 (utf8.byte c) = false.
Proof.
  intros H. apply isSpace_cases in H.
  repeat (destruct H as [H | H];
          [subst r; eexists; eexists; split; reflexivity |]).
  destruct H.
Qed.

(** A white space rune ends the word before it and is passed over. *)
Lemma splitWords_space_after (r : Z) (rest : string) (space : bool)
    (word : string) :
  bufio.isSpace r = true ->
  bufio.splitWords (String.append (utf8.EncodeRune r) rest) 0 space word
  = bufio.splitWords EmptyString 0 space word
    ++ bufio.splitWords rest 0 true EmptyString.
Proof.
  intros H. apply isSpace_cases in H.
  repeat (destruct H as [H | H];
          [subst r; destruct word; reflexivity |]).
  destruct H.
Qed.

(** Words on either side of a white space rune are scanned apart. *)
Lemma splitWords_join (r : Z) (b : string) :
  bufio.isSpace r = true ->
  forall (a : string) (skip : nat) (space : bool) (word : string),
    (skip <= String.length a)%nat ->
    bufio.splitWords
      (String.append a (String.append (utf8.EncodeRune r) b)) skip space word
    = bufio.splitWords a skip space word
      ++ bufio.splitWords b 0 true EmptyString.
Proof.
  intros Hr. destruct (EncodeRune_space_head r Hr) as (c' & q' & He & Hc').
  induction a as [| c a IH]; intros skip space word Hs.
  - simpl in Hs. assert (skip = 0%nat) by lia. subst skip.
    apply splitWords_space_after. exact Hr.
  - cbn [String.append String.length] in *.
    destruct skip as [| more].
    + cbn [bufio.splitWords].
      rewrite He at 1. cbn [String.append].
      rewrite (DecodeRune_app c a c' _ Hc').
      pose proof (DecodeRune_width c a) as Hw.
      destruct (utf8.DecodeRune (String c a)) as [r0 width].
      cbn [snd] in Hw.
      destruct (bufio.isSpace r0).
      * destruct word; rewrite IH by lia; reflexivity.
      * rewrite IH by lia. reflexivity.
    + cbn [bufio.splitWords].
      destruct space; rewrite IH by lia; reflexivity.
Qed.

Lemma NewScanner_join (a b : string) (r : Z) :
  bufio.isSpace r = true ->
  NewScanner (String.append a (String.append (utf8.EncodeRune r) b))
  = NewScanner a ++ NewScanner b.
Proof.
  intros Hr. unfold NewScanner.
  rewrite (splitWords_join r b Hr a 0 false EmptyString) by lia.
  unfold clean. rewrite map_app.
  rewrite (splitWords_between b true false). reflexivity.
Qed.

(* ===================================================================== *)
(** ** Parsing one source after another                                   *)
(* ===================================================================== *)

Lemma parseLoop_more (fuel : nat) :
  forall (in_ : Scanner) (instructions0 : list any) (jumpTable0 : list Z)
         (r : outcome (list any * list Z)),
    parseLoop fuel in_ instructions0 jumpTable0 = Some r ->
    forall k : nat,
      parseLoop (fuel + k) in_ instructions0 jumpTable0 = Some r.
Proof.
  induction fuel as [| fuel IH]; intros in_ is0 jt0 r H k; [discriminate |].
  simpl in *. destruct in_ as [| [token [err |]] in1]; simpl in *;
    [exact H | exact H |].
  destruct (parseOp token in1) as [[cells | e | msg] in2]; try exact H.
  destruct (len cells >? 0); apply IH; exact H.
Qed.

Lemma parseLoop_relocate (fuel : nat) :
  forall (in_ : Scanner) (pre : list any) (jpre : list Z)
         (instructions0 : list any) (jumpTable0 : list Z),
    parseLoop fuel in_ (pre ++ instructions0)
      (jpre ++ map (Z.add (len pre)) jumpTable0)
    = option_map (relocate pre jpre)
        (parseLoop fuel in_ instructions0 jumpTable0).
Proof.
  induction fuel as [| fuel IH]; intros in_ pre jpre is0 jt0; [reflexivity |].
  simpl. destruct in_ as [| [token [err |]] in1]; simpl;
    [reflexivity | reflexivity |].
  destruct (parseOp token in1) as [[cells | e | msg] in2]; try reflexivity.
  destruct (len cells >? 0).
  - rewrite <- IH. f_equal.
    + rewrite app_assoc. reflexivity.
    + rewrite map_app, app_assoc, len_app. reflexivity.
  - apply IH.
Qed.

(** When what the scanner delivers is a sequence [in1] that parses on its
    own followed by a sequence [in2], the parser gives what it gives on [in2]
    alone, placed after the first program: its cells follow the cells of the
    first and its jump-table entries are moved by the length of the first; an
    error on [in2] is the error of the whole.  So it is for two source texts
    with a white space rune between them, the first of which parses.  (With
    nothing between them the last word of the first text and the first word
    of the second would be one word.) *)
Theorem parse_concatenation (in1 in2 : Scanner) (instructions1 : list any)
    (jumpTable1 : list Z) (r2 : outcome (list any * list Z)) :
  parseProgram in1 = Some (Ret (instructions1, jumpTable1)) ->
  parseProgram in2 = Some r2 ->
  parseProgram (in1 ++ in2) = Some (relocate instructions1 jumpTable1 r2) /\
  (forall (text1 text2 : string) (space : Z),
      in1 = NewScanner text1 ->
      in2 = NewScanner text2 ->
      bufio.isSpace space = true ->
      parseProgram
        (NewScanner
           (String.append text1
              (String.append (utf8.EncodeRune space) text2)))
      = Some (relocate instructions1 jumpTable1 r2)).
Proof.
  intros H1 H2.
  assert (Hjoin : parseProgram (in1 ++ in2)
                  = Some (relocate instructions1 jumpTable1 r2)).
  { unfold parseProgram in *.
    destruct (parseLoop_lines _ _ _ _ _ _ H1) as (lines & HP & Hi & Hj).
    simpl in Hi, Hj. pose proof (parsed_as_length _ _ HP) as Hl.
    replace (S (List.length (in1 ++ in2)))
      with (List.length lines
            + (S (List.length in2) + (List.length in1 - List.length lines)))%nat
      by (rewrite length_app; lia).
    rewrite (parseLoop_prefix _ _ HP). rewrite !app_nil_l, <- Hi, <- Hj.
    match goal with
    | |- parseLoop ?f _ _ _ = _ =>
        pose proof (parseLoop_relocate f in2 instructions1 jumpTable1 [] [])
          as HR
    end.
    cbn [map] in HR. rewrite !app_nil_r in HR. rewrite HR.
    rewrite (parseLoop_more _ _ _ _ _ H2). reflexivity. }
  split; [exact Hjoin |].
  intros text1 text2 space E1 E2 Hs.
  rewrite (NewScanner_join text1 text2 space Hs), <- E1, <- E2.
  exact Hjoin.
Qed.

Lemma parse_concatenation_witness :
  parseProgram (NewScanner isub_text ++ NewScanner counting_text)
  = Some (relocate (instructions isub_program) (jumpTable isub_program)
            (Ret (instructions counting_program, jumpTable counting_program)))
  /\
  parseProgram
    (NewScanner
       (String.append isub_text
          (String.append (utf8.EncodeRune 10) counting_text)))
  = Some (relocate (instructions isub_program) (jumpTable isub_program)
            (Ret (instructions counting_program, jumpTable counting_program))).
Proof.
  assert (H1 : parseProgram (NewScanner isub_text)
               = Some (Ret (instructions isub_program,
                            jumpTable isub_program))).
  { vm_compute. reflexivity. }
  assert (H2 : parseProgram (NewScanner counting_text)
               = Some (Ret (instructions counting_program,
                            jumpTable counting_program))).
  { vm_compute. reflexivity. }
  destruct (parse_concatenation _ _ _ _ _ H1 H2) as [Ha Hb].
  split; [exact Ha |].
  exact (Hb isub_text counting_text 10 eq_refl eq_refl eq_refl).
Defined.

(* ===================================================================== *)
(** ** Jumps that are taken                                               *)
(* ===================================================================== *)

Lemma jump_valid (lines : list (list any)) (i : Interpreter) (line : Z) :
  jumpTable (program i) = offsets 0 lines ->
  GoInt.inRange line ->
  1 <= line <= len lines ->
  jump line i = (Ret tt, set_ip (line_start lines (Z.to_nat (line - 1))) i).
Proof.
  intros Hjt Hr Hl. unfold jump.
  rewrite sub_one_above_min; [| exact Hr | ].
  2: { unfold GoInt.minInt, GoInt.intSize. simpl. lia. }
  rewrite Hjt.
  assert (Hlen : len (offsets 0 lines) = len lines).
  { unfold len. rewrite offsets_length. reflexivity. }
  rewrite Hlen.
  destruct (Z.ltb_spec (line - 1) 0); [lia |].
  destruct (Z.geb_spec (line - 1) (len lines)); [lia |]. simpl.
  assert (Hi : index (offsets 0 lines) (line - 1)
               = Some (line_start lines (Z.to_nat (line - 1)))).
  { apply index_nth_error. split; [lia |].
    rewrite offsets_nth by (unfold len in *; lia). reflexivity. }
  rewrite Hi. reflexivity.
Qed.

Lemma line_start_opcode (lines : list (list any)) (i : Interpreter) (k : nat) :
  Forall line_ok lines ->
  instructions (program i) = List.concat lines ->
  (k < List.length lines)%nat ->
  ip i = line_start lines k ->
  exists (o : OpCode) (values : list any),
    nth_error lines k = Some (AOp o :: values) /\
    cell_at i 0 = Some (AOp o).
Proof.
  intros Hok Hins Hk Hip.
  destruct (line_split lines k Hk) as (cells & Hn & Hc & _).
  assert (Hl : line_ok cells).
  { rewrite Forall_forall in Hok. apply Hok. eapply nth_error_In. exact Hn. }
  rewrite Hc in Hins.
  destruct cells as [| [o | n | s] values]; simpl in Hl; try contradiction.
  exists o, values. split; [exact Hn |].
  apply (cell_at_line i _ (AOp o :: values) _ 0%nat (AOp o) Hins Hip).
  reflexivity.
Qed.

(** On a program made of lines of the table, [jump L] with [L] between 1
    and the number of lines succeeds, leaves the stack and the output as they
    are and puts the instruction pointer on the opcode of line [L]; so does
    [jumpl V L] when the integer it pops is less than [V], the stack having
    lost that integer. *)
Theorem taken_jump_lands_on_line (lines : list (list any)) (i : Interpreter)
    (line : Z) :
  well_formed lines (program i) ->
  GoInt.inRange line ->
  1 <= line <= len lines ->
  let target := line_start lines (Z.to_nat (line - 1)) in
  (exists (o : OpCode) (values : list any),
      nth_error lines (Z.to_nat (line - 1)) = Some (AOp o :: values) /\
      cell_at (set_ip target i) 0 = Some (AOp o)) /\
  (cell_at i 0 = Some (AOp OpJump) ->
   cell_at i 1 = Some (AInt line) ->
   Step i = (Ret tt, set_ip target i)) /\
  (forall (value top : Z) (rest : list any),
      cell_at i 0 = Some (AOp OpJumpLessThan) ->
      cell_at i 1 = Some (AInt value) ->
      cell_at i 2 = Some (AInt line) ->
      stack i = rest ++ [AInt top] ->
      top < value ->
      Step i = (Ret tt, set_stack rest (set_ip target i))).
Proof.
  intros (Hok & Hins & Hjt) Hr Hl target. repeat apply conj.
  - apply (line_start_opcode lines (set_ip target i) (Z.to_nat (line - 1)));
      try assumption; [unfold len in Hl; lia | reflexivity].
  - intros H0 H1. rewrite (Step_jump i line H0 H1).
    rewrite (jump_valid lines) by assumption. reflexivity.
  - intros value top rest H0 H1 H2 Hst Hlt.
    rewrite (jumpl_fetch _ _ _ H0 H1 H2). unfold bind.
    rewrite (popInt_snoc _ rest top) by exact Hst.
    destruct (Z.ltb_spec top value); [| lia].
    unfold jump_ignoring_error. rewrite (jump_valid lines) by assumption.
    reflexivity.
Qed.

Lemma taken_jump_lands_on_line_witness :
  let lines :=
    [[AOp OpIpush; AInt 0]; [AOp OpIpush; AInt 1]; [AOp OpIadd]; [AOp OpDup];
     [AOp OpPut]; [AOp OpPutln]; [AOp OpDup];
     [AOp OpJumpLessThan; AInt 10; AInt 2]] in
  let loop := mkInterpreter counting_program 9 [AInt 1; AInt 1]
                EmptyString false in
  let hop := mkInterpreter (mkProgram [AOp OpJump; AInt 1] [0]) 0 []
               EmptyString false in
  (exists (o : OpCode) (values : list any),
      nth_error lines 1 = Some (AOp o :: values) /\
      cell_at (set_ip 2 loop) 0 = Some (AOp o)) /\
  Step loop = (Ret tt, set_stack [AInt 1] (set_ip 2 loop)) /\
  Step hop = (Ret tt, set_ip 0 hop).
Proof.
  intros lines loop hop.
  assert (Hr1 : GoInt.inRange 1).
  { unfold GoInt.inRange, GoInt.minInt, GoInt.maxInt, GoInt.intSize. simpl. lia. }
  assert (Hr2 : GoInt.inRange 2).
  { unfold GoInt.inRange, GoInt.minInt, GoInt.maxInt, GoInt.intSize. simpl. lia. }
  assert (Hwf : well_formed lines (program loop)).
  { split; [| split; reflexivity].
    repeat first [apply Forall_nil | apply Forall_cons]; simpl; auto 10. }
  assert (Hwf' : well_formed [[AOp OpJump; AInt 1]] (program hop)).
  { split; [| split; reflexivity].
    repeat first [apply Forall_nil | apply Forall_cons]; simpl; auto 10. }
  destruct (taken_jump_lands_on_line lines loop 2 Hwf Hr2) as (T1 & _ & T3).
  { unfold len. simpl. lia. }
  destruct (taken_jump_lands_on_line [[AOp OpJump; AInt 1]] hop 1 Hwf' Hr1)
    as (_ & T2 & _).
  { unfold len. simpl. lia. }
  refine (conj T1 (conj (T3 10 1 [AInt 1] eq_refl eq_refl eq_refl eq_refl _)
            (T2 eq_refl eq_refl))).
  lia.
Defined.

(* ===================================================================== *)
(** ** The output is only appended to                                     *)
(* ===================================================================== *)

Lemma append_nil_r (s : string) : String.append s EmptyString = s.
Proof. induction s as [| c s IH]; simpl; [reflexivity | rewrite IH; reflexivity]. Qed.

Lemma append_assoc (a b c : string) :
  String.append (String.append a b) c = String.append a (String.append b c).
Proof. induction a as [| x a IH]; simpl; [reflexivity | rewrite IH; reflexivity]. Qed.

Lemma writes_bind {A B : Type} (m : M Interpreter A) (k : A -> M Interpreter B) :
  writes m -> (forall a : A, writes (k a)) -> writes (bind m k).
Proof.
  intros Hm Hk i. destruct (Hm i) as (r & w & i1 & H1).
  destruct r as [a | e | msg].
  - destruct (Hk a i1) as (r2 & w2 & i2 & H2).
    exists r2, (String.append w w2), i2. intros out. unfold bind.
    rewrite H1, H2, append_assoc. reflexivity.
  - exists (Fail e), w, i1. intros out. unfold bind. rewrite H1. reflexivity.
  - exists (Panic msg), w, i1. intros out. unfold bind. rewrite H1. reflexivity.
Qed.

(** An operation that does not touch the output at all. *)
Lemma writes_silent {A : Type} (m : M Interpreter A) :
  (forall (i : Interpreter) (out : string),
      m (set_stdout out i) = (fst (m i), set_stdout out (snd (m i)))) ->
  writes m.
Proof.
  intros H i. exists (fst (m i)), EmptyString, (snd (m i)). intros out.
  rewrite H, append_nil_r. reflexivity.
Qed.

Lemma writes_ret {A : Type} (a : A) : writes (ret a).
Proof. apply writes_silent. reflexivity. Qed.

Lemma writes_fail {A : Type} (e : error) : writes (@fail _ A e).
Proof. apply writes_silent. reflexivity. Qed.

Lemma writes_push (v : any) : writes (push v).
Proof. apply writes_silent. reflexivity. Qed.

Lemma writes_pop : writes pop.
Proof.
  apply writes_silent. intros i out. unfold pop. simpl.
  destruct (len (stack i) =? 0); [reflexivity |].
  destruct (index (stack i) (len (stack i) - 1)); reflexivity.
Qed.

Lemma writes_peek : writes peek.
Proof.
  apply writes_silent. intros i out. unfold peek. simpl.
  destruct (len (stack i) =? 0); [reflexivity |].
  destruct (index (stack i) (len (stack i) - 1)); reflexivity.
Qed.

Lemma writes_asInt (v : any) : writes (asInt v).
Proof. apply writes_silent. intros i out. destruct v; reflexivity. Qed.

Lemma writes_asString (v : any) : writes (asString v).
Proof. apply writes_silent. intros i out. destruct v; reflexivity. Qed.

Lemma writes_jump (line : Z) : writes (jump line).
Proof.
  apply writes_silent. intros i out. unfold jump. simpl.
  destruct ((GoInt.sub line 1 <? 0)
            || (GoInt.sub line 1 >=? len (jumpTable (program i))));
    [reflexivity |].
  destruct (index (jumpTable (program i)) (GoInt.sub line 1)); reflexivity.
Qed.

Lemma writes_jump_ignoring_error (line : Z) : writes (jump_ignoring_error line).
Proof.
  intros i. destruct (writes_jump line i) as (r & w & i1 & H).
  destruct r as [u | e | msg].
  - exists (Ret tt), w, i1. intros out. unfold jump_ignoring_error.
    rewrite H. reflexivity.
  - exists (Ret tt), w, i1. intros out. unfold jump_ignoring_error.
    rewrite H. reflexivity.
  - exists (Panic msg), w, i1. intros out. unfold jump_ignoring_error.
    rewrite H. reflexivity.
Qed.

Lemma writes_nextInstruction : writes nextInstruction.
Proof.
  apply writes_silent. intros i out. unfold nextInstruction. simpl.
  destruct (ip i =? len (instructions (program i))); [reflexivity |].
  destruct (index (instructions (program i)) (ip i)); reflexivity.
Qed.

Lemma writes_toStdout (text : string) : writes (toStdout text).
Proof.
  intros i. exists (Ret tt), text, i. intros out. reflexivity.
Qed.

Lemma writes_executeOp (o : OpCode) : writes (executeOp o).
Proof.
  unfold executeOp, Interpreter_nextInt, Interpreter_nextString, popInt,
    popString.
  repeat match goal with
         | |- writes (if ?c then _ else _) => destruct c
         | |- writes (bind _ _) => apply writes_bind; [| intro]
         end;
    auto using writes_toStdout, writes_peek, writes_push, writes_pop,
      writes_asInt, writes_asString, writes_nextInstruction, writes_jump,
      writes_jump_ignoring_error, writes_ret, writes_fail.
Qed.

Lemma writes_Step : writes Step.
Proof.
  unfold Step. apply writes_bind; [apply writes_nextInstruction |].
  intros [o | n | s]; [apply writes_executeOp | apply writes_fail ..].
Qed.

Lemma set_stdout_same (i : Interpreter) : set_stdout (stdout i) i = i.
Proof. destruct i. reflexivity. Qed.

Lemma writes_Run (fuel : nat) :
  forall i : Interpreter,
    (forall out : string, Run fuel (set_stdout out i) = None) \/
    (exists (r : outcome unit) (w : string) (i' : Interpreter),
        forall out : string,
          Run fuel (set_stdout out i)
          = Some (r, set_stdout (String.append out w) i')).
Proof.
  induction fuel as [| fuel IH]; intros i; [left; reflexivity |].
  destruct (writes_Step i) as (r & w & i1 & H1).
  destruct r as [u | e | msg].
  - destruct (IH i1) as [HN | (r2 & w2 & i2 & H2)].
    + left. intros out. simpl. rewrite H1.
      rewrite <- (set_stdout_same (set_stdout (String.append out w) i1)).
      apply HN.
    + right. exists r2, (String.append w w2), i2. intros out. simpl.
      rewrite H1.
      rewrite H2, append_assoc. reflexivity.
  - right. destruct e.
    + exists (Ret tt), w, i1. intros out. simpl. rewrite H1. reflexivity.
    + exists (Fail (New msg)), w, i1. intros out. simpl. rewrite H1.
      reflexivity.
    + exists (Fail (Wrap e msg)), w, i1. intros out. simpl. rewrite H1.
      reflexivity.
    + exists (Fail (NumError num err)), w, i1. intros out. simpl. rewrite H1.
      reflexivity.
  - right. exists (Panic msg), w, i1. intros out. simpl. rewrite H1.
    reflexivity.
Qed.

(** The interpreter never reads or erases its output.  A step, and a run
    that returns, started with any text [out] in the sink gives one and the
    same result and state whatever [out] is, with the sink holding [out]
    followed by the text written; in particular what was in the sink before
    is a prefix of what is in it after. *)
Theorem output_is_append_only (i : Interpreter) :
  (exists (r : outcome unit) (w : string) (i' : Interpreter),
      Step i = (r, set_stdout (String.append (stdout i) w) i') /\
      forall out : string,
        Step (set_stdout out i) = (r, set_stdout (String.append out w) i')) /\
  (forall fuel : nat,
      (forall out : string, Run fuel (set_stdout out i) = None) \/
      (exists (r : outcome unit) (w : string) (i' : Interpreter),
          Run fuel i = Some (r, set_stdout (String.append (stdout i) w) i') /\
          forall out : string,
            Run fuel (set_stdout out i)
            = Some (r, set_stdout (String.append out w) i'))).
Proof.
  split.
  - destruct (writes_Step i) as (r & w & i' & H). exists r, w, i'.
    split; [| exact H]. rewrite <- (set_stdout_same i) at 1. apply H.
  - intros fuel. destruct (writes_Run fuel i) as [HN | (r & w & i' & H)].
    + left. exact HN.
    + right. exists r, w, i'. split; [| exact H].
      rewrite <- (set_stdout_same i) at 1. apply H.
Qed.

(* ===================================================================== *)
(** ** Addition, duplication and printing                                 *)
(* ===================================================================== *)

Lemma add_comm (a b : Z) : GoInt.add a b = GoInt.add b a.
Proof. unfold GoInt.add. rewrite Z.add_comm. reflexivity. Qed.

(** With integers [a] and [b] on top of the stack [iadd] replaces them by
    their sum as Go computes it on [int]: in the range of [int], the same
    in either order of the operands, and the exact sum when that is in
    range.  The program [ipush N; ipush M; iadd; put] ends normally having
    written that sum in decimal, with the stack empty. *)
Theorem iadd_sum :
  (forall (i : Interpreter) (rest : list any) (a b : Z),
      cell_at i 0 = Some (AOp OpIadd) ->
      stack i = rest ++ [AInt a; AInt b] ->
      Step i = (Ret tt, set_stack (rest ++ [AInt (GoInt.add a b)])
                          (set_ip (ip i + 1) i)) /\
      GoInt.add a b = GoInt.add b a /\
      GoInt.inRange (GoInt.add a b) /\
      (GoInt.inRange (a + b) -> GoInt.add a b = a + b)) /\
  (forall (N M : Z) (w : string) (k : nat),
      Run (5 + k) (NewInterpreter (sum_program N M) [WithStdout w])
      = Some (Ret tt,
              mkInterpreter (sum_program N M) 6 []
                (String.append w (strconv.Itoa (GoInt.add N M))) false)).
Proof.
  split.
  - intros i rest a b H0 Hst. repeat split.
    + rewrite (Step_op _ _ H0), executeOp_iadd. unfold bind.
      rewrite (popInt_snoc _ (rest ++ [AInt a]) b)
        by (simpl; rewrite Hst; apply two_on_top).
      rewrite (popInt_snoc _ rest a) by reflexivity.
      reflexivity.
    + apply add_comm.
    + pose proof (wrap_is_inRange (a + b)) as [H _]. exact H.
    + pose proof (wrap_is_inRange (a + b)) as [_ H]. exact H.
    + intros Hr. unfold GoInt.add. apply wrap_inRange. exact Hr.
  - intros N M w k. apply Run_more. reflexivity.
Qed.

Lemma iadd_sum_witness :
  Step (mkInterpreter (sum_program 2 3) 4 [AInt 2; AInt 3] EmptyString false)
  = (Ret tt,
     set_stack ([] ++ [AInt (GoInt.add 2 3)])
       (set_ip (4 + 1)
          (mkInterpreter (sum_program 2 3) 4 [AInt 2; AInt 3] EmptyString false)))
  /\ GoInt.add 2 3 = 2 + 3.
Proof.
  destruct (proj1 iadd_sum
              (mkInterpreter (sum_program 2 3) 4 [AInt 2; AInt 3] EmptyString false)
              [] 2 3 eq_refl eq_refl) as (HS & _ & _ & Hex).
  refine (conj HS (Hex _)).
  unfold GoInt.inRange, GoInt.minInt, GoInt.maxInt, GoInt.intSize. simpl. lia.
Defined.

(** [dup] pushes a second copy of the top value and keeps the first; [put]
    takes the top value off and appends its text to the output.  Neither
    looks at the kind of the value.  The program [ipush N; dup; iadd; put]
    writes twice [N] as Go computes it. *)
Theorem dup_and_put :
  (forall (i : Interpreter) (rest : list any) (v : any),
      cell_at i 0 = Some (AOp OpDup) ->
      stack i = rest ++ [v] ->
      Step i = (Ret tt, set_stack (rest ++ [v; v]) (set_ip (ip i + 1) i))) /\
  (forall (i : Interpreter) (rest : list any) (v : any),
      cell_at i 0 = Some (AOp OpPut) ->
      stack i = rest ++ [v] ->
      Step i
      = (Ret tt,
         set_stdout (String.append (stdout i) (fmt.Sprint v))
           (set_stack rest (set_ip (ip i + 1) i)))) /\
  (forall (N : Z) (w : string) (k : nat),
      Run (5 + k) (NewInterpreter (double_program N) [WithStdout w])
      = Some (Ret tt,
              mkInterpreter (double_program N) 5 []
                (String.append w (strconv.Itoa (GoInt.add N N))) false)).
Proof.
  repeat apply conj.
  - intros i rest v H0 Hst. rewrite (Step_op _ _ H0), executeOp_dup.
    unfold bind. rewrite (peek_snoc _ rest v) by exact Hst.
    unfold push. simpl. rewrite Hst, <- app_assoc. reflexivity.
  - intros i rest v H0 Hst. rewrite (Step_op _ _ H0), executeOp_put.
    unfold bind. rewrite (pop_snoc _ rest v) by exact Hst. reflexivity.
  - intros N w k. apply Run_more. reflexivity.
Qed.

Lemma dup_and_put_witness :
  let i := mkInterpreter (double_program 7) 2 [AInt 7] EmptyString false in
  let j := mkInterpreter (double_program 7) 4 [AInt 14] EmptyString false in
  Step i = (Ret tt, set_stack ([] ++ [AInt 7; AInt 7]) (set_ip (2 + 1) i)) /\
  Step j
  = (Ret tt,
     set_stdout (String.append EmptyString (fmt.Sprint (AInt 14)))
       (set_stack [] (set_ip (4 + 1) j))).
Proof.
  intros i j. destruct dup_and_put as (H1 & H2 & _).
  exact (conj (H1 i [] (AInt 7) eq_refl eq_refl)
              (H2 j [] (AInt 14) eq_refl eq_refl)).
Defined.

(* ===================================================================== *)
(** ** Instructions that are broken                                       *)
(* ===================================================================== *)

Lemma executeOp_unknown (o : OpCode) :
  ~ In o table_ops -> executeOp o = fail (ErrInvalidOpCode o).
Proof.
  intros Hn. unfold executeOp.
  repeat match goal with
         | |- (if o =? ?c then _ else _) = _ =>
             destruct (Z.eqb_spec o c) as [-> | _];
             [exfalso; apply Hn; unfold table_ops; simpl; auto 12 |]
         end.
  reflexivity.
Qed.

Lemma executeOp_arg_ops (o : OpCode) :
  In o arg_ops ->
  (In o int_arg_ops /\
   exists k : Z -> M Interpreter unit,
     executeOp o = (value <- Interpreter_nextInt ;; k value)) \/
  (o = OpSpush /\
   executeOp o = (value <- Interpreter_nextString ;; push (AStr value))).
Proof.
  unfold arg_ops, int_arg_ops. simpl.
  intros [<- | [<- | [<- | [<- | []]]]].
  - left. split; [auto |]. eexists. reflexivity.
  - left. split; [auto |]. eexists. reflexivity.
  - left. split; [auto |]. eexists. reflexivity.
  - right. split; reflexivity.
Qed.

(** The guards of the interpreter against an instruction sequence the
    parser would not make.  A cell that is not an opcode where an opcode is
    due, an opcode that is not of the table, and an argument cell of the
    wrong kind each make [Step] fail with the error that names it; the stack
    and the output are not touched.  An instruction sequence that stops
    after an opcode that takes an argument is not an error: [Step] returns
    the sentinel and [Run] ends normally. *)
Theorem broken_instruction_guards :
  (forall (i : Interpreter) (v : any),
      cell_at i 0 = Some v ->
      is_argument v ->
      Step i = (Fail (ErrNotOpCode v), set_ip (ip i + 1) i)) /\
  (forall (i : Interpreter) (o : OpCode),
      cell_at i 0 = Some (AOp o) ->
      ~ In o table_ops ->
      Step i = (Fail (ErrInvalidOpCode o), set_ip (ip i + 1) i)) /\
  (forall (i : Interpreter) (o : OpCode) (v : any),
      cell_at i 0 = Some (AOp o) ->
      In o int_arg_ops ->
      cell_at i 1 = Some v ->
      (forall n : Z, v <> AInt n) ->
      Step i = (Fail (ErrNotInt v), set_ip (ip i + 2) i)) /\
  (forall (i : Interpreter) (v : any),
      cell_at i 0 = Some (AOp OpSpush) ->
      cell_at i 1 = Some v ->
      (forall s : string, v <> AStr s) ->
      Step i = (Fail (ErrNotString v), set_ip (ip i + 2) i)) /\
  (forall (i : Interpreter) (o : OpCode) (fuel : nat),
      cell_at i 0 = Some (AOp o) ->
      In o arg_ops ->
      ip i + 1 = len (instructions (program i)) ->
      Step i = (Fail EOF, set_ip (ip i + 1) i) /\
      Run (S fuel) i = Some (Ret tt, set_ip (ip i + 1) i)).
Proof.
  repeat apply conj.
  - intros i v H0 Hv. unfold Step, bind.
    rewrite (nextInstruction_cell _ _ H0).
    destruct v; [contradiction | reflexivity | reflexivity].
  - intros i o H0 Hn. rewrite (Step_op _ _ H0), (executeOp_unknown _ Hn).
    reflexivity.
  - intros i o v H0 Ho H1 Hv.
    assert (Ha : In o arg_ops).
    { unfold int_arg_ops, arg_ops in *. simpl in *. tauto. }
    rewrite (Step_op _ _ H0).
    assert (HN : Interpreter_nextInt (set_ip (ip i + 1) i)
                 = (Fail (ErrNotInt v), set_ip (ip i + 2) i)).
    { unfold Interpreter_nextInt, bind.
      rewrite (nextInstruction_cell _ v).
      2: { rewrite (cell_at_shift i _ 1 0); [exact H1 | reflexivity ..]. }
      simpl. replace (ip i + 1 + 1) with (ip i + 2) by lia.
      destruct v; try reflexivity. exfalso. apply (Hv n). reflexivity. }
    destruct (executeOp_arg_ops o Ha) as [[_ [k ->]] | [-> _]].
    + unfold bind. rewrite HN. reflexivity.
    + unfold int_arg_ops in Ho. simpl in Ho.
      destruct Ho as [H | [H | [H | []]]]; discriminate H.
  - intros i v H0 H1 Hv. rewrite (Step_op _ _ H0), executeOp_spush.
    unfold bind, Interpreter_nextString, bind.
    rewrite (nextInstruction_cell _ v).
    2: { rewrite (cell_at_shift i _ 1 0); [exact H1 | reflexivity ..]. }
    simpl. replace (ip i + 1 + 1) with (ip i + 2) by lia.
    destruct v; try reflexivity. exfalso. apply (Hv s). reflexivity.
  - intros i o fuel H0 Ho Hend.
    assert (HS : Step i = (Fail EOF, set_ip (ip i + 1) i)).
    { rewrite (Step_op _ _ H0).
      assert (HE : nextInstruction (set_ip (ip i + 1) i)
                   = (Fail EOF, set_ip (ip i + 1) i)).
      { unfold nextInstruction. simpl. rewrite Hend, Z.eqb_refl. reflexivity. }
      destruct (executeOp_arg_ops o Ho) as [[_ [k ->]] | [_ ->]];
        unfold bind, Interpreter_nextInt, Interpreter_nextString, bind;
        rewrite HE; reflexivity. }
    split; [exact HS |]. simpl. rewrite HS. reflexivity.
Qed.

Lemma broken_instruction_guards_witness :
  let mk := fun cells => mkInterpreter (mkProgram cells [0]) 0 [AInt 1]
                           "out" false in
  Step (mk [AInt 5]) = (Fail (ErrNotOpCode (AInt 5)), set_ip 1 (mk [AInt 5])) /\
  Step (mk [AOp 13]) = (Fail (ErrInvalidOpCode 13), set_ip 1 (mk [AOp 13])) /\
  Step (mk [AOp OpIpush; AStr "x"])
  = (Fail (ErrNotInt (AStr "x")), set_ip 2 (mk [AOp OpIpush; AStr "x"])) /\
  Step (mk [AOp OpSpush; AInt 5])
  = (Fail (ErrNotString (AInt 5)), set_ip 2 (mk [AOp OpSpush; AInt 5])) /\
  Step (mk [AOp OpIpush]) = (Fail EOF, set_ip 1 (mk [AOp OpIpush])) /\
  Run 1 (mk [AOp OpIpush]) = Some (Ret tt, set_ip 1 (mk [AOp OpIpush])).
Proof.
  intros mk. destruct broken_instruction_guards as (G1 & G2 & G3 & G4 & G5).
  refine (conj (G1 (mk [AInt 5]) (AInt 5) eq_refl I)
            (conj (G2 (mk [AOp 13]) 13 eq_refl _)
               (conj (G3 (mk [AOp OpIpush; AStr "x"]) OpIpush (AStr "x")
                        eq_refl _ eq_refl _)
                  (conj (G4 (mk [AOp OpSpush; AInt 5]) (AInt 5) eq_refl eq_refl _)
                     (G5 (mk [AOp OpIpush]) OpIpush 0%nat eq_refl _ eq_refl))))).
  - unfold table_ops. simpl. intros H.
    repeat destruct H as [H | H]; try discriminate H. exact H.
  - unfold int_arg_ops. simpl. auto.
  - intros n. discriminate.
  - intros s. discriminate.
  - unfold arg_ops. simpl. auto.
Defined.

(* ===================================================================== *)
(** ** The empty program, and the stack                                   *)
(* ===================================================================== *)

(** The options of the package set the debug flag and the output, nothing
    else. *)
Lemma options_frame (opts : list InterpreterOption) :
  Forall is_option opts ->
  forall i : Interpreter,
    let i' := fold_left (fun interpreter opt => opt interpreter) opts i in
    program i' = program i /\ ip i' = ip i /\ stack i' = stack i.
Proof.
  induction 1 as [| opt opts Ho _ IH]; intros i; simpl.
  - auto.
  - destruct (IH (opt i)) as (Hp & Hi & Hs). simpl in Hp, Hi, Hs.
    rewrite Hp, Hi, Hs.
    destruct Ho as [[debug ->] | [w ->]]; auto.
Qed.

(** Only a scanner that delivers nothing parses to the empty program. *)
Lemma parseProgram_empty (in_ : Scanner) :
  parseProgram in_ = Some (Ret ([], [])) -> in_ = [].
Proof.
  intros H. unfold parseProgram in H.
  destruct (parseLoop_lines _ _ _ _ _ _ H) as (lines & HP & Hi & _).
  simpl in Hi.
  destruct (parsed_as_words _ _ HP) as [_ HW].
  rewrite <- Hi in HW. inversion HW as [Hm |].
  destruct in_; [reflexivity | discriminate].
Qed.

(** A source of white space only (any of the runes the scanner splits on,
    in their UTF-8 encoding) has no words.  A source without words, and no
    other, parses to the program with no instructions and no lines.  Running
    that program returns [nil] at the first step, whatever options the
    interpreter was made with, and leaves the state as it is: the stack
    empty, the output and the debug flag as the options set them. *)
Theorem empty_source_runs (runes : list Z) (opts : list InterpreterOption)
    (fuel : nat) :
  Forall (fun r => bufio.isSpace r = true) runes ->
  Forall is_option opts ->
  NewScanner (utf8.EncodeRunes runes) = [] /\
  NewProgramFromReader (NewScanner (utf8.EncodeRunes runes))
  = Some (Ret (mkProgram [] [])) /\
  (forall in_ : Scanner,
      NewProgramFromReader in_ = Some (Ret (mkProgram [] [])) -> in_ = []) /\
  Run (S fuel) (NewInterpreter (mkProgram [] []) opts)
  = Some (Ret tt, NewInterpreter (mkProgram [] []) opts) /\
  stack (NewInterpreter (mkProgram [] []) opts) = [] /\
  ip (NewInterpreter (mkProgram [] []) opts) = 0.
Proof.
  intros Hr Ho.
  assert (Hs : NewScanner (utf8.EncodeRunes runes) = []).
  { unfold NewScanner. rewrite (splitWords_spaces _ false Hr). reflexivity. }
  destruct (options_frame opts Ho (mkInterpreter (mkProgram [] []) 0 [] EmptyString false))
    as (Hp & Hi & Hst).
  fold (NewInterpreter (mkProgram [] []) opts) in Hp, Hi, Hst.
  simpl in Hp, Hi, Hst.
  split; [exact Hs |]. split; [rewrite Hs; reflexivity |].
  split; [| split; [| split; [exact Hst | exact Hi]]].
  - intros in_ H. unfold NewProgramFromReader in H.
    destruct (parseProgram in_) as [[[instructions jumpTable] | e | msg] |]
      eqn:E; try discriminate.
    inversion H; subst. apply parseProgram_empty. exact E.
  - cbn [Run].
    rewrite (Step_at_end (NewInterpreter (mkProgram [] []) opts)).
    + reflexivity.
    + unfold at_end. rewrite Hp, Hi. reflexivity.
Qed.

Lemma empty_source_runs_witness :
  let runes := [32; 10; 9; 13; 133; 160; 5760; 8195; 8232; 12288] in
  let opts := [EnableDebug true; WithStdout "out"; EnableDebug false] in
  NewScanner (utf8.EncodeRunes runes) = [] /\
  NewProgramFromReader (NewScanner (utf8.EncodeRunes runes))
  = Some (Ret (mkProgram [] [])) /\
  (forall in_ : Scanner,
      NewProgramFromReader in_ = Some (Ret (mkProgram [] [])) -> in_ = []) /\
  Run 1 (NewInterpreter (mkProgram [] []) opts)
  = Some (Ret tt, NewInterpreter (mkProgram [] []) opts) /\
  stack (NewInterpreter (mkProgram [] []) opts) = [] /\
  ip (NewInterpreter (mkProgram [] []) opts) = 0.
Proof.
  intros runes opts.
  apply (empty_source_runs runes opts 0%nat).
  - repeat first [apply Forall_nil | apply Forall_cons]; reflexivity.
  - repeat first [apply Forall_nil | apply Forall_cons];
      first [left; eexists; reflexivity | right; eexists; reflexivity].
Defined.

(** White space outside ASCII separates words as a blank does: here a
    no-break space and an ideographic space. *)
Example scan_unicode_space :
  NewScanner
    (String.append "ipush"
       (String.append (utf8.EncodeRune 160)
          (String.append "5" (String.append (utf8.EncodeRune 12288) "put"))))
  = clean ["ipush"; "5"; "put"]%string.
Proof. vm_compute. reflexivity. Qed.

(** The stack is last in, first out: a pop after a push returns the value
    pushed and the state from before the push; a peek returns it and changes
    nothing; after two pushes the values come back in the opposite order. *)
Theorem push_pop_round_trip (i : Interpreter) (v w : any) :
  pop (snd (push v i)) = (Ret v, i) /\
  peek (snd (push v i)) = (Ret v, snd (push v i)) /\
  (x <- push v ;; y <- push w ;; b <- pop ;; c <- pop ;; ret (b, c)) i
  = (Ret (w, v), i).
Proof.
  assert (Hpop : forall (j : Interpreter) (x : any),
             pop (snd (push x j)) = (Ret x, j)).
  { intros j x. rewrite (pop_snoc _ (stack j) x) by reflexivity.
    destruct j. reflexivity. }
  repeat split.
  - apply Hpop.
  - apply (peek_snoc _ (stack i) v). reflexivity.
  - unfold bind.
    change (push v i) with (Ret tt, snd (push v i)). cbv beta iota.
    change (push w (snd (push v i)))
      with (Ret tt, snd (push w (snd (push v i)))). cbv beta iota.
    rewrite Hpop, Hpop. reflexivity.
Qed.

(* ===================================================================== *)
(** ** The exit codes of the command                                      *)
(* ===================================================================== *)

Lemma NewProgramFromReader_no_panic (in_ : Scanner) (msg : string) :
  NewProgramFromReader in_ <> Some (Panic msg).
Proof.
  unfold NewProgramFromReader, parseProgram. intros H.
  destruct (parseLoop (S (List.length in_)) in_ [] []) as [r |] eqn:E;
    [| discriminate].
  pose proof (parseLoop_result _ _ _ _ _ E) as HR.
  destruct r as [[is1 jt1] | e | m]; try discriminate. exact HR.
Qed.

Lemma NewProgramFromFile_cases (fs : FileSystem) (path : string)
    (r : outcome Program) :
  NewProgramFromFile fs path = Some r ->
  (exists e : error, r = Fail e) \/
  (exists (f : Scanner) (p : Program),
      fs path = inr f /\ r = Ret p /\ NewProgramFromReader f = Some (Ret p)).
Proof.
  unfold NewProgramFromFile. destruct (fs path) as [err | f] eqn:E.
  - intros H. inversion H. left. eauto.
  - intros H. destruct r as [p | e | msg].
    + right. exists f, p. auto.
    + left. eauto.
    + exfalso. eapply NewProgramFromReader_no_panic. exact H.
Qed.

(** The command ends in one of three ways and never in a panic.  Exit code
    1, with nothing written: [os.Args] does not hold exactly the command and
    one path, or the file cannot be opened or parsed; the error printed says
    which.  Exit code 2: the program ran into an error of the stack or of a
    jump, which is printed after what the program wrote.  Exit code 0, with
    nothing printed: the program ran to its end. *)
Theorem main_exit_codes (osArgs : list string) (fs : FileSystem) (fuel : nat)
    (r : outcome Exit) :
  main osArgs fs fuel = Some r ->
  exists x : Exit,
    r = Ret x /\
    ((code x = 1 /\ written x = EmptyString /\
      ((len osArgs <> 2 /\
        printed x = Some (New "program file not specified")) \/
       (exists (path : string) (e : error),
           len osArgs = 2 /\
           index osArgs 1 = Some path /\
           NewProgramFromFile fs path = Some (Fail e) /\
           printed x = Some (Wrap e "unable to run program")))) \/
     (exists (path : string) (p : Program) (i' : Interpreter),
         len osArgs = 2 /\
         index osArgs 1 = Some path /\
         NewProgramFromFile fs path = Some (Ret p) /\
         written x = stdout i' /\
         ((code x = 2 /\
           exists e : error,
             Run fuel (NewInterpreter p [EnableDebug false]) = Some (Fail e, i') /\
             printed x = Some e /\
             (e = ErrStackEmpty \/ e = ErrInvalidJump \/
              exists v : any, e = ErrNotInt v \/ e = ErrNotString v)) \/
          (code x = 0 /\
           Run fuel (NewInterpreter p [EnableDebug false]) = Some (Ret tt, i') /\
           printed x = None /\
           at_end i')))).
Proof.
  unfold main. destruct (Z.eqb_spec (len osArgs) 2) as [Hlen | Hlen]; simpl.
  2: { intros H. inversion H. eexists. split; [reflexivity |]. left.
       repeat split. left. auto. }
  destruct (index osArgs 1) as [path |] eqn:Ep.
  2: { exfalso. unfold len in Hlen.
       destruct osArgs as [| a0 [| a1 rest]]; simpl in Hlen; try lia.
       discriminate Ep. }
  destruct (NewProgramFromFile fs path) as [rp |] eqn:EP; [| discriminate].
  destruct (NewProgramFromFile_cases _ _ _ EP)
    as [[e ->] | (f & p & Hf & -> & HR)].
  - intros H. inversion H. eexists. split; [reflexivity |]. left.
    repeat split. right. exists path, e. auto.
  - destruct (Run fuel (NewInterpreter p [EnableDebug false]))
      as [[ro i'] |] eqn:ER; [| discriminate].
    destruct (parsed_well_formed _ _ HR) as (lines & _ & Hwf).
    assert (Hat : at_line lines (NewInterpreter p [EnableDebug false])).
    { exists 0%nat. split; [lia | reflexivity]. }
    destruct (well_formed_run lines fuel
                (NewInterpreter p [EnableDebug false]) _ _ Hwf Hat ER)
      as [_ [[-> He] | (e & -> & Hre)]].
    + intros H. inversion H. eexists. split; [reflexivity |]. right.
      exists path, p, i'. repeat split; auto.
    + assert (Hne : e <> EOF).
      { destruct Hre as [-> | [-> | (v & [-> | ->])]]; discriminate. }
      intros H. assert (Hx : r = Ret (exitWithCode 2 (stdout i') e)).
      { destruct e; [contradiction | inversion H; reflexivity ..]. }
      subst r. eexists. split; [reflexivity |]. right.
      exists path, p, i'. repeat split; auto.
      left. split; [reflexivity |]. exists e. auto.
Qed.

Lemma main_exit_codes_witness :
  let fs : FileSystem :=
    fun path =>
      if String.eqb path "count.crust" then inr (NewScanner counting_text)
      else inl (New "no such file") in
  exists x : Exit,
    Ret (mkExit 0 counting_output None) = Ret x /\
    ((code x = 1 /\ written x = EmptyString /\
      ((len ["crust"%string; "count.crust"%string] <> 2 /\
        printed x = Some (New "program file not specified")) \/
       (exists (path : string) (e : error),
           len ["crust"%string; "count.crust"%string] = 2 /\
           index ["crust"%string; "count.crust"%string] 1 = Some path /\
           NewProgramFromFile fs path = Some (Fail e) /\
           printed x = Some (Wrap e "unable to run program")))) \/
     (exists (path : string) (p : Program) (i' : Interpreter),
         len ["crust"%string; "count.crust"%string] = 2 /\
         index ["crust"%string; "count.crust"%string] 1 = Some path /\
         NewProgramFromFile fs path = Some (Ret p) /\
         written x = stdout i' /\
         ((code x = 2 /\
           exists e : error,
             Run 72 (NewInterpreter p [EnableDebug false]) = Some (Fail e, i') /\
             printed x = Some e /\
             (e = ErrStackEmpty \/ e = ErrInvalidJump \/
              exists v : any, e = ErrNotInt v \/ e = ErrNotString v)) \/
          (code x = 0 /\
           Run 72 (NewInterpreter p [EnableDebug false]) = Some (Ret tt, i') /\
           printed x = None /\
           at_end i')))).
Proof.
  intros fs.
  apply (main_exit_codes ["crust"%string; "count.crust"%string] fs 72%nat).
  vm_compute. reflexivity.
Defined.

(* ===================================================================== *)
(** ** A run that does not end                                            *)
(* ===================================================================== *)

Lemma set_ip_same (i : Interpreter) : set_ip (ip i) i = i.
Proof. destruct i. reflexivity. Qed.

(** [Run] has no bound on its steps: on a program made of lines of the
    table, standing at a line that is a [jump] to itself, every step succeeds
    and comes back to the same state, and [Run] never returns. *)
Theorem self_jump_never_returns (lines : list (list any)) (i : Interpreter)
    (k : nat) :
  well_formed lines (program i) ->
  nth_error lines k = Some [AOp OpJump; AInt (Z.of_nat (S k))] ->
  ip i = line_start lines k ->
  GoInt.inRange (Z.of_nat (S k)) ->
  Step i = (Ret tt, i) /\ forall fuel : nat, Run fuel i = None.
Proof.
  intros Hwf Hn Hip Hr.
  assert (Hk : (k < List.length lines)%nat).
  { apply nth_error_Some. congruence. }
  destruct (line_split lines k Hk) as (cells & Hn' & Hc & _).
  rewrite Hn in Hn'. inversion Hn'; subst cells. clear Hn'.
  pose proof Hwf as (_ & Hins & Hjt). rewrite Hc in Hins.
  assert (H0 : cell_at i 0 = Some (AOp OpJump)).
  { apply (cell_at_line i _ _ _ 0%nat _ Hins Hip). reflexivity. }
  assert (H1 : cell_at i 1 = Some (AInt (Z.of_nat (S k)))).
  { apply (cell_at_line i _ _ _ 1%nat _ Hins Hip). reflexivity. }
  assert (HS : Step i = (Ret tt, i)).
  { rewrite (Step_jump i _ H0 H1).
    rewrite (jump_valid lines) by (try assumption; unfold len; lia).
    replace (Z.to_nat (Z.of_nat (S k) - 1)) with k by lia.
    change (set_ip (line_start lines k) (set_ip (ip i + 2) i))
      with (set_ip (line_start lines k) i).
    rewrite <- Hip, set_ip_same. reflexivity. }
  split; [exact HS |].
  induction fuel as [| fuel IH]; simpl; [reflexivity |].
  rewrite HS. exact IH.
Qed.

Lemma self_jump_never_returns_witness :
  let i := mkInterpreter (mkProgram [AOp OpPutln; AOp OpJump; AInt 2] [0; 1])
             1 [] EmptyString false in
  Step i = (Ret tt, i) /\ forall fuel : nat, Run fuel i = None.
Proof.
  intros i.
  apply (self_jump_never_returns [[AOp OpPutln]; [AOp OpJump; AInt 2]] i 1).
  - split; [| split; reflexivity].
    repeat first [apply Forall_nil | apply Forall_cons]; simpl; auto 10.
  - reflexivity.
  - reflexivity.
  - unfold GoInt.inRange, GoInt.minInt, GoInt.maxInt, GoInt.intSize. simpl. lia.
Defined.
